(** * xml.js: a shallow embedding of the XML parser and composer

    The JavaScript source is [src/xml.js].  Strings are modelled as
    [string], one [ascii] per UTF-16 code unit below 256 (Latin-1); the
    character classes [\s], [\w] and [.] are the ECMAScript ones
    restricted to that range.  Regular expressions are kept as syntax
    and run by a backtracking matcher with the priority order of
    ECMAScript (greedy before lazy alternatives, left alternative first),
    so every pattern below can be compared with the literal in the
    source. *)

From Stdlib Require Import String Ascii List ZArith Lia Bool Arith PeanoNat.
From Stdlib Require Import DecimalString Permutation.
Set Warnings "-register-all".
Import ListNotations.
Open Scope string_scope.

(** ** Regular expressions *)

Module Regex.

Inductive re : Type :=
| Eps                                   (* empty pattern *)
| Chr (c : ascii)                       (* a literal character *)
| Cls (p : ascii -> bool)               (* a character class *)
| Seq (r1 r2 : re)                      (* r1 r2 *)
| Alt (r1 r2 : re)                      (* r1|r2 *)
| Rep (greedy : bool) (r : re)          (* r* and r*? *)
| Grp (n : nat) (r : re)                (* n-th capturing group *)
| Ref (n : nat)                         (* back-reference \n *)
| Bos                                   (* ^ without the m flag *)
| Eos.                                  (* $ without the m flag *)

(** r+ , r+? , r? and a literal word. *)
Definition Plus (greedy : bool) (r : re) : re := Seq r (Rep greedy r).
Definition Opt (r : re) : re := Alt r Eps.

Fixpoint Lit (s : string) : re :=
  match s with
  | EmptyString => Eps
  | String c EmptyString => Chr c
  | String c s' => Seq (Chr c) (Lit s')
  end.

(** A matcher state: the index reached, the text that is left, and the
    captures made so far. *)
Record mstate : Type := MState {
  pos : nat;
  rest : string;
  caps : list (nat * string)
}.

Fixpoint cap_lookup (n : nat) (l : list (nat * string)) : option string :=
  match l with
  | [] => None
  | (i, w) :: l' => if Nat.eqb i n then Some w else cap_lookup n l'
  end.

Definition cap (n : nat) (s : mstate) : option string := cap_lookup n (caps s).

(** [cap] as JavaScript shows it when the group took part in the match. *)
Definition group (n : nat) (s : mstate) : string :=
  match cap n s with Some w => w | None => "" end.

Fixpoint take (n : nat) (s : string) : string :=
  match n, s with
  | S n', String c s' => String c (take n' s')
  | _, _ => EmptyString
  end.

Fixpoint drop (n : nat) (s : string) : string :=
  match n, s with
  | S n', String _ s' => drop n' s'
  | _, _ => s
  end.

Fixpoint starts_with (w s : string) : bool :=
  match w, s with
  | EmptyString, _ => true
  | String a w', String b s' => Ascii.eqb a b && starts_with w' s'
  | String _ _, EmptyString => false
  end.

Definition step (s : mstate) (t : string) : mstate :=
  MState (S (pos s)) t (caps s).

(** The star: [rep_loop body greedy k n s] runs [body] up to [n] more
    times, then [k].  An iteration that consumes nothing is rejected, as
    in ECMAScript's RepeatMatcher, so the length of the text that is
    left bounds the number of iterations. *)
Fixpoint rep_loop (body : (mstate -> option mstate) -> mstate -> option mstate)
  (greedy : bool) (k : mstate -> option mstate) (n : nat) (s : mstate)
  {struct n} : option mstate :=
  match n with
  | O => k s
  | S n' =>
      let again (_ : unit) :=
        body (fun s' => if Nat.eqb (pos s') (pos s) then None
                        else rep_loop body greedy k n' s') s in
      if greedy then
        match again tt with
        | Some m => Some m
        | None => k s
        end
      else
        match k s with
        | Some m => Some m
        | None => again tt
        end
  end.

(** Backtracking matcher in continuation-passing style: [run r k s]
    matches [r] at [s] and hands every way of doing so to [k], in
    priority order, until [k] accepts. *)
Fixpoint run (r : re) (k : mstate -> option mstate) (s : mstate)
  {struct r} : option mstate :=
  match r with
  | Eps => k s
  | Chr c =>
      match rest s with
      | String a t => if Ascii.eqb a c then k (step s t) else None
      | EmptyString => None
      end
  | Cls p =>
      match rest s with
      | String a t => if p a then k (step s t) else None
      | EmptyString => None
      end
  | Seq r1 r2 => run r1 (run r2 k) s
  | Alt r1 r2 =>
      match run r1 k s with
      | Some m => Some m
      | None => run r2 k s
      end
  | Rep greedy r1 => rep_loop (run r1) greedy k (String.length (rest s)) s
  | Grp n r1 =>
      run r1 (fun s' =>
                k (MState (pos s') (rest s')
                     ((n, take (pos s' - pos s) (rest s)) :: caps s'))) s
  | Ref n =>
      match cap n s with
      | None => k s
      | Some w =>
          if starts_with w (rest s)
          then k (MState (pos s + String.length w)
                    (drop (String.length w) (rest s)) (caps s))
          else None
      end
  | Bos => if Nat.eqb (pos s) 0 then k s else None
  | Eos => match rest s with EmptyString => k s | _ => None end
  end.

(** The first index at or after [p] where [r] matches; [t] is the text
    from [p] on.  The result is the start index and the final state. *)
Fixpoint scan (r : re) (p : nat) (t : string) : option (nat * mstate) :=
  match run r Some (MState p t []) with
  | Some m => Some (p, m)
  | None =>
      match t with
      | EmptyString => None
      | String _ t' => scan r (S p) t'
      end
  end.

(** [re.exec(text)] for a regular expression whose [lastIndex] is [i]
    (a non-global [text.match(re)] is the same at index 0). *)
Definition exec (r : re) (text : string) (i : nat) : option (nat * mstate) :=
  if Nat.ltb (String.length text) i then None else scan r i (drop i text).

Definition matches (r : re) (text : string) : option mstate :=
  match exec r text 0 with
  | Some (_, m) => Some m
  | None => None
  end.

Definition test (r : re) (text : string) : bool :=
  match exec r text 0 with Some _ => true | None => false end.

(** [text.replace(re, by)] for a global [re] and a replacement without
    [$] patterns: [go skip p t] copies [t], the text from index [p] on,
    after dropping the [skip] characters of a match in progress. *)
Fixpoint replace_go (r : re) (by_ : string) (skip p : nat) (t : string)
  : string :=
  match skip with
  | S k =>
      match t with
      | EmptyString => EmptyString
      | String _ t' => replace_go r by_ k (S p) t'
      end
  | O =>
      match run r Some (MState p t []) with
      | Some m =>
          match t with
          | EmptyString => by_
          | String c t' =>
              if Nat.eqb (pos m) p
              then by_ ++ String c (replace_go r by_ 0 (S p) t')
              else by_ ++ replace_go r by_ (pos m - p - 1) (S p) t'
          end
      | None =>
          match t with
          | EmptyString => EmptyString
          | String c t' => String c (replace_go r by_ 0 (S p) t')
          end
      end
  end.

Definition replace_all (r : re) (by_ : string) (text : string) : string :=
  replace_go r by_ 0 0 text.

(** [text.replace(re, by)] for a non-global [re]: the first match only. *)
Definition replace_first (r : re) (by_ : string) (text : string) : string :=
  match exec r text 0 with
  | Some (i, m) => take i text ++ by_ ++ rest m
  | None => text
  end.

End Regex.

Import Regex.

(** ** Character classes and the patterns of the parser

    Each pattern is preceded by its literal in the source; where the
    literal has a star directly before a closing parenthesis, the comment
    separates the two with a space. *)

Definition code (c : ascii) : nat := nat_of_ascii c.

(** The double quote character, and a string in double quotes. *)
Definition dquote : ascii := "034".
Definition quoted (s : string) : string :=
  String dquote s ++ String dquote EmptyString.

Definition in_range (lo hi : nat) (c : ascii) : bool :=
  Nat.leb lo (code c) && Nat.leb (code c) hi.

Definition is_char (a : ascii) (c : ascii) : bool := Ascii.eqb c a.
Definition not_char (a : ascii) (c : ascii) : bool := negb (Ascii.eqb c a).

(** [\s]: tab, line feed, vertical tab, form feed, carriage return,
    space and no-break space. *)
Definition ws (c : ascii) : bool :=
  in_range 9 13 c || Nat.eqb (code c) 32 || Nat.eqb (code c) 160.

(** [\S] *)
Definition non_ws (c : ascii) : bool := negb (ws c).

(** [\w] *)
Definition word (c : ascii) : bool :=
  in_range 65 90 c || in_range 97 122 c || in_range 48 57 c
  || is_char "_" c.

(** [[\w\-\:\.]] *)
Definition name_char (c : ascii) : bool :=
  word c || is_char "-" c || is_char ":" c || is_char "." c.

(** [[\w\-\:]] *)
Definition pi_name_char (c : ascii) : bool :=
  word c || is_char "-" c || is_char ":" c.

(** [.]: anything but a line terminator. *)
Definition dot (c : ascii) : bool :=
  negb (Nat.eqb (code c) 10 || Nat.eqb (code c) 13).

(** [[^]] and [[\s\S]] *)
Definition any (c : ascii) : bool := true.

Fixpoint Cat (l : list re) : re :=
  match l with
  | [] => Eps
  | [r] => r
  | r :: l' => Seq r (Cat l')
  end.

Definition star (p : ascii -> bool) : re := Rep true (Cls p).
Definition plus (p : ascii -> bool) : re := Plus true (Cls p).
Definition lazy (p : ascii -> bool) : re := Rep false (Cls p).

(** /([^<]*?)<([^>]+)>/g *)
Definition patTag : re :=
  Cat [Grp 1 (lazy (not_char "<")); Chr "<"; Grp 2 (plus (not_char ">"));
       Chr ">"].
(** /^\s*([\!\?])/ *)
Definition patSpecialTag : re :=
  Cat [Bos; star ws; Grp 1 (Cls (fun c => is_char "!" c || is_char "?" c))].
(** /^\s*\?/ *)
Definition patPITag : re := Cat [Bos; star ws; Chr "?"].
(** /^\s*\!--/ *)
Definition patCommentTag : re := Cat [Bos; star ws; Lit "!--"].
(** /^\s*\!DOCTYPE/ *)
Definition patDTDTag : re := Cat [Bos; star ws; Lit "!DOCTYPE"].
(** /^\s*\!\s*\[\s*CDATA/ *)
Definition patCDATATag : re :=
  Cat [Bos; star ws; Chr "!"; star ws; Chr "["; star ws; Lit "CDATA"].
(** /^\s*(\/?)([\w\-\:\.]+)\s*([\s\S]* )$/ *)
Definition patStandardTag : re :=
  Cat [Bos; star ws; Grp 1 (Opt (Chr "/")); Grp 2 (plus name_char); star ws;
       Grp 3 (star any); Eos].
(** /\/\s*$/ *)
Definition patSelfClosing : re := Cat [Chr "/"; star ws; Eos].
(** patAttrib, built with new RegExp from a string; as a literal it is
    /([\w\-\:\.]+)\s*=\s*([QA])([^\2]*?)\2/g with Q the double quote and
    A the apostrophe.  Inside a class, \2 is not a back-reference: it is
    the character with code 2. *)
Definition patAttrib : re :=
  Cat [Grp 1 (plus name_char); star ws; Chr "="; star ws;
       Grp 2 (Cls (fun c => is_char dquote c || is_char "'" c));
       Grp 3 (lazy (not_char "002")); Ref 2].
(** /^\s*\?\s*([\w\-\:]+)\s*(.* )$/ *)
Definition patPINode : re :=
  Cat [Bos; star ws; Chr "?"; star ws; Grp 1 (plus pi_name_char); star ws;
       Grp 2 (star dot); Eos].
(** /--$/ *)
Definition patEndComment : re := Cat [Lit "--"; Eos].
(** /([^>]*?)>/g *)
Definition patNextClose : re := Cat [Grp 1 (lazy (not_char ">")); Chr ">"].
(** patExternalDTDNode, built with new RegExp from a string; as a literal
    it is /^\s*\!DOCTYPE\s+([\w\-\:]+)\s+(SYSTEM|PUBLIC)\s+Q([^Q]+)Q/ with Q
    the double quote. *)
Definition patExternalDTDNode : re :=
  Cat [Bos; star ws; Lit "!DOCTYPE"; plus ws; Grp 1 (plus pi_name_char);
       plus ws; Grp 2 (Alt (Lit "SYSTEM") (Lit "PUBLIC")); plus ws;
       Chr dquote; Grp 3 (plus (not_char dquote)); Chr dquote].
(** /^\s*\!DOCTYPE\s+([\w\-\:]+)\s+\[/ *)
Definition patInlineDTDNode : re :=
  Cat [Bos; star ws; Lit "!DOCTYPE"; plus ws; Grp 1 (plus pi_name_char);
       plus ws; Chr "["].
(** /\]$/ *)
Definition patEndDTD : re := Cat [Chr "]"; Eos].
(** /^\s*\!DOCTYPE\s+([\w\-\:]+)\s+\[(.* )\]/ *)
Definition patDTDNode : re :=
  Cat [Bos; star ws; Lit "!DOCTYPE"; plus ws; Grp 1 (plus pi_name_char);
       plus ws; Chr "["; Grp 2 (star dot); Chr "]"].
(** /\]\]$/ *)
Definition patEndCDATA : re := Cat [Lit "]]"; Eos].
(** /^\s*\!\s*\[\s*CDATA\s*\[([^]* )\]\]/ *)
Definition patCDATANode : re :=
  Cat [Bos; star ws; Chr "!"; star ws; Chr "["; star ws; Lit "CDATA";
       star ws; Chr "["; Grp 1 (star any); Lit "]]"].
(** var re_valid_tag_name = /^\w[\w\-\:\.]*$/ *)
Definition re_valid_tag_name : re :=
  Cat [Bos; Cls word; star name_char; Eos].

(** ** Values: strings, hashes and arrays *)

(** A tree node is a string, a hash (a JavaScript object, its keys in
    enumeration order) or an array. *)
Inductive value : Type :=
| Str (s : string)
| Hash (o : list (string * value))
| Arr (l : list value).

Definition obj : Type := list (string * value).

Fixpoint join (sep : string) (l : list string) : string :=
  match l with
  | [] => EmptyString
  | [s] => s
  | s :: l' => s ++ sep ++ join sep l'
  end.

(** Truthiness: only the empty string is falsy among these values. *)
Definition truthy (v : value) : bool :=
  match v with
  | Str EmptyString => false
  | _ => true
  end.

(** Keys that are canonical array indices (0 .. 2^32 - 2) are enumerated
    first, in numeric order; the other keys follow in insertion order. *)
Fixpoint digits_value (s : string) (acc : N) : option N :=
  match s with
  | EmptyString => Some acc
  | String c s' =>
      if in_range 48 57 c
      then digits_value s' (acc * 10 + N.of_nat (code c - 48))%N
      else None
  end.

Definition array_index (k : string) : option N :=
  match k with
  | EmptyString => None
  | String c k' =>
      if Ascii.eqb c "0" then
        match k' with EmptyString => Some 0%N | _ => None end
      else if Nat.ltb 10 (String.length k) then None
      else
        match digits_value k 0%N with
        | Some n => if N.ltb n 4294967295%N then Some n else None
        | None => None
        end
  end.

Fixpoint obj_get (k : string) (o : obj) : option value :=
  match o with
  | [] => None
  | (k', v) :: o' => if String.eqb k' k then Some v else obj_get k o'
  end.

Definition obj_has (k : string) (o : obj) : bool :=
  match obj_get k o with Some _ => true | None => false end.

(** The members of Object.prototype.  On an object without an own
    property of one of these names, reading the name gives the inherited
    member: a function, or the prototype itself for __proto__.  Neither
    is one of the values above. *)
Definition inherited (k : string) : bool :=
  existsb (String.eqb k)
    ["constructor"; "hasOwnProperty"; "isPrototypeOf";
     "propertyIsEnumerable"; "toLocaleString"; "toString"; "valueOf";
     "__proto__"; "__defineGetter__"; "__defineSetter__";
     "__lookupGetter__"; "__lookupSetter__"].

(** ToPrimitive and ToString of a value, as string concatenation and the
    default order of sort apply them: an array is its members joined
    with commas and a hash is [[object Object]], by the toString that it
    inherits.  A hash with an own key toString has no toString to call
    (no value here is a function): the conversion throws a TypeError,
    which is [None]. *)
Fixpoint to_str (v : value) : option string :=
  match v with
  | Str s => Some s
  | Hash o => if obj_has "toString" o then None else Some "[object Object]"
  | Arr l =>
      match
        (fix members (l : list value) : option (list string) :=
           match l with
           | [] => Some []
           | x :: l' =>
               match to_str x, members l' with
               | Some s, Some r => Some (s :: r)
               | _, _ => None
               end
           end) l
      with
      | Some ss => Some (join "," ss)
      | None => None
      end
  end.

Fixpoint obj_update (k : string) (v : value) (o : obj) : obj :=
  match o with
  | [] => []
  | (k', v') :: o' =>
      if String.eqb k' k then (k', v) :: o' else (k', v') :: obj_update k v o'
  end.

(** Where a new index key [n] goes: before the first key that is not an
    index or is a larger index. *)
Fixpoint obj_insert_index (n : N) (k : string) (v : value) (o : obj) : obj :=
  match o with
  | [] => [(k, v)]
  | (k', v') :: o' =>
      match array_index k' with
      | Some n' =>
          if N.ltb n' n then (k', v') :: obj_insert_index n k v o'
          else (k, v) :: o
      | None => (k, v) :: o
      end
  end.

(** [o[k] = v]: an own property is written; a name that the object does
    not hold is added to it, except __proto__, which is then the accessor
    of Object.prototype: its setter adds no own property.  It ignores a
    string; a hash or an array would replace the prototype of the
    object, which is beyond the model: [add_leaf], [keys_beyond] and
    [always_array] stop before such an assignment. *)
Definition obj_set (k : string) (v : value) (o : obj) : obj :=
  if obj_has k o then obj_update k v o
  else if String.eqb k "__proto__" then o
  else
    match array_index k with
    | Some n => obj_insert_index n k v o
    | None => (o ++ [(k, v)])%list
    end.

(** [delete o[k]] *)
Fixpoint obj_delete (k : string) (o : obj) : obj :=
  match o with
  | [] => []
  | (k', v) :: o' =>
      if String.eqb k' k then o' else (k', v) :: obj_delete k o'
  end.

(** var num_keys = function (hash) *)
Definition num_keys (o : obj) : nat := List.length o.

(** var first_key = function (hash): the first key, or null. *)
Definition first_key (o : obj) : option string :=
  match o with
  | [] => None
  | (k, _) :: _ => Some k
  end.

(** A name that may be null, as string concatenation prints it. *)
Definition name_str (name : option string) : string :=
  match name with Some n => n | None => "null" end.

(** ** String utilities *)

(** String.prototype.toLowerCase on code units below 256. *)
Definition lower_char (c : ascii) : ascii :=
  if in_range 65 90 c || in_range 192 214 c || in_range 216 222 c
  then ascii_of_nat (code c + 32) else c.

Fixpoint toLowerCase (s : string) : string :=
  match s with
  | EmptyString => EmptyString
  | String c s' => String (lower_char c) (toLowerCase s')
  end.

(** The number of matches of /\n/g. *)
Fixpoint count_newlines (s : string) : nat :=
  match s with
  | EmptyString => 0
  | String c s' => (if Nat.eqb (code c) 10 then 1 else 0) + count_newlines s'
  end.

(** An integer as string concatenation prints it. *)
Definition Z_to_str (z : Z) : string := NilZero.string_of_int (Z.to_int z).

(** var trim = function (text) *)
Definition trim (text : string) : string :=
  match text with
  | EmptyString => text
  | _ =>
      let text := replace_first (Cat [Bos; plus ws]) "" text in
      replace_first (Cat [plus ws; Eos]) "" text
  end.

(** var encode_entities = function (text) *)
Definition encode_entities (text : string) : string :=
  match text with
  | EmptyString => text
  | _ =>
      let text := replace_all (Chr "&") "&amp;" text in  (* MUST BE FIRST *)
      let text := replace_all (Chr "<") "&lt;" text in
      replace_all (Chr ">") "&gt;" text
  end.

(** var encode_attrib_entities = function (text) *)
Definition encode_attrib_entities (text : string) : string :=
  match text with
  | EmptyString => text
  | _ =>
      let text := replace_all (Chr "&") "&amp;" text in  (* MUST BE FIRST *)
      let text := replace_all (Chr "<") "&lt;" text in
      let text := replace_all (Chr ">") "&gt;" text in
      let text := replace_all (Chr dquote) "&quot;" text in
      replace_all (Chr "'") "&apos;" text
  end.

(** var decode_entities = function (text) *)
Definition decode_entities (text : string) : string :=
  match text with
  | EmptyString => text
  | _ =>
      if test (Chr "&") text then
        let text := replace_all (Lit "&lt;") "<" text in
        let text := replace_all (Lit "&gt;") ">" text in
        let text := replace_all (Lit "&quot;") (String dquote "") text in
        let text := replace_all (Lit "&apos;") "'" text in
        replace_all (Lit "&amp;") "&" text  (* MUST BE LAST *)
      else text
  end.

(** ** The parser object *)

(** The recognised options, with the defaults of XML.prototype. *)
Record options : Type := Options {
  preserveDocumentNode : bool;
  preserveAttributes : bool;
  preserveWhitespace : bool;
  lowerCase : bool;
  forceArrays : bool;
  attribsKey : string;
  dataKey : string
}.

Definition default_options : options :=
  Options false false false false false "_Attribs" "_Data".

(** An entry of [this.errors]. *)
Record error : Type := MkError {
  err_type : string;
  err_key : string;
  err_text : string;
  err_line : Z
}.

(** The fields of a parser object; [lastIndex] is [patTag.lastIndex]. *)
Record XML : Type := MkXML {
  opts : options;
  text : string;
  tree : value;
  errors : list error;
  piNodeList : list string;
  dtdNodeList : list string;
  documentNodeName : option string;
  lastIndex : nat
}.

Definition set_lastIndex (i : nat) (p : XML) : XML :=
  MkXML (opts p) (text p) (tree p) (errors p) (piNodeList p) (dtdNodeList p)
        (documentNodeName p) i.

Definition push_error (e : error) (p : XML) : XML :=
  MkXML (opts p) (text p) (tree p) (errors p ++ [e])%list (piNodeList p)
        (dtdNodeList p) (documentNodeName p) (lastIndex p).

Definition push_pi (tag : string) (p : XML) : XML :=
  MkXML (opts p) (text p) (tree p) (errors p) (piNodeList p ++ [tag])%list
        (dtdNodeList p) (documentNodeName p) (lastIndex p).

Definition push_dtd (tag : string) (p : XML) : XML :=
  MkXML (opts p) (text p) (tree p) (errors p) (piNodeList p)
        (dtdNodeList p ++ [tag])%list (documentNodeName p) (lastIndex p).

Definition set_tree (t : value) (name : option string) (p : XML) : XML :=
  MkXML (opts p) (text p) t (errors p) (piNodeList p) (dtdNodeList p)
        name (lastIndex p).

(** What a JavaScript call can throw here: an Error with a message,
    whatever fs.readFileSync throws for a path it cannot read, or the
    TypeError of a conversion to a string that fails.  [Beyond] is no
    exception: it ends a run at a step whose effect the values above
    cannot hold (a member inherited from Object.prototype is read, or a
    prototype is replaced); of what the code does from there on the
    model says nothing. *)
Inductive exn : Type :=
| Error (message : string)
| FsError (path : string)
| JsTypeError
| Beyond.

(** The result of a method of the parser: it returns, or it throws; the
    parser object is kept in both cases.  [OutOfFuel] belongs to the
    model only. *)
Inductive result (A : Type) : Type :=
| Ok (a : A) (p : XML)
| Throw (e : exn) (p : XML)
| OutOfFuel.
Arguments Ok {A} a p.
Arguments Throw {A} e p.
Arguments OutOfFuel {A}.

Definition bind {A B : Type} (r : result A) (f : A -> XML -> result B)
  : result B :=
  match r with
  | Ok a p => f a p
  | Throw e p => Throw e p
  | OutOfFuel => OutOfFuel
  end.

(** XML.prototype.error *)
Definition error_count (p : XML) : nat := List.length (errors p).

(** XML.prototype.getError, for an error that is there; an error of the
    parser has no code. *)
Definition getError (e : error) : string :=
  let text := (match err_type e with
               | EmptyString => "General"
               | t => t
               end) ++ " Error" in
  let text := text ++ ": " ++ err_key e in
  let text := if Z.eqb (err_line e) 0 then text
              else text ++ " on line " ++ Z_to_str (err_line e) in
  match err_text e with
  | EmptyString => text
  | t => text ++ ": " ++ t
  end.

(** XML.prototype.getLastError *)
Definition getLastError (p : XML) : string :=
  match rev (errors p) with
  | [] => EmptyString
  | e :: _ => getError e
  end.

(** XML.prototype.throwParseError *)
Definition throwParseError {A : Type} (key tag : string) (p : XML)
  : result A :=
  let parsedSource := take (lastIndex p) (text p) in
  let lineNum := (Z.of_nat (count_newlines parsedSource) + 1)%Z in
  let lineNum := (lineNum - Z.of_nat (count_newlines tag))%Z in
  let p := push_error (MkError "Parse" key ("<" ++ tag ++ ">") lineNum) p in
  Throw (Error (getLastError p)) p.

(** XML.prototype.parsePINode *)
Definition parsePINode (tag : string) (p : XML) : result string :=
  if negb (test patPINode tag)
  then throwParseError "Malformed processor instruction" tag p
  else Ok tag (push_pi tag p).

(** The loop shared by the comment, DTD and CDATA parsers:
      while (!tag.match(patEnd)) {
        if (matches = this.patNextClose.exec(this.text)) tag += '>' + matches[1];
        else { this.throwParseError(unclosed, tag); return null; } }
    [i] is patNextClose.lastIndex.  A chunk consumes its closing bracket,
    so the rounds given by the callers are never used up. *)
Fixpoint next_close_loop (fuel : nat) (patEnd : re) (unclosed : string)
  (tag : string) (i : nat) (p : XML) : result (string * nat) :=
  if test patEnd tag then Ok (tag, i) p
  else
    match fuel with
    | O => OutOfFuel
    | S fuel' =>
        match exec patNextClose (text p) i with
        | Some (_, m) =>
            next_close_loop fuel' patEnd unclosed (tag ++ ">" ++ group 1 m)
              (pos m) p
        | None => throwParseError unclosed tag p
        end
    end.

(** XML.prototype.parseCommentNode *)
Definition parseCommentNode (tag : string) (p : XML) : result string :=
  bind (next_close_loop (S (String.length (text p))) patEndComment
          "Unclosed comment tag" tag (lastIndex p) p)
    (fun r p => Ok (fst r) (set_lastIndex (snd r) p)).

(** XML.prototype.parseDTDNode *)
Definition parseDTDNode (tag : string) (p : XML) : result string :=
  if test patExternalDTDNode tag then Ok tag (push_dtd tag p)
  else if test patInlineDTDNode tag then
    bind (next_close_loop (S (String.length (text p))) patEndDTD
            "Unclosed DTD tag" tag (lastIndex p) p)
      (fun r p =>
         let tag := fst r in
         let p := set_lastIndex (snd r) p in
         if test patDTDNode tag then Ok tag (push_dtd tag p)
         else throwParseError "Malformed DTD tag" tag p)
  else throwParseError "Malformed DTD tag" tag p.

(** XML.prototype.parseCDATANode *)
Definition parseCDATANode (tag : string) (p : XML) : result string :=
  bind (next_close_loop (S (String.length (text p))) patEndCDATA
          "Unclosed CDATA tag" tag (lastIndex p) p)
    (fun r p =>
       let tag := fst r in
       let p := set_lastIndex (snd r) p in
       match matches patCDATANode tag with
       | Some m => Ok (group 1 m) p
       | None => throwParseError "Malformed CDATA tag" tag p
       end).

(** ** XML.prototype.parse *)

(** Lines 119-120 and 131-132: [s] joins the text under [this.dataKey],
    after a space when that key is already there.  What is there is
    turned into a string by [+=], which throws for a hash with a key
    toString (an element named as the text key leaves such a hash
    there); a text key that the branch does not hold but inherits is
    beyond the model. *)
Definition append_data (p : XML) (s : string) (branch : obj) : result obj :=
  let k := dataKey (opts p) in
  let s := if preserveWhitespace (opts p) then decode_entities s
           else trim (decode_entities s) in
  match obj_get k branch with
  | Some v =>
      match to_str v with
      | Some t => Ok (obj_set k (Str ((t ++ " ") ++ s)) branch) p
      | None => Throw JsTypeError p
      end
  | None =>
      if inherited k then Throw Beyond p
      else Ok (obj_set k (Str (EmptyString ++ s)) branch) p
  end.

(** Lines 180-184: the attribute loop; [i] is patAttrib.lastIndex.  A
    match consumes at least its equals sign, so [String.length attribsRaw]
    rounds are never used up. *)
Fixpoint parse_attribs (fuel : nat) (o : options) (attribsRaw : string)
  (i : nat) (attribs : obj) : obj :=
  match fuel with
  | O => attribs
  | S fuel' =>
      match exec patAttrib attribsRaw i with
      | Some (_, m) =>
          let key := if lowerCase o then toLowerCase (group 1 m)
                     else group 1 m in
          parse_attribs fuel' o attribsRaw (pos m)
            (obj_set key (Str (decode_entities (group 3 m))) attribs)
      | None => attribs
      end
  end.

(** Lines 169-189: the new leaf with its attributes, merged into the leaf
    itself or kept under [this.attribsKey], which is deleted again when
    no attribute was found.  (The key of the attributes is not __proto__
    here when attributes are preserved: see [keys_beyond].) *)
Definition new_leaf (p : XML) (attribsRaw : string) : obj :=
  let o := opts p in
  let attribs := parse_attribs (S (String.length attribsRaw)) o attribsRaw 0 []
  in
  if preserveAttributes o then
    let leaf := obj_set (attribsKey o) (Hash attribs) [] in
    if Nat.eqb (num_keys attribs) 0 then obj_delete (attribsKey o) leaf
    else leaf
  else attribs.

(** Lines 197-204: compress into a simple node if text only.  (The text
    key is no member of Object.prototype here: see [keys_beyond].) *)
Definition compress (p : XML) (leaf : obj) : value :=
  let num_leaf_keys := num_keys leaf in
  match obj_get (dataKey (opts p)) leaf with
  | Some data =>
      if Nat.eqb num_leaf_keys 1 then data
      else if Nat.eqb num_leaf_keys 0 then Str EmptyString
      else Hash leaf
  | None =>
      if Nat.eqb num_leaf_keys 0 then Str EmptyString else Hash leaf
  end.

(** Lines 206-221: add the leaf to its parent branch; [top] is
    [branch == this.tree].  The test of line 207 reads
    [branch[nodeName]], which for a name that the branch does not hold
    is undefined unless the name is a member of Object.prototype: then
    the inherited member would be stored in an array with the leaf,
    which is beyond the model ([None]). *)
Definition add_leaf (p : XML) (top : bool) (nodeName : string) (leaf : value)
  (branch : obj) : option obj :=
  match obj_get nodeName branch with
  | Some (Arr l) => Some (obj_set nodeName (Arr (l ++ [leaf])%list) branch)
  | Some temp => Some (obj_set nodeName (Arr [temp; leaf]) branch)
  | None =>
      if inherited nodeName then None
      else if forceArrays (opts p) && negb top
      then Some (obj_set nodeName (Arr [leaf]) branch)
      else Some (obj_set nodeName leaf branch)
  end.

Definition truthy_name (name : option string) : bool :=
  match name with
  | Some (String _ _) => true
  | _ => false
  end.

(** Lines 228-246: what follows the loop.  The result is the branch; the
    top-level call also sets [this.tree] and [this.documentNodeName]. *)
Definition finish (top : bool) (name : option string)
  (r : result (obj * bool)) : result obj :=
  bind r (fun bf p =>
    let branch := fst bf in
    let foundClosing := snd bf in
    if truthy_name name && negb foundClosing then
      throwParseError
        ("Missing closing tag (expected </" ++ name_str name ++ ">)")
        (name_str name) p
    else if top then
      let tree := obj_delete (dataKey (opts p)) branch in
      if Nat.ltb 1 (num_keys tree) then
        throwParseError "Only one top-level node is allowed in document"
          (name_str (first_key tree)) p
      else
        let doc := first_key tree in
        if truthy_name doc && negb (preserveDocumentNode (opts p)) then
          match obj_get (name_str doc) tree with
          | Some v => Ok tree (set_tree v doc p)
          | None => Ok tree (set_tree (Hash tree) doc p)
          end
        else Ok tree (set_tree (Hash tree) doc p)
    else Ok branch p).

(** Lines 113-226: the main loop, one round of [fuel] per tag.  The
    result is the branch and [foundClosing]. *)
Fixpoint parse_loop (fuel : nat) (top : bool) (name : option string)
  (branch : obj) (p : XML) {struct fuel} : result (obj * bool) :=
  match fuel with
  | O => OutOfFuel
  | S fuel' =>
      match exec patTag (text p) (lastIndex p) with
      | None => Ok (branch, false) (set_lastIndex 0 p)
      | Some (_, m) =>
          let p := set_lastIndex (pos m) p in
          let before := group 1 m in
          let tag := group 2 m in
          bind (if test (Cls non_ws) before
                then append_data p before branch else Ok branch p)
            (fun branch p =>
          if test patSpecialTag tag then
            if test patPITag tag then
              bind (parsePINode tag p)
                (fun _ p => parse_loop fuel' top name branch p)
            else if test patCommentTag tag then
              bind (parseCommentNode tag p)
                (fun _ p => parse_loop fuel' top name branch p)
            else if test patDTDTag tag then
              bind (parseDTDNode tag p)
                (fun _ p => parse_loop fuel' top name branch p)
            else if test patCDATATag tag then
              bind (parseCDATANode tag p)
                (fun tag p =>
                   bind (append_data p tag branch)
                     (fun branch p => parse_loop fuel' top name branch p))
            else throwParseError "Malformed special tag" tag p
          else
            match matches patStandardTag tag with
            | None => throwParseError "Malformed tag" tag p
            | Some ms =>
                let closing := group 1 ms in
                let nodeName := if lowerCase (opts p)
                                then toLowerCase (group 2 ms)
                                else group 2 ms in
                let attribsRaw := group 3 ms in
                if negb (String.eqb closing EmptyString) then
                  if String.eqb nodeName
                       (match name with Some n => n | None => EmptyString end)
                  then Ok (branch, true) p
                  else
                    throwParseError
                      ("Mismatched closing tag (expected </"
                         ++ name_str name ++ ">)") tag p
                else
                  let selfClosing := test patSelfClosing attribsRaw in
                  let leaf := new_leaf p attribsRaw in
                  bind (if selfClosing then Ok leaf p
                        else finish false (Some nodeName)
                               (parse_loop fuel' false (Some nodeName) leaf p))
                    (fun leaf p =>
                       let leaf := compress p leaf in
                       match add_leaf p top nodeName leaf branch with
                       | Some branch =>
                           if top then Ok (branch, false) p
                           else parse_loop fuel' top name branch p
                       | None => Throw Beyond p
                       end)
            end)
      end
  end.

(** XML.prototype.parse: the loop, then lines 228-246. *)
Definition parse (fuel : nat) (top : bool) (name : option string)
  (branch : obj) (p : XML) : result obj :=
  finish top name (parse_loop fuel top name branch p).

(** Lines 68-71: with lowerCase, the two reserved keys are folded too. *)
Definition effective (o : options) : options :=
  if lowerCase o
  then Options (preserveDocumentNode o) (preserveAttributes o)
         (preserveWhitespace o) (lowerCase o) (forceArrays o)
         (toLowerCase (attribsKey o)) (toLowerCase (dataKey o))
  else o.

(** Lines 62-73: the parser object before it parses. *)
Definition new_parser (o : options) (t : string) : XML :=
  MkXML (effective o) t (Hash []) [] [] [] (Some EmptyString) 0.

(** The reserved keys that are beyond the model: a text key that is a
    member of Object.prototype, which lines 119, 131 and 198 would read
    from a branch that does not hold it, and __proto__ as the key of the
    attributes, with which line 176 replaces the prototype of the
    leaf. *)
Definition keys_beyond (o : options) : bool :=
  inherited (dataKey o)
  || (preserveAttributes o && String.eqb (attribsKey o) "__proto__").

Section FileSystem.

(** fs.readFileSync(file, { encoding: 'utf8' }): the content of the file,
    or nothing when the call throws. *)
Variable readFileSync : string -> option string.

(** Lines 55-60: a text that does not start with an opening bracket is a
    file path, and the text is what that file holds. *)
Definition load (text : string) : string + exn :=
  if test (Cat [Bos; star ws; Chr "<"]) text then inl text
  else
    match readFileSync text with
    | None => inr (FsError text)
    | Some EmptyString => inr (Error ("File not found: " ++ text))
    | Some t => inl t
    end.

(** The constructor, called by parse_xml with the options and the text.
    With reserved keys that are beyond the model nothing is parsed. *)
Definition XML_new (o : options) (text : string) : result unit :=
  match load text with
  | inr e => Throw e (new_parser o text)
  | inl t =>
      match t with
      | EmptyString => Ok tt (new_parser o t)
      | _ =>
          if keys_beyond (effective o) then Throw Beyond (new_parser o t)
          else
            bind (parse (S (String.length t)) true None [] (new_parser o t))
              (fun _ p => Ok tt p)
      end
  end.

(** What a call of parse_xml does: it returns a value or it throws;
    [NotModelled] is a run that went beyond the model.  The call stack
    is taken to be deep enough for the nesting of the document: where
    it is not, the engine throws a RangeError from the call of line 193
    or below it. *)
Inductive outcome : Type :=
| Returned (v : value)
| Thrown (e : exn)
| Diverged
| NotModelled.

(** var parse_xml = exports.parse = function parse_xml(text, opts) *)
Definition parse_xml (text : string) (o : options) : outcome :=
  match XML_new o text with
  | Ok _ parser =>
      if Nat.eqb (error_count parser) 0 then Returned (tree parser)
      else Returned (Str (getLastError parser))
  | Throw Beyond _ => NotModelled
  | Throw e _ => Thrown e
  | OutOfFuel => Diverged
  end.

End FileSystem.

(** ** The composer *)

(** var xml_header *)
Definition xml_header : string := "<?xml version=" ++ quoted "1.0" ++ "?>".

(** A comparator passed to Array.prototype.sort, with the sign of its
    result as an integer. *)
Definition comparator (A : Type) : Type := A -> A -> Z.

(** The comparator that sort uses when it is given none: the order of
    the operands as strings, by code units. *)
Definition default_compare : comparator string :=
  fun a b =>
    match String.compare a b with
    | Lt => (-1)%Z
    | Eq => 0%Z
    | Gt => 1%Z
    end.

(** Array.prototype.sort, which is stable: [x] goes before the first
    member that it does not follow.  (With a comparator that is not a
    consistent order the result of sort is left to the implementation;
    this is its result for a consistent one.) *)
Fixpoint sort_insert {A : Type} (cmp : comparator A) (x : A) (l : list A)
  : list A :=
  match l with
  | [] => [x]
  | y :: l' =>
      if Z.ltb 0 (cmp x y) then y :: sort_insert cmp x l' else x :: l
  end.

Definition js_sort {A : Type} (cmp : comparator A) (l : list A) : list A :=
  fold_right (sort_insert cmp) [] l.

(** The arguments of compose_xml after [node], [name] and [indent];
    [None] is an argument left undefined. *)
Record composer : Type := Composer {
  indent_string : option string;
  eol : option string;
  sort : option bool;
  tag_sorter_by_name : option (comparator string);
  tag_sorter_with_same_name : option (comparator value);
  attribute_sorter : option (comparator string)
}.

Definition or_default {A : Type} (d : A) (o : option A) : A :=
  match o with Some a => a | None => d end.

Definition sort_keys (sort : bool) (cmp : option (comparator string))
  (keys : list string) : list string :=
  if sort then js_sort (or_default default_compare cmp) keys else keys.

(** The string of a value that has one. *)
Definition str_of (v : value) : string :=
  match to_str v with Some s => s | None => EmptyString end.

(** [sort ? node.sort(cmp) : node].  Without a comparator the members
    are ordered as strings: with two members or more each of them is
    converted, and a member that cannot be throws a TypeError
    ([None]). *)
Definition sort_values (sort : bool) (cmp : option (comparator value))
  (l : list value) : option (list value) :=
  if sort then
    match cmp with
    | Some f => Some (js_sort f l)
    | None =>
        if Nat.ltb 1 (List.length l)
           && existsb (fun v => match to_str v with
                                | Some _ => false
                                | None => true
                                end) l
        then None
        else Some (js_sort (fun a b => default_compare (str_of a) (str_of b))
                     l)
    end
  else Some l.

(** The result of composing: the text and the node as the call leaves
    it, or a TypeError; [Unmodelled] stands for a loop bound that is not
    a number (a hash with a truthy length, unsorted) and [NoFuel] belongs
    to the model only. *)
Inductive composed (A : Type) : Type :=
| Done (xml : string) (a : A)
| TypeError
| Unmodelled
| NoFuel.
Arguments Done {A} xml a.
Arguments TypeError {A}.
Arguments Unmodelled {A}.
Arguments NoFuel {A}.

Definition index_keys (n : nat) : list string :=
  map (fun i => NilZero.string_of_uint (Nat.to_uint i)) (seq 0 n).

Fixpoint chars (s : string) : list string :=
  match s with
  | EmptyString => []
  | String c s' => String c EmptyString :: chars s'
  end.

(** The own enumerable keys of a value with their values ([for key in]):
    a string and an array have their indices. *)
Definition entries (v : value) : obj :=
  match v with
  | Str s => combine (index_keys (String.length s)) (map Str (chars s))
  | Hash o => o
  | Arr l => combine (index_keys (List.length l)) l
  end.

(** var hash_keys_to_array = function (hash) *)
Definition hash_keys_to_array (v : value) : list string :=
  map fst (entries v).

(** [text && text.replace ? encode(text) : text] for an entity encoder
    applied to a value and then concatenated: a hash with a truthy
    replace key has a replace that is not a function, and what is no
    string is turned into one by the concatenation; [None] is the
    TypeError of either. *)
Definition encode_value (encode : string -> string) (v : value)
  : option string :=
  match v with
  | Str s => Some (encode s)
  | Hash o =>
      match obj_get "replace" o with
      | Some r => if truthy r then None else to_str v
      | None => to_str v
      end
  | Arr _ => to_str v
  end.

(** [!node.length] for a hash or an array. *)
Definition no_length (v : value) : bool :=
  match v with
  | Str s => Nat.eqb (String.length s) 0
  | Hash o =>
      match obj_get "length" o with
      | Some l => negb (truthy l)
      | None => true
      end
  | Arr l => Nat.eqb (List.length l) 0
  end.

Fixpoint repeat_string (n : nat) (s : string) : string :=
  match n with
  | O => EmptyString
  | S n' => s ++ repeat_string n' s
  end.

(** Lines 529-532: the attributes, in the order of [keys]. *)
Fixpoint compose_attribs (attribs : obj) (keys : list string)
  : option string :=
  match keys with
  | [] => Some EmptyString
  | key :: keys' =>
      match obj_get key attribs with
      | Some v =>
          match encode_value encode_attrib_entities v,
                compose_attribs attribs keys' with
          | Some s, Some xml => Some (" " ++ key ++ "=" ++ quoted s ++ xml)
          | _, _ => None
          end
      | None => None
      end
  end.

Section Compose.

(** The recursive call, for a node, a name and an indent. *)
Variable rec : value -> string -> nat -> composed value.

(** Lines 547-553: the children of a hash, in the order of [keys]; the
    result is the hash as the calls leave it. *)
Fixpoint compose_children (keys : list string) (indent : nat) (o : obj)
  : composed obj :=
  match keys with
  | [] => Done EmptyString o
  | key :: keys' =>
      if negb (String.eqb key "_Attribs") && test re_valid_tag_name key then
        match obj_get key o with
        | Some child =>
            match rec child key (indent + 1) with
            | Done xml child' =>
                match compose_children keys' indent (obj_update key child' o)
                with
                | Done xml' o' => Done (xml ++ xml') o'
                | e => e
                end
            | TypeError => TypeError
            | Unmodelled => Unmodelled
            | NoFuel => NoFuel
            end
        | None => compose_children keys' indent o
        end
      else compose_children keys' indent o
  end.

(** Lines 566-569: the members of an array, all under the same name and
    at the same indent. *)
Fixpoint compose_members (l : list value) (name : string) (indent : nat)
  : composed (list value) :=
  match l with
  | [] => Done EmptyString []
  | v :: l' =>
      match rec v name indent with
      | Done xml v' =>
          match compose_members l' name indent with
          | Done xml' l'' => Done (xml ++ xml') (v' :: l'')
          | e => e
          end
      | TypeError => TypeError
      | Unmodelled => Unmodelled
      | NoFuel => NoFuel
      end
  end.

End Compose.

(** Lines 516-575, for a node that is there ([Some]) or undefined. *)
Definition compose_node (rec : value -> string -> nat -> composed value)
  (c : composer) (xml : string) (node : option value) (name : string)
  (indent : nat) : composed (option value) :=
  let indent_string := or_default (String "009" EmptyString) (indent_string c) in
  let eol := or_default (String "010" EmptyString) (eol c) in
  let sort := or_default true (sort c) in
  let indent_text := repeat_string indent indent_string in
  match node with
  | Some (Str s) =>
      Done (xml ++ indent_text ++ "<" ++ name ++ ">" ++ s ++ "</" ++ name
              ++ ">" ++ eol) node
  | None =>
      Done (xml ++ indent_text ++ "<" ++ name ++ ">" ++ "undefined" ++ "</"
              ++ name ++ ">" ++ eol) node
  | Some v =>
      if no_length v then
        (* node is hash *)
        let o := entries v in
        let xml := xml ++ indent_text ++ "<" ++ name in
        let num_keys := num_keys o in
        let attribs :=
          match obj_get "_Attribs" o with
          | Some a => if truthy a then Some a else None
          | None => None
          end in
        let has_attribs := match attribs with Some _ => 1 | None => 0 end in
        match
          match attribs with
          | Some a =>
              compose_attribs (entries a)
                (sort_keys sort (attribute_sorter c) (hash_keys_to_array a))
          | None => Some EmptyString
          end
        with
        | None => TypeError
        | Some attrs =>
            let xml := xml ++ attrs in
            if Nat.ltb has_attribs num_keys then
              let xml := xml ++ ">" in
              match
                match obj_get "_Data" o with
                | Some d => if truthy d then Some d else None
                | None => None
                end
              with
              | Some d =>
                  match encode_value encode_entities d with
                  | Some s => Done (xml ++ s ++ "</" ++ name ++ ">" ++ eol) node
                  | None => TypeError
                  end
              | None =>
                  let xml := xml ++ eol in
                  match
                    compose_children rec
                      (sort_keys sort (tag_sorter_by_name c)
                         (hash_keys_to_array v)) indent o
                  with
                  | Done xml' o' =>
                      Done (xml ++ xml' ++ indent_text ++ "</" ++ name ++ ">"
                              ++ eol)
                        (Some (match v with Hash _ => Hash o' | _ => v end))
                  | TypeError => TypeError
                  | Unmodelled => Unmodelled
                  | NoFuel => NoFuel
                  end
              end
            else Done (xml ++ "/>" ++ eol) node
        end
      else
        (* node is array *)
        match v with
        | Arr l =>
            match sort_values sort (tag_sorter_with_same_name c) l with
            | Some sorted =>
                match compose_members rec sorted name indent with
                | Done xml' l' => Done (xml ++ xml') (Some (Arr l'))
                | TypeError => TypeError
                | Unmodelled => Unmodelled
                | NoFuel => NoFuel
                end
            | None => TypeError
            end
        | _ => if sort then TypeError else Unmodelled
        end
  end.

(** var compose_xml = exports.stringify = function compose_xml(node, name,
    indent, indent_string, eol, sort, tag_sorter_by_name,
    tag_sorter_with_same_name, attribute_sorter).  An empty [name] is a
    name left out.  The result is the text and [node] as the call leaves
    it: sorting an array sorts the array of the tree itself. *)
Fixpoint compose_xml (fuel : nat) (c : composer) (node : value)
  (name : string) (indent : nat) {struct fuel} : composed value :=
  match fuel with
  | O => NoFuel
  | S fuel' =>
      let rec := compose_xml fuel' c in
      let eol := or_default (String "010" EmptyString) (eol c) in
      match indent with
      | O =>
          (* root node: the header, and the name when none is given *)
          let xml := xml_header ++ eol in
          match name with
          | EmptyString =>
              let name := first_key (entries node) in
              let inner := match name with
                           | Some k => obj_get k (entries node)
                           | None => None
                           end in
              match compose_node rec c xml inner (name_str name) 0 with
              | Done xml (Some inner') =>
                  Done xml
                    (match node, name with
                     | Hash o, Some k => Hash (obj_update k inner' o)
                     | Arr (_ :: l), Some _ => Arr (inner' :: l)
                     | _, _ => node
                     end)
              | Done xml None => Done xml node
              | TypeError => TypeError
              | Unmodelled => Unmodelled
              | NoFuel => NoFuel
              end
          | _ =>
              match compose_node rec c xml (Some node) name 0 with
              | Done xml (Some node') => Done xml node'
              | Done xml None => Done xml node
              | TypeError => TypeError
              | Unmodelled => Unmodelled
              | NoFuel => NoFuel
              end
          end
      | S _ =>
          match compose_node rec c EmptyString (Some node) name indent with
          | Done xml (Some node') => Done xml node'
          | Done xml None => Done xml node
          | TypeError => TypeError
          | Unmodelled => Unmodelled
          | NoFuel => NoFuel
          end
      end
  end.

(** Fuel for composing: one more than the height of the tree. *)
Fixpoint height (v : value) : nat :=
  match v with
  | Str _ => 0
  | Hash o => S (fold_right (fun kv h => Nat.max (height (snd kv)) h) 0 o)
  | Arr l => S (fold_right (fun x h => Nat.max (height x) h) 0 l)
  end.

Definition stringify (c : composer) (node : value) (name : string)
  : composed value :=
  compose_xml (S (S (height node))) c node name 0.

Definition default_composer : composer :=
  Composer None None None None None None.

(** ** The compose method of the parser and the object utilities *)

(** XML.prototype.getTree *)
Definition getTree (p : XML) : value := tree p.







(** var isa_array = function (arg) *)
Definition isa_array (arg : value) : bool :=
  match arg with Arr _ => true | _ => false end.

(** var isa_hash = function (arg) *)
Definition isa_hash (arg : value) : bool :=
  truthy arg && match arg with Str _ => false | _ => true end
  && negb (isa_array arg).

(** [(typeof(v) == 'object') && (typeof(v.length) != 'undefined')]: an
    array, or a hash with a key named length. *)
Definition array_like (v : value) : bool :=
  match v with
  | Str _ => false
  | Hash o => obj_has "length" o
  | Arr _ => true
  end.

(** What always_array does: it returns an array, or it returns null and
    leaves the object changed; [AlwaysUnmodelled] is a call on an object
    that is no hash, on a key that the hash does not hold, which stores
    an array of undefined or of an inherited member, or on the key
    __proto__, where the assignment after the delete replaces the
    prototype. *)
Inductive always : Type :=
| AlwaysArray (v : value)
| AlwaysNull (obj' : value)
| AlwaysUnmodelled.

(** var always_array = exports.alwaysArray = function always_array(obj,
    key); an empty [key] is a key left out. *)
Definition always_array (obj : value) (key : string) : always :=
  match key with
  | EmptyString =>
      if array_like obj then AlwaysArray obj else AlwaysArray (Arr [obj])
  | _ =>
      match obj with
      | Hash o =>
          match obj_get key o with
          | Some temp =>
              if array_like temp then AlwaysNull obj
              else if String.eqb key "__proto__" then AlwaysUnmodelled
              else
                AlwaysNull
                  (Hash (obj_set key (Arr [temp]) (obj_delete key o)))
          | None => AlwaysUnmodelled
          end
      | _ => AlwaysUnmodelled
      end
  end.

(** ** Notions used to state the properties *)

(** The least number of characters a pattern consumes. *)
Fixpoint min_len (r : re) : nat :=
  match r with
  | Chr _ | Cls _ => 1
  | Seq r1 r2 => min_len r1 + min_len r2
  | Alt r1 r2 => Nat.min (min_len r1) (min_len r2)
  | Grp _ r1 => min_len r1
  | _ => 0
  end.

(** The pattern has no group numbered [n]. *)
Fixpoint no_grp (n : nat) (r : re) : bool :=
  match r with
  | Seq r1 r2 | Alt r1 r2 => no_grp n r1 && no_grp n r2
  | Rep _ r1 => no_grp n r1
  | Grp i r1 => negb (Nat.eqb i n) && no_grp n r1
  | _ => true
  end.

(** [w] occurs in [t]. *)
Definition substr (w t : string) : Prop :=
  exists a b, t = a ++ w ++ b.

Fixpoint contains (w t : string) : bool :=
  starts_with w t ||
  match t with
  | EmptyString => false
  | String _ t' => contains w t'
  end.

(** A matcher state that belongs to the text [t]. *)
Definition state_of (t : string) (s : mstate) : Prop :=
  rest s = drop (pos s) t /\ pos s <= String.length t /\
  Forall (fun c => substr (snd c) t) (caps s).

(** No array has an array as a direct member, anywhere in the value. *)
Definition is_arr (v : value) : bool :=
  match v with Arr _ => true | _ => false end.

Fixpoint flat (v : value) : bool :=
  match v with
  | Str _ => true
  | Hash o => forallb (fun kv => flat (snd kv)) o
  | Arr l => forallb (fun x => negb (is_arr x) && flat x) l
  end.

(** The names that the specification gives to the parse errors, and the
    message ([key]) that the source gives to each. *)
Inductive kind : Type :=
| MalformedTag
| MalformedSpecialTag
| MalformedProcessingInstruction
| UnclosedComment
| UnclosedDTD
| UnclosedCDATA
| MalformedDTD
| MalformedCDATA
| MismatchedClosingTag (expected : option string)
| MissingClosingTag (expected : string)
| TooManyTopLevelNodes.

Definition kind_key (k : kind) : string :=
  match k with
  | MalformedTag => "Malformed tag"
  | MalformedSpecialTag => "Malformed special tag"
  | MalformedProcessingInstruction => "Malformed processor instruction"
  | UnclosedComment => "Unclosed comment tag"
  | UnclosedDTD => "Unclosed DTD tag"
  | UnclosedCDATA => "Unclosed CDATA tag"
  | MalformedDTD => "Malformed DTD tag"
  | MalformedCDATA => "Malformed CDATA tag"
  | MismatchedClosingTag name =>
      "Mismatched closing tag (expected </" ++ name_str name ++ ">)"
  | MissingClosingTag name =>
      "Missing closing tag (expected </" ++ name ++ ">)"
  | TooManyTopLevelNodes => "Only one top-level node is allowed in document"
  end.

Definition is_too_many (k : kind) : bool :=
  match k with TooManyTopLevelNodes => true | _ => false end.

(** The error that throwParseError records for a message, a tag and a
    parser. *)
Definition parse_error (key tag : string) (p : XML) : error :=
  MkError "Parse" key ("<" ++ tag ++ ">")
    (Z.of_nat (count_newlines (take (lastIndex p) (text p))) + 1
     - Z.of_nat (count_newlines tag))%Z.

(** What [run r k s = Some res] gives: [k] accepted a state of the same
    text [t], at least [n] characters further, that has the captures of
    [s] for the groups in [fr]. *)
Definition reaches (t : string) (n : nat) (fr : nat -> bool)
  (k : mstate -> option mstate) (s : mstate) (res : mstate) : Prop :=
  exists s', state_of t s' /\ pos s + n <= pos s' /\
             (forall i, fr i = true -> cap i s' = cap i s) /\
             k s' = Some res.

(** A step that returns leaves the options, the text and the errors as
    they were. *)
Definition keeps (p p' : XML) : Prop :=
  opts p' = opts p /\ text p' = text p /\ errors p' = errors p.

(** A step that throws has recorded one more error, a parse error other
    than TooManyTopLevelNodes, and throws its formatted text; or it
    throws a TypeError, or goes beyond the model, and has recorded
    nothing. *)
Definition thrown (p : XML) (e : exn) (p' : XML) : Prop :=
  (exists err k,
     is_too_many k = false /\ err_key err = kind_key k /\
     err_type err = "Parse" /\ errors p' = (errors p ++ [err])%list /\
     e = Error (getError err) /\ opts p' = opts p /\ text p' = text p) \/
  ((e = JsTypeError \/ e = Beyond) /\
   opts p' = opts p /\ text p' = text p /\ errors p' = errors p).

(** The outcome of a special-tag parser: it returns with the scan
    position moved forward inside the text, or it throws. *)
Definition step_ok {A : Type} (p : XML) (r : result A) : Prop :=
  match r with
  | Ok _ p' =>
      keeps p p' /\ lastIndex p <= lastIndex p' /\
      (lastIndex p <= String.length (text p) ->
       lastIndex p' <= String.length (text p))
  | Throw e p' => thrown p e p'
  | OutOfFuel => False
  end.

(** The outcome of the main loop: it returns, after a closing tag with
    the scan position moved forward inside the text, or it throws.  It
    does not run out of fuel when [strict] holds. *)
Definition gen_ok (strict : Prop) (p : XML) (r : result (obj * bool))
  : Prop :=
  match r with
  | Ok (_, found) p' =>
      keeps p p' /\
      (found = true ->
       lastIndex p < lastIndex p' <= String.length (text p))
  | Throw e p' => thrown p e p'
  | OutOfFuel => ~ strict
  end.

Definition loop_ok : XML -> result (obj * bool) -> Prop := gen_ok True.

(** [b1] is [branch], possibly after text was appended to it. *)
Definition texted (p : XML) (branch b1 : obj) : Prop :=
  b1 = branch \/ exists s, append_data p s branch = Ok b1 p.

(** The tag that the loop reads next opens an element: it is no special
    tag and no closing tag; [g] is its name as written and [raw] the
    text of its attributes. *)
Definition opening (p : XML) (g raw : string) : Prop :=
  exists st m ms,
    exec patTag (text p) (lastIndex p) = Some (st, m) /\
    test patSpecialTag (group 2 m) = false /\
    matches patStandardTag (group 2 m) = Some ms /\
    group 1 ms = EmptyString /\ g = group 2 ms /\ raw = group 3 ms.

(** The name that the loop gives to a tag whose name is written [g]. *)
Definition node_name (p : XML) (g : string) : string :=
  if lowerCase (opts p) then toLowerCase g else g.

(** The ways in which a round of the loop that starts with [branch] and
    [p] can return [b], [f] and [q]: the text has no further tag; a
    special tag was read and the loop went on; the closing tag was read;
    an element was read, with its content if it has any, and added to
    the branch. *)
Inductive unfolds (fuel : nat) (top : bool) (name : option string)
  (branch : obj) (p : XML) (b : obj) (f : bool) (q : XML) : Prop :=
| U_end :
    exec patTag (text p) (lastIndex p) = None ->
    b = branch -> f = false -> q = set_lastIndex 0 p ->
    unfolds fuel top name branch p b f q
| U_special (p1 p2 : XML) (b1 b2 : obj) :
    keeps p p1 -> texted p1 branch b1 ->
    keeps p1 p2 -> texted p2 b1 b2 ->
    parse_loop fuel top name b2 p2 = Ok (b, f) q ->
    unfolds fuel top name branch p b f q
| U_close (p1 : XML) (b1 : obj) :
    keeps p p1 -> texted p1 branch b1 ->
    b = b1 -> f = true -> q = p1 ->
    unfolds fuel top name branch p b f q
| U_open (p1 p2 : XML) (b1 b2 : obj) (g raw : string) (leaf : obj) :
    keeps p p1 -> texted p1 branch b1 ->
    opening p g raw -> substr g (text p) -> g <> EmptyString ->
    (leaf = new_leaf p1 raw /\ p2 = p1 \/
     exists found,
       parse_loop fuel false (Some (node_name p g)) (new_leaf p1 raw) p1
       = Ok (leaf, found) p2) ->
    keeps p1 p2 ->
    add_leaf p2 top (node_name p g) (compress p2 leaf) b1 = Some b2 ->
    (top = true /\ f = false /\ q = p2 /\ b = b2 \/
     top = false /\ parse_loop fuel top name b2 p2 = Ok (b, f) q) ->
    unfolds fuel top name branch p b f q.

(** A branch with no key but the text key. *)
Definition only_data (k : string) (b : obj) : Prop :=
  b = [] \/ exists v, b = [(k, v)].

(** A file system with no file, for the examples. *)
Definition no_files : string -> option string := fun _ => None.

(** A property of all the values of a hash. *)
Definition all_values (P : value -> Prop) (o : obj) : Prop :=
  Forall (fun kv => P (snd kv)) o.

(** The parser in which the loop looks for its next tag, when [d]
    elements are open: [scan_step p d] is the parser after the tag that
    the loop finds in [p] -- and after the comment, the DTD or the CDATA
    section that the tag starts -- with the number of elements that are
    open then.  There is none when the text has no further tag, when the
    tag is not well formed, and when the tag ends the root element: the
    top-level call returns after its first element (line 223). *)
Definition scan_step (p : XML) (d : nat) : option (XML * nat) :=
  match exec patTag (text p) (lastIndex p) with
  | None => None
  | Some (_, m) =>
      let p1 := set_lastIndex (pos m) p in
      let tag := group 2 m in
      if test patSpecialTag tag then
        match
          (if test patPITag tag then parsePINode tag p1
           else if test patCommentTag tag then parseCommentNode tag p1
           else if test patDTDTag tag then parseDTDNode tag p1
           else if test patCDATATag tag then parseCDATANode tag p1
           else throwParseError "Malformed special tag" tag p1)
        with
        | Ok _ q => Some (q, d)
        | _ => None
        end
      else
        match matches patStandardTag tag with
        | None => None
        | Some ms =>
            if negb (String.eqb (group 1 ms) EmptyString) then
              if Nat.leb d 1 then None else Some (p1, d - 1)
            else if test patSelfClosing (group 3 ms) then
              if Nat.eqb d 0 then None else Some (p1, d)
            else Some (p1, S d)
        end
  end.

(** The parsers in which the loop looks for a tag, from [p] on, each
    with the number of elements that are open. *)
Fixpoint scan_states (fuel : nat) (p : XML) (d : nat) : list (XML * nat) :=
  (p, d) ::
  match fuel with
  | O => []
  | S fuel' =>
      match scan_step p d with
      | Some (q, d') => scan_states fuel' q d'
      | None => []
      end
  end.

(** The tag that the loop finds in [p] opens an element named as the
    text key. *)
Definition opens_key (p : XML) : bool :=
  match exec patTag (text p) (lastIndex p) with
  | Some (_, m) =>
      negb (test patSpecialTag (group 2 m))
      && match matches patStandardTag (group 2 m) with
         | Some ms =>
             String.eqb (group 1 ms) EmptyString
             && String.eqb (node_name p (group 2 ms)) (dataKey (opts p))
         | None => false
         end
  | None => false
  end.

(** No tag that the parse reads opens an element named as the text
    key. *)
Definition key_free (p : XML) : bool :=
  forallb (fun x => negb (opens_key (fst x)))
    (scan_states (String.length (text p)) p 0).

(** A branch whose values are flat and whose text, if any, is no array. *)
Definition branch_inv (k : string) (b : obj) : Prop :=
  flat (Hash b) = true /\ forall v, obj_get k b = Some v -> is_arr v = false.

Definition is_str (v : value) : Prop := exists s, v = Str s.

(** The key holds an array, or nothing. *)
Definition arr_or_none (n : string) (o : obj) : Prop :=
  match obj_get n o with
  | Some v => is_arr v = true
  | None => True
  end.

(** A text written character by character. *)
Fixpoint expand (f : ascii -> string) (s : string) : string :=
  match s with
  | EmptyString => EmptyString
  | String a s' => f a ++ expand f s'
  end.

Definition single (a : ascii) : string := String a EmptyString.

(** The forms of a text between the steps of encoding and decoding. *)
Definition amp (a : ascii) : string :=
  if Ascii.eqb "&" a then "&amp;" else single a.
Definition amp_lt (a : ascii) : string :=
  if Ascii.eqb "&" a then "&amp;"
  else if Ascii.eqb "<" a then "&lt;" else single a.
Definition amp_gt (a : ascii) : string :=
  if Ascii.eqb "&" a then "&amp;"
  else if Ascii.eqb ">" a then "&gt;" else single a.
Definition amp_lt_gt (a : ascii) : string :=
  if Ascii.eqb "&" a then "&amp;"
  else if Ascii.eqb "<" a then "&lt;"
  else if Ascii.eqb ">" a then "&gt;" else single a.

(** The five replacements of decode_entities, without its test. *)
Definition decode_all (text : string) : string :=
  let text := replace_all (Lit "&lt;") "<" text in
  let text := replace_all (Lit "&gt;") ">" text in
  let text := replace_all (Lit "&quot;") (String dquote EmptyString) text in
  let text := replace_all (Lit "&apos;") "'" text in
  replace_all (Lit "&amp;") "&" text.

Definition nl : string := String "010" EmptyString.
Definition tab : string := String "009" EmptyString.

(** The options of the examples that preserve attributes. *)
Definition preserving : options :=
  Options false true false false false "_Attribs" "_Data".

(** A comparator that orders: [b] goes after [a] exactly when [a] goes
    before [b], and going no later is transitive.  (Array.prototype.sort
    leaves the order to the implementation for any other comparator.) *)
Definition consistent {A : Type} (cmp : comparator A) : Prop :=
  (forall a b, (0 < cmp a b)%Z <-> (cmp b a < 0)%Z) /\
  (forall a b c, (cmp a b <= 0)%Z -> (cmp b c <= 0)%Z -> (cmp a c <= 0)%Z).

(** The comparators given to the composer order. *)
Definition orders (c : composer) : Prop :=
  (forall f, tag_sorter_by_name c = Some f -> consistent f) /\
  (forall f, tag_sorter_with_same_name c = Some f -> consistent f) /\
  (forall f, attribute_sorter c = Some f -> consistent f).

(** The members are in the order of the comparator: none is put after
    one that follows it. *)
Fixpoint in_order {A : Type} (cmp : comparator A) (l : list A) : Prop :=
  match l with
  | [] => True
  | a :: l' => Forall (fun b => (cmp a b <= 0)%Z) l' /\ in_order cmp l'
  end.

(** [v'] is [v] with the members of some arrays in another order. *)
Inductive reordered : value -> value -> Prop :=
| R_str (s : string) : reordered (Str s) (Str s)
| R_hash (o o' : obj) :
    Forall2 (fun kv kv' => fst kv = fst kv' /\ reordered (snd kv) (snd kv'))
      o o' ->
    reordered (Hash o) (Hash o')
| R_arr (l l1 l' : list value) :
    Permutation l l1 -> Forall2 reordered l1 l' ->
    reordered (Arr l) (Arr l').

Definition entry_rel (kv kv' : string * value) : Prop :=
  fst kv = fst kv' /\ reordered (snd kv) (snd kv').

(** What a call leaves of its node: the node, up to the order of arrays;
    the node itself when sorting is off. *)
Definition frame (c : composer) (v v' : value) : Prop :=
  reordered v v' /\ (sort c = Some false -> v' = v).

Definition frames (c : composer)
  (rec : value -> string -> nat -> composed value) : Prop :=
  forall v n i x v', rec v n i = Done x v' -> frame c v v'.

Definition height_all (l : list value) : nat :=
  fold_right (fun x h => Nat.max (height x) h) 0 l.

Definition height_values (o : obj) : nat :=
  fold_right (fun kv h => Nat.max (height (snd kv)) h) 0 o.

(** Every character of a text is in a class. *)
Fixpoint all_chars (p : ascii -> bool) (s : string) : bool :=
  match s with
  | EmptyString => true
  | String a s' => p a && all_chars p s'
  end.

(** The characters that open and close a tag, and the two quotes. *)
Definition markup (c : ascii) : bool := is_char "<" c || is_char ">" c.
Definition quote (c : ascii) : bool := is_char dquote c || is_char "'" c.

(** The form of a text between the steps of encode_attrib_entities and
    of decode_entities after it: the ampersand is written as its entity,
    and each of the four other characters when its flag is set. *)
Definition entity (lt gt quot apos : bool) (a : ascii) : string :=
  if Ascii.eqb "&" a then "&amp;"
  else if lt && Ascii.eqb "<" a then "&lt;"
  else if gt && Ascii.eqb ">" a then "&gt;"
  else if quot && Ascii.eqb dquote a then "&quot;"
  else if apos && Ascii.eqb "'" a then "&apos;"
  else single a.

(** The lazy star of a class, as a function of the index, the text that
    is left and the captures: the continuation is tried before each
    further character. *)
Fixpoint lazy_try (p : ascii -> bool) (k : mstate -> option mstate)
  (i : nat) (t : string) (c : list (nat * string)) : option mstate :=
  match k (MState i t c) with
  | Some m => Some m
  | None =>
      match t with
      | String a t' => if p a then lazy_try p k (S i) t' c else None
      | EmptyString => None
      end
  end.

(** The greedy star of a class: the continuation is tried after the
    longest run of the class first, then after each shorter one. *)
Fixpoint greedy_try (p : ascii -> bool) (k : mstate -> option mstate)
  (i : nat) (t : string) (c : list (nat * string)) : option mstate :=
  match t with
  | String a t' =>
      if p a then
        match greedy_try p k (S i) t' c with
        | Some m => Some m
        | None => k (MState i t c)
        end
      else k (MState i t c)
  | EmptyString => k (MState i t c)
  end.

(** The length of the longest prefix made of characters of a class. *)
Fixpoint span (p : ascii -> bool) (t : string) : nat :=
  match t with
  | String a t' => if p a then S (span p t') else 0
  | EmptyString => 0
  end.

(** Where the first non-empty suffix made of white space starts. *)
Fixpoint ws_tail (t : string) : option nat :=
  match t with
  | EmptyString => None
  | String a t' =>
      if all_chars ws t then Some 0 else option_map S (ws_tail t')
  end.


(** Some hash of the value, at any depth, has the key [k]. *)
Fixpoint has_key (k : string) (v : value) : bool :=
  match v with
  | Str _ => false
  | Hash o => obj_has k o || existsb (fun kv => has_key k (snd kv)) o
  | Arr l => existsb (has_key k) l
  end.

(** A value that composes: none of its hashes has a key named length,
    replace or toString. *)
Definition composable (v : value) : Prop :=
  has_key "length" v = false /\ has_key "replace" v = false /\
  has_key "toString" v = false.


(** Every key of every hash of the value is accepted by [pk], and every
    array of the value by [pa]. *)
Fixpoint tree_ok (pk : string -> bool) (pa : list value -> bool) (v : value)
  : bool :=
  match v with
  | Str _ => true
  | Hash o => forallb (fun kv => pk (fst kv) && tree_ok pk pa (snd kv)) o
  | Arr l => pa l && forallb (tree_ok pk pa) l
  end.

(** A key that is its own lower case. *)
Definition is_lower (k : string) : bool := String.eqb (toLowerCase k) k.

(** An array with [n] members at least. *)
Definition at_least (n : nat) (l : list value) : bool :=
  Nat.leb n (List.length l).

(** The entries of a branch are in order: keys and values. *)
Definition entries_ok (pk : string -> bool) (pa : list value -> bool)
  (b : obj) : Prop :=
  Forall (fun kv => pk (fst kv) = true /\ tree_ok pk pa (snd kv) = true) b.







(** A state with the text [u] added at the end of what is left. *)
Definition more (u : string) (m : mstate) : mstate :=
  MState (pos m) (rest m ++ u) (caps m).

(** The text starts a tag: an opening bracket, a character that is no
    closing bracket, and a closing bracket further on. *)
Definition opens_tag (t : string) : bool :=
  match t with
  | String a (String b rest_) =>
      Ascii.eqb a "<" && not_char ">" b
      && negb (all_chars (not_char ">") rest_)
  | _ => false
  end.

(** A parser with the text [u] added at the end of its text. *)
Definition with_more (u : string) (p : XML) : XML :=
  MkXML (opts p) (text p ++ u) (tree p) (errors p) (piNodeList p)
    (dtdNodeList p) (documentNodeName p) (lastIndex p).

(** The options with preserveDocumentNode set to [d]. *)
Definition with_doc (d : bool) (o : options) : options :=
  Options d (preserveAttributes o) (preserveWhitespace o) (lowerCase o)
    (forceArrays o) (attribsKey o) (dataKey o).

(** The parser with preserveDocumentNode set to [d]. *)
Definition redoc (d : bool) (p : XML) : XML :=
  MkXML (with_doc d (opts p)) (text p) (tree p) (errors p) (piNodeList p)
    (dtdNodeList p) (documentNodeName p) (lastIndex p).

(** A result with its parser changed by [f]. *)
Definition map_state {A : Type} (f : XML -> XML) (r : result A) : result A :=
  match r with
  | Ok a p => Ok a (f p)
  | Throw e p => Throw e (f p)
  | OutOfFuel => OutOfFuel
  end.

(** ** The matcher: positions and captures *)

Lemma append_assoc (a b c : string) : (a ++ b) ++ c = a ++ b ++ c.
Proof. induction a as [|x a IH]; simpl; [reflexivity | now rewrite IH]. Qed.

Lemma append_nil_r (a : string) : a ++ EmptyString = a.
Proof. induction a as [|x a IH]; simpl; [reflexivity | now rewrite IH]. Qed.

Lemma length_append (a b : string) :
  String.length (a ++ b) = String.length a + String.length b.
Proof. induction a as [|x a IH]; simpl; [reflexivity | now rewrite IH]. Qed.

Lemma take_drop (n : nat) (s : string) : take n s ++ drop n s = s.
Proof.
  revert s; induction n as [|n IH]; intros [|c s]; simpl; try reflexivity.
  now rewrite IH.
Qed.

Lemma length_drop (n : nat) (s : string) :
  String.length (drop n s) = String.length s - n.
Proof.
  revert s; induction n as [|n IH]; intros [|c s]; simpl; auto with arith.
Qed.

Lemma drop_drop (a b : nat) (s : string) : drop a (drop b s) = drop (b + a) s.
Proof.
  revert s; induction b as [|b IH]; intros s; simpl; [reflexivity|].
  destruct s as [|c s]; [now destruct a | apply IH].
Qed.

Lemma drop_cons (n : nat) (t : string) (a : ascii) (r : string) :
  drop n t = String a r -> drop (S n) t = r /\ n < String.length t.
Proof.
  revert t; induction n as [|n IH]; intros [|c t] H; simpl in *;
    try discriminate.
  - inversion H; subst. split; [now destruct r | lia].
  - destruct (IH _ H) as [E L]. split; [exact E | lia].
Qed.

Lemma starts_with_append (w s : string) :
  starts_with w s = true -> s = w ++ drop (String.length w) s.
Proof.
  revert s; induction w as [|a w IH]; intros [|b s] H; simpl in *;
    try reflexivity; try discriminate.
  apply andb_prop in H as [E H]. apply Ascii.eqb_eq in E. subst b.
  now rewrite <- IH.
Qed.

Lemma substr_refl (t : string) : substr t t.
Proof. exists EmptyString, EmptyString. simpl. now rewrite append_nil_r. Qed.

Lemma substr_nil (t : string) : substr EmptyString t.
Proof. exists EmptyString, t. reflexivity. Qed.

Lemma substr_trans (a b c : string) : substr a b -> substr b c -> substr a c.
Proof.
  intros (x & y & ->) (u & v & ->). exists (u ++ x), (y ++ v).
  now rewrite !append_assoc.
Qed.

Lemma substr_take_drop (n m : nat) (t : string) : substr (take n (drop m t)) t.
Proof.
  exists (take m t), (drop n (drop m t)). now rewrite !take_drop.
Qed.

Lemma state_of_step (t : string) (s : mstate) (a : ascii) (r : string) :
  state_of t s -> rest s = String a r -> state_of t (step s r).
Proof.
  intros (R & L & C) E. rewrite R in E. apply drop_cons in E as [E1 E2].
  repeat split; simpl; auto.
Qed.

Section RunInv.

Variable t : string.

Ltac reach s :=
  exists s; split; [eauto using state_of_step
                   | split; [simpl in *; lia | split; [|auto]]].

Lemma rep_loop_inv body greedy fr :
  (forall k s res, state_of t s -> body k s = Some res ->
                   reaches t 0 fr k s res) ->
  forall n k s res, state_of t s ->
    rep_loop body greedy k n s = Some res -> reaches t 0 fr k s res.
Proof.
  intros Hbody n; induction n as [|n IH]; intros k s res W H; simpl in H.
  - reach s; auto.
  - assert (Hk : k s = Some res -> reaches t 0 fr k s res)
      by (intro; reach s; auto).
    assert (Hagain : body (fun s' => if Nat.eqb (pos s') (pos s) then None
                                      else rep_loop body greedy k n s') s
                     = Some res -> reaches t 0 fr k s res).
    { intro Hb. apply Hbody in Hb as (s1 & W1 & P1 & F1 & K1); auto.
      destruct (Nat.eqb (pos s1) (pos s)); [discriminate|].
      apply IH in K1 as (s2 & W2 & P2 & F2 & K2); auto.
      reach s2. intros i Hi. rewrite F2, F1; auto. }
    destruct greedy.
    + destruct (body _ s) eqn:E; [inversion H; subst; auto | auto].
    + destruct (k s) eqn:E; [inversion H; subst; auto | auto].
Qed.

Lemma run_inv r : forall k s res,
  state_of t s -> run r k s = Some res ->
  reaches t (min_len r) (fun i => no_grp i r) k s res.
Proof.
  induction r as [|c|p|r1 IH1 r2 IH2|r1 IH1 r2 IH2|g r1 IH1|n r1 IH1|n| |];
    intros k s res W H; simpl in H.
  - reach s; auto.
  - destruct (rest s) as [|a r] eqn:E; [discriminate|].
    destruct (Ascii.eqb a c); [|discriminate].
    reach (step s r); auto.
  - destruct (rest s) as [|a r] eqn:E; [discriminate|].
    destruct (p a); [|discriminate].
    reach (step s r); auto.
  - apply IH1 in H as (s1 & W1 & P1 & F1 & K1); auto.
    apply IH2 in K1 as (s2 & W2 & P2 & F2 & K2); auto.
    reach s2. intros i Hi. apply andb_prop in Hi as [Ha Hb].
    rewrite F2, F1; auto.
  - destruct (run r1 k s) eqn:E.
    + inversion H; subst. apply IH1 in E as (s1 & W1 & P1 & F1 & K1); auto.
      reach s1. intros i Hi. apply andb_prop in Hi as [Ha Hb]. auto.
    + apply IH2 in H as (s1 & W1 & P1 & F1 & K1); auto.
      reach s1. intros i Hi. apply andb_prop in Hi as [Ha Hb]. auto.
  - apply rep_loop_inv with (fr := fun i => no_grp i r1) in H; auto.
    intros k' s' res' W' H'.
    apply IH1 in H' as (s1 & W1 & P1 & F1 & K1); auto.
    reach s1. auto.
  - apply IH1 in H as (s1 & W1 & P1 & F1 & K1); auto.
    eexists. split; [|split; [|split; [|exact K1]]]; simpl; [|exact P1|].
    + destruct W1 as (R1 & L1 & C1). destruct W as (R & L & C).
      repeat split; simpl; auto. constructor; auto. simpl.
      rewrite R. apply substr_take_drop.
    + intros i Hi. apply andb_prop in Hi as [Ha Hb].
      unfold cap at 1; simpl. apply negb_true_iff in Ha. rewrite Ha.
      now apply F1.
  - unfold cap in H. destruct (cap_lookup n (caps s)) as [w|] eqn:E.
    + destruct (starts_with w (rest s)) eqn:F; [|discriminate].
      eexists. split; [|split; [|split; [|exact H]]]; simpl; [|lia|auto].
      destruct W as (R & L & C). apply starts_with_append in F.
      assert (String.length w <= String.length (rest s)).
      { rewrite F, length_append. lia. }
      rewrite R, length_drop in H0.
      repeat split; simpl; auto; [|lia].
      rewrite R. apply drop_drop.
    + reach s; auto.
  - destruct (Nat.eqb (pos s) 0); [|discriminate].
    reach s; auto.
  - destruct (rest s); [|discriminate].
    reach s; auto.
Qed.

End RunInv.

Lemma scan_inv (r : re) (txt : string) :
  forall t p st m, t = drop p txt -> p <= String.length txt ->
    scan r p t = Some (st, m) ->
    p <= st /\ st + min_len r <= pos m /\ state_of txt m.
Proof.
  induction t as [|c t IH]; intros p st m E L H; simpl in H.
  - destruct (run r Some (MState p EmptyString [])) eqn:R; [|discriminate].
    inversion H; subst. apply run_inv with (t := txt) in R.
    + destruct R as (s' & W & P & _ & K). inversion K; subst. simpl in P.
      auto.
    + repeat split; simpl; auto.
  - destruct (run r Some (MState p (String c t) [])) eqn:R.
    + inversion H; subst. apply run_inv with (t := txt) in R.
      * destruct R as (s' & W & P & _ & K). inversion K; subst. simpl in P.
        auto.
      * repeat split; simpl; auto.
    + symmetry in E. apply drop_cons in E as [E1 E2].
      apply IH in H; auto. intuition lia.
Qed.

(** A match of [exec] starts at or after [lastIndex], consumes at least
    [min_len r] characters and ends inside the text. *)
Lemma exec_inv (r : re) (txt : string) (i st : nat) (m : mstate) :
  exec r txt i = Some (st, m) ->
  i <= st /\ st + min_len r <= pos m /\ state_of txt m.
Proof.
  unfold exec. destruct (Nat.ltb (String.length txt) i) eqn:E; [discriminate|].
  apply Nat.ltb_ge in E. now apply scan_inv.
Qed.

Lemma exec_pos (r : re) (txt : string) (i st : nat) (m : mstate) :
  exec r txt i = Some (st, m) ->
  i + min_len r <= pos m /\ pos m <= String.length txt.
Proof.
  intro H. apply exec_inv in H as (A & B & (_ & C & _)). lia.
Qed.

Lemma group_substr (txt : string) (n : nat) (m : mstate) :
  state_of txt m -> substr (group n m) txt.
Proof.
  intros (_ & _ & C). unfold group, cap.
  induction (caps m) as [|[i w] l IH]; simpl; [apply substr_nil|].
  inversion C; subst. destruct (Nat.eqb i n); auto.
Qed.

Lemma exec_group (r : re) (txt : string) (i st n : nat) (m : mstate) :
  exec r txt i = Some (st, m) -> substr (group n m) txt.
Proof. intro H. apply exec_inv in H as (_ & _ & W). now apply group_substr. Qed.

Lemma matches_group (r : re) (txt : string) (n : nat) (m : mstate) :
  matches r txt = Some m -> substr (group n m) txt.
Proof.
  unfold matches. destruct (exec r txt 0) as [[st m']|] eqn:E; [|discriminate].
  intro H; inversion H; subst. eauto using exec_group.
Qed.

Lemma length_take (n : nat) (s : string) :
  String.length (take n s) = Nat.min n (String.length s).
Proof.
  revert s; induction n as [|n IH]; intros [|c s]; simpl; auto.
Qed.

Lemma scan_run (r : re) (txt : string) :
  forall t p st m, t = drop p txt -> p <= String.length txt ->
    scan r p t = Some (st, m) ->
    exists s0, state_of txt s0 /\ pos s0 = st /\ caps s0 = [] /\
               run r Some s0 = Some m.
Proof.
  induction t as [|c t IH]; intros p st m E L H; simpl in H.
  - destruct (run r Some (MState p EmptyString [])) eqn:R; [|discriminate].
    inversion H; subst.
    exists (MState st EmptyString []). repeat split; simpl; auto.
  - destruct (run r Some (MState p (String c t) [])) eqn:R.
    + inversion H; subst.
      exists (MState st (String c t) []). repeat split; simpl; auto.
    + symmetry in E. apply drop_cons in E as [E1 E2].
      apply IH in H; auto.
Qed.

Lemma matches_run (r : re) (txt : string) (m : mstate) :
  matches r txt = Some m ->
  exists s0, state_of txt s0 /\ caps s0 = [] /\ run r Some s0 = Some m.
Proof.
  unfold matches, exec. simpl.
  destruct (scan r 0 txt) as [[st m']|] eqn:E; [|discriminate].
  intro H; inversion H; subst.
  apply scan_run with (txt := txt) in E; [|now destruct txt|lia].
  destruct E as (s0 & W & _ & C & R). eauto.
Qed.

Lemma run_seq r1 r2 k s : run (Seq r1 r2) k s = run r1 (run r2 k) s.
Proof. reflexivity. Qed.

Lemma run_grp n r1 k s :
  run (Grp n r1) k s =
  run r1 (fun s' => k (MState (pos s') (rest s')
                         ((n, take (pos s' - pos s) (rest s)) :: caps s'))) s.
Proof. reflexivity. Qed.

(** A standard tag has a name: group 2 of patStandardTag is not empty. *)
Lemma standard_tag_name (tag : string) (ms : mstate) :
  matches patStandardTag tag = Some ms -> group 2 ms <> EmptyString.
Proof.
  intro H. apply matches_run in H as (s0 & W0 & _ & H).
  unfold patStandardTag in H. cbn [Cat] in H.
  rewrite run_seq in H. apply run_inv with (t := tag) in H; auto.
  destruct H as (s1 & W1 & _ & _ & H).
  rewrite run_seq in H. apply run_inv with (t := tag) in H; auto.
  destruct H as (s2 & W2 & _ & _ & H).
  rewrite run_seq in H. apply run_inv with (t := tag) in H; auto.
  destruct H as (s3 & W3 & _ & _ & H).
  rewrite run_seq, run_grp in H.
  apply run_inv with (t := tag) in H; auto.
  destruct H as (s4 & W4 & P4 & _ & H).
  apply run_inv with (t := tag) in H.
  - destruct H as (s5 & W5 & _ & F5 & H). injection H as ->.
    unfold group. rewrite (F5 2 eq_refl). unfold cap; simpl.
    intro E. apply (f_equal String.length) in E.
    rewrite length_take in E. simpl in E, P4.
    destruct W3 as (R3 & L3 & _). destruct W4 as (_ & L4 & _).
    rewrite R3, length_drop in E. lia.
  - destruct W3 as (R3 & L3 & C3). destruct W4 as (R4 & L4 & C4).
    repeat split; simpl; auto. constructor; auto. simpl.
    rewrite R3. apply substr_take_drop.
Qed.

(** ** The parser: what a call returns or throws *)

Lemma keeps_refl p : keeps p p.
Proof. repeat split. Qed.

Lemma keeps_trans p q r : keeps p q -> keeps q r -> keeps p r.
Proof. unfold keeps. intuition congruence. Qed.

Lemma keeps_thrown p q e r : keeps p q -> thrown q e r -> thrown p e r.
Proof.
  intros (A & B & C)
    [(err & k & H1 & H2 & H3 & H4 & H5 & H6 & H7) | (E & H1 & H2 & H3)].
  - left. exists err, k. repeat split; congruence.
  - right. repeat split; congruence.
Qed.

Lemma keeps_set_lastIndex p i : keeps p (set_lastIndex i p).
Proof. repeat split. Qed.

Lemma getLastError_push (e : error) (p : XML) :
  getLastError (push_error e p) = getError e.
Proof. unfold getLastError, push_error; simpl. now rewrite rev_app_distr. Qed.

Lemma throwParseError_eq {A : Type} (key tag : string) (p : XML) :
  @throwParseError A key tag p =
  Throw (Error (getError (parse_error key tag p)))
        (push_error (parse_error key tag p) p).
Proof. unfold throwParseError. now rewrite getLastError_push. Qed.

Lemma throwParseError_thrown {A : Type} (k : kind) (tag : string) (p : XML) :
  is_too_many k = false ->
  exists e p', @throwParseError A (kind_key k) tag p = Throw e p' /\
               thrown p e p'.
Proof.
  intro H. rewrite throwParseError_eq. do 2 eexists. split; [reflexivity|].
  left. exists (parse_error (kind_key k) tag p), k. repeat split; auto.
Qed.

Arguments throwParseError : simpl never.

Ltac throw_ok k :=
  let e := fresh "e" in
  let q := fresh "q" in
  let E := fresh "E" in
  let T := fresh "T" in
  match goal with
  | |- context [@throwParseError ?A ?key ?tag ?p] =>
      change (@throwParseError A key tag p)
        with (@throwParseError A (kind_key k) tag p);
      destruct (@throwParseError_thrown A k tag p eq_refl) as (e & q & E & T);
      rewrite E; simpl; eauto using keeps_thrown
  end.

Lemma parsePINode_ok tag p : step_ok p (parsePINode tag p).
Proof.
  unfold parsePINode. destruct (test patPINode tag); cbn [negb].
  - repeat split; auto.
  - throw_ok MalformedProcessingInstruction.
Qed.

Lemma next_close_loop_ok patEnd k : is_too_many k = false ->
  forall fuel tag i p,
    String.length (text p) - i < fuel ->
    match next_close_loop fuel patEnd (kind_key k) tag i p with
    | Ok (_, j) p' => p' = p /\ i <= j /\
                      (i <= String.length (text p) ->
                       j <= String.length (text p))
    | Throw e p' => thrown p e p'
    | OutOfFuel => False
    end.
Proof.
  intros Hk fuel; induction fuel as [|fuel IH]; intros tag i p F;
    [lia|]; cbn [next_close_loop].
  destruct (test patEnd tag); [repeat split; auto|].
  destruct (exec patNextClose (text p) i) as [[st m]|] eqn:E.
  - apply exec_pos in E. simpl in E.
    specialize (IH (tag ++ ">" ++ group 1 m) (pos m) p).
    destruct (next_close_loop fuel patEnd (kind_key k) _ (pos m) p)
      as [[tag' j] p'| |]; [| apply IH; lia | apply IH; lia].
    destruct IH as (A & B & C); [lia|]. repeat split; auto; lia.
  - destruct (@throwParseError_thrown (string * nat) k tag p Hk)
      as (e & q & E1 & T). rewrite E1. exact T.
Qed.

Ltac next_close patEnd k tag p :=
  let H := fresh "H" in
  pose proof (next_close_loop_ok patEnd k eq_refl
                (S (String.length (text p))) tag (lastIndex p) p) as H;
  cbn [kind_key] in H;
  match type of H with
  | _ -> match ?l with _ => _ end =>
      destruct l as [[? ?] ?| |]; cbn [bind fst snd];
      [destruct H as (? & ? & ?); [lia|]; subst | apply H; lia | apply H; lia]
  end.

Lemma parseCommentNode_ok tag p : step_ok p (parseCommentNode tag p).
Proof.
  unfold parseCommentNode. next_close patEndComment UnclosedComment tag p.
  repeat split; auto.
Qed.

Lemma parseDTDNode_ok tag p : step_ok p (parseDTDNode tag p).
Proof.
  unfold parseDTDNode.
  destruct (test patExternalDTDNode tag); [repeat split; auto|].
  destruct (test patInlineDTDNode tag).
  - next_close patEndDTD UnclosedDTD tag p.
    destruct (test patDTDNode s).
    + repeat split; auto.
    + throw_ok MalformedDTD.
  - throw_ok MalformedDTD.
Qed.

Lemma parseCDATANode_ok tag p : step_ok p (parseCDATANode tag p).
Proof.
  unfold parseCDATANode. next_close patEndCDATA UnclosedCDATA tag p.
  destruct (matches patCDATANode s).
  - repeat split; auto.
  - throw_ok MalformedCDATA.
Qed.

Lemma min_len_patTag : min_len patTag = 3.
Proof. reflexivity. Qed.

Lemma length_toLowerCase (s : string) :
  String.length (toLowerCase s) = String.length s.
Proof. induction s; simpl; auto. Qed.

Lemma node_name_truthy (lc : bool) (tag : string) (ms : mstate) :
  matches patStandardTag tag = Some ms ->
  truthy_name (Some (if lc then toLowerCase (group 2 ms) else group 2 ms))
  = true.
Proof.
  intro H. apply standard_tag_name in H.
  destruct (group 2 ms) as [|c s] eqn:E; [congruence|].
  destruct lc; reflexivity.
Qed.

Lemma gen_ok_mono strict p q r :
  keeps p q -> lastIndex p <= lastIndex q -> gen_ok strict q r ->
  gen_ok strict p r.
Proof.
  intros K L. destruct r as [[b found] p'| |]; simpl; auto.
  - intros (K' & H). split; [eauto using keeps_trans|].
    intro E. destruct K as (_ & T & _). rewrite T in H.
    specialize (H E). lia.
  - eauto using keeps_thrown.
Qed.

Lemma finish_nested_ok strict p name r :
  truthy_name (Some name) = true -> gen_ok strict p r ->
  match finish false (Some name) r with
  | Ok _ p' => keeps p p' /\
               lastIndex p < lastIndex p' <= String.length (text p)
  | Throw e p' => thrown p e p'
  | OutOfFuel => ~ strict
  end.
Proof.
  intro N. destruct r as [[b found] q| |]; cbn [gen_ok finish bind fst snd];
    auto.
  intros (K & L). rewrite N. destruct found; cbn [negb andb].
  - auto.
  - throw_ok (MissingClosingTag name).
Qed.

Lemma bind_gen_ok {A : Type} strict p p1 (r : result A) f :
  keeps p p1 -> step_ok p1 r ->
  lastIndex p1 <= String.length (text p1) ->
  (forall a q, keeps p1 q ->
               lastIndex p1 <= lastIndex q <= String.length (text p1) ->
               gen_ok strict p (f a q)) ->
  gen_ok strict p (bind r f).
Proof.
  intros K S L H. destruct r as [a q| |]; cbn [bind step_ok] in *.
  - destruct S as (K' & L' & B'). apply H; auto.
  - simpl. eauto using keeps_thrown.
  - contradiction.
Qed.

(** Appending text changes nothing of the parser; it fails only with a
    TypeError or by leaving the model. *)
Lemma append_data_step p s b :
  match append_data p s b with
  | Ok _ q => q = p
  | Throw e q => (e = JsTypeError \/ e = Beyond) /\ q = p
  | OutOfFuel => False
  end.
Proof.
  unfold append_data. destruct (obj_get _ b) as [v|].
  - destruct (to_str v); auto.
  - destruct (inherited _); auto.
Qed.

Lemma append_data_same p s b b1 q : append_data p s b = Ok b1 q -> q = p.
Proof. intro H. pose proof (append_data_step p s b) as S. now rewrite H in S. Qed.

(** The text before a tag: lines 118-121. *)
Lemma text_step p s b :
  match (if test (Cls non_ws) s then append_data p s b else Ok b p) with
  | Ok b1 q => q = p /\ texted p b b1
  | Throw e q => (e = JsTypeError \/ e = Beyond) /\ q = p
  | OutOfFuel => False
  end.
Proof.
  destruct (test (Cls non_ws) s); [|split; [reflexivity | now left]].
  pose proof (append_data_step p s b) as S.
  destruct (append_data p s b) as [b1 q| |] eqn:E; auto.
  subst q. split; [reflexivity|]. right. eauto.
Qed.

Lemma thrown_aside p e : e = JsTypeError \/ e = Beyond -> thrown p e p.
Proof. intro E. right. repeat split; auto. Qed.

(** What the main loop returns or throws is as [gen_ok] says, and it
    does not run out of fuel when given one round per character left. *)
Lemma parse_loop_gen_ok (strict : Prop) : forall fuel top name branch p,
  (strict -> String.length (text p) - lastIndex p < fuel) ->
  gen_ok strict p (parse_loop fuel top name branch p).
Proof.
  induction fuel as [|fuel IH]; intros top name branch p F;
    [intro s; specialize (F s); lia|].
  cbn [parse_loop].
  destruct (exec patTag (text p) (lastIndex p)) as [[st m]|] eqn:E.
  2: { simpl. split; [apply keeps_set_lastIndex | discriminate]. }
  apply exec_pos in E. rewrite min_len_patTag in E.
  set (p1 := set_lastIndex (pos m) p).
  assert (K1 : keeps p p1) by apply keeps_set_lastIndex.
  assert (L1 : lastIndex p < lastIndex p1 <= String.length (text p1))
    by (unfold p1; simpl; lia).
  assert (T1 : text p1 = text p) by reflexivity.
  assert (Cont : forall tp nm b q,
            keeps p1 q ->
            lastIndex p1 <= lastIndex q <= String.length (text p1) ->
            gen_ok strict p (parse_loop fuel tp nm b q)).
  { intros tp nm b q K L. apply gen_ok_mono with (q := q).
    - eauto using keeps_trans.
    - lia.
    - apply IH. intro s. specialize (F s).
      destruct K as (_ & T & _). rewrite T.
      unfold p1 in *; simpl in *; lia. }
  assert (F1 : strict -> String.length (text p1) - lastIndex p1 < fuel)
    by (intro s; specialize (F s); unfold p1 in *; simpl in *; lia).
  clearbody p1. clear F E.
  pose proof (text_step p1 (group 1 m) branch) as TS.
  destruct (if test (Cls non_ws) (group 1 m) then _ else _)
    as [branch1 p1'|e p1'|]; cbn [bind]; [| |contradiction].
  2: { destruct TS as (TE & ->). simpl.
       eauto using keeps_thrown, thrown_aside. }
  destruct TS as (-> & _).
  destruct (test patSpecialTag (group 2 m)).
  - destruct (test patPITag (group 2 m)).
    { eapply bind_gen_ok; eauto using parsePINode_ok; lia. }
    destruct (test patCommentTag (group 2 m)).
    { eapply bind_gen_ok; eauto using parseCommentNode_ok; lia. }
    destruct (test patDTDTag (group 2 m)).
    { eapply bind_gen_ok; eauto using parseCDATANode_ok, parseDTDNode_ok; lia. }
    destruct (test patCDATATag (group 2 m)).
    { eapply bind_gen_ok; eauto using parseCDATANode_ok; try lia.
      intros a q K L. pose proof (append_data_step q a branch1) as AS.
      destruct (append_data q a branch1) as [b2 q'|e q'|]; cbn [bind];
        [subst q'; now apply Cont| |contradiction].
      destruct AS as (TE & ->). simpl.
      eauto using keeps_thrown, keeps_trans, thrown_aside. }
    throw_ok MalformedSpecialTag.
  - destruct (matches patStandardTag (group 2 m)) as [ms|] eqn:M;
      [|throw_ok MalformedTag].
    pose proof (node_name_truthy (lowerCase (opts p1)) _ _ M) as N.
    set (nodeName := if lowerCase (opts p1) then toLowerCase (group 2 ms)
                     else group 2 ms) in *.
    clearbody nodeName.
    destruct (negb (String.eqb (group 1 ms) EmptyString)).
    + destruct (String.eqb nodeName _).
      * simpl. split; [auto | intros _; rewrite <- T1; lia].
      * throw_ok (MismatchedClosingTag name).
    + assert (After : forall a q,
                keeps p1 q ->
                lastIndex p1 <= lastIndex q <= String.length (text p1) ->
                gen_ok strict p
                  (match add_leaf q top nodeName (compress q a) branch1 with
                   | Some b2 =>
                       if top then Ok (b2, false) q
                       else parse_loop fuel top name b2 q
                   | None => Throw Beyond q
                   end)).
      { intros a q K L. destruct (add_leaf q top nodeName _ branch1).
        - destruct top.
          + simpl. split; [eauto using keeps_trans | discriminate].
          + apply Cont; auto.
        - simpl. eauto using keeps_thrown, keeps_trans, thrown_aside. }
      destruct (test patSelfClosing (group 3 ms)).
      * cbn [bind]. apply After; [apply keeps_refl | lia].
      * pose proof (finish_nested_ok strict p1 nodeName
                      (parse_loop fuel false (Some nodeName)
                         (new_leaf p1 (group 3 ms)) p1) N
                      (IH _ _ _ _ F1)) as Fin.
        destruct (finish false (Some nodeName) _) as [a q| |]; cbn [bind].
        -- destruct Fin as (K & L). apply After; auto. lia.
        -- simpl. eauto using keeps_thrown.
        -- exact Fin.
Qed.

Lemma parse_loop_ok fuel top name branch p :
  String.length (text p) - lastIndex p < fuel ->
  loop_ok p (parse_loop fuel top name branch p).
Proof. intro F. apply parse_loop_gen_ok. auto. Qed.

Lemma parse_loop_keeps fuel top name branch p b f q :
  parse_loop fuel top name branch p = Ok (b, f) q -> keeps p q.
Proof.
  intro H. pose proof (parse_loop_gen_ok False fuel top name branch p) as G.
  rewrite H in G. apply G. contradiction.
Qed.

(** ** One round of the main loop, as cases *)

Lemma step_ok_keeps {A : Type} p (r : result A) a q :
  step_ok p r -> r = Ok a q -> keeps p q.
Proof. intros S E; subst. now destruct S. Qed.

Lemma finish_nested_inv name r leaf q :
  finish false (Some name) r = Ok leaf q ->
  exists found, r = Ok (leaf, found) q.
Proof.
  destruct r as [[b found] p| |]; cbn [finish bind fst snd];
    try discriminate.
  destruct (truthy_name (Some name) && negb found).
  - rewrite throwParseError_eq. discriminate.
  - intro H; inversion H; subst. eauto.
Qed.

Lemma parse_loop_unfolds fuel top name branch p b f q :
  parse_loop (S fuel) top name branch p = Ok (b, f) q ->
  unfolds fuel top name branch p b f q.
Proof.
  cbn [parse_loop].
  destruct (exec patTag (text p) (lastIndex p)) as [[st m]|] eqn:E.
  2: { intro H; inversion H; subst. now apply U_end. }
  set (p1 := set_lastIndex (pos m) p).
  assert (K1 : keeps p p1) by apply keeps_set_lastIndex.
  assert (G : substr (group 2 m) (text p)) by eauto using exec_group.
  assert (Op : forall ms,
            test patSpecialTag (group 2 m) = false ->
            matches patStandardTag (group 2 m) = Some ms ->
            group 1 ms = EmptyString ->
            opening p (group 2 ms) (group 3 ms)).
  { intros ms X1 X2 X3. exists st, m, ms. repeat split; auto. }
  clearbody p1. clear E.
  pose proof (text_step p1 (group 1 m) branch) as TS.
  destruct (if test (Cls non_ws) (group 1 m) then _ else _)
    as [b1 p1'| |]; cbn [bind]; try discriminate.
  destruct TS as (-> & T1).
  assert (Special : forall r : result string,
            step_ok p1 r ->
            bind r (fun _ q' => parse_loop fuel top name b1 q') = Ok (b, f) q ->
            unfolds fuel top name branch p b f q).
  { intros r S H. destruct r as [a p2| |]; try discriminate.
    cbn [bind] in H. destruct S as (K2 & _).
    eapply U_special; eauto. now left. }
  destruct (test patSpecialTag (group 2 m)) eqn:Sp.
  - destruct (test patPITag (group 2 m));
      [apply Special, parsePINode_ok|].
    destruct (test patCommentTag (group 2 m));
      [apply Special, parseCommentNode_ok|].
    destruct (test patDTDTag (group 2 m));
      [apply Special, parseDTDNode_ok|].
    destruct (test patCDATATag (group 2 m)).
    + pose proof (parseCDATANode_ok (group 2 m) p1) as S.
      destruct (parseCDATANode (group 2 m) p1) as [a p2| |];
        try discriminate.
      cbn [bind]. destruct S as (K2 & _).
      destruct (append_data p2 a b1) as [b2 p2'| |] eqn:A; cbn [bind];
        try discriminate.
      pose proof (append_data_same _ _ _ _ _ A). subst p2'. intro H.
      eapply U_special; eauto. right; eauto.
    + rewrite throwParseError_eq. discriminate.
  - destruct (matches patStandardTag (group 2 m)) as [ms|] eqn:M;
      [|rewrite throwParseError_eq; discriminate].
    pose proof (standard_tag_name _ _ M) as N.
    assert (G2 : substr (group 2 ms) (text p))
      by eauto using substr_trans, matches_group.
    assert (NN : (if lowerCase (opts p1) then toLowerCase (group 2 ms)
                  else group 2 ms) = node_name p (group 2 ms)).
    { unfold node_name. destruct K1 as (O & _). now rewrite O. }
    rewrite NN. clear NN.
    destruct (String.eqb (group 1 ms) EmptyString) eqn:Cl; cbn [negb].
    2: { destruct (String.eqb (node_name p (group 2 ms)) _).
         - intro H; inversion H; subst. eapply U_close; eauto.
         - rewrite throwParseError_eq. discriminate. }
    apply String.eqb_eq in Cl.
    specialize (Op ms eq_refl eq_refl Cl).
    { 
      destruct (test patSelfClosing (group 3 ms)).
      * cbn [bind].
        destruct (add_leaf p1 top _ _ b1) as [b2|] eqn:AL;
          [|discriminate].
        intro H.
        eapply U_open with (p1 := p1) (p2 := p1) (raw := group 3 ms);
          eauto using keeps_refl.
        destruct top; [left | right; auto].
        inversion H; subst. auto.
      * destruct (finish false (Some (node_name p (group 2 ms))) _)
          as [leaf p2| |] eqn:Fin; try discriminate.
        cbn [bind].
        destruct (add_leaf p2 top _ _ b1) as [b2|] eqn:AL;
          [|discriminate].
        intro H.
        apply finish_nested_inv in Fin as (found & Fin).
        assert (K2 : keeps p1 p2) by eauto using parse_loop_keeps.
        eapply U_open with (p1 := p1) (p2 := p2) (raw := group 3 ms);
          eauto.
        destruct top; [left | right; auto].
        inversion H; subst. auto. }
Qed.

(** ** The top-level branch holds one element at most *)

Lemma inherited_proto k :
  inherited k = false -> String.eqb k "__proto__" = false.
Proof.
  intro H. destruct (String.eqb k "__proto__") eqn:E; [|reflexivity].
  apply String.eqb_eq in E. subst k. discriminate.
Qed.

Lemma obj_set_nil k v :
  String.eqb k "__proto__" = false -> obj_set k v [] = [(k, v)].
Proof. unfold obj_set; simpl. intros ->. now destruct (array_index k). Qed.

Lemma obj_set_single k v v' : obj_set k v' [(k, v)] = [(k, v')].
Proof. unfold obj_set, obj_has; simpl. now rewrite String.eqb_refl. Qed.

Lemma append_data_only p s b b1 q :
  append_data p s b = Ok b1 q ->
  only_data (dataKey (opts p)) b -> only_data (dataKey (opts p)) b1.
Proof.
  unfold append_data. intros A [-> | [v ->]]; simpl in A.
  - destruct (inherited _) eqn:I; [discriminate|].
    rewrite obj_set_nil in A by now apply inherited_proto.
    inversion A. right; eauto.
  - rewrite String.eqb_refl in A. destruct (to_str v); [|discriminate].
    rewrite obj_set_single in A. inversion A. right; eauto.
Qed.

Lemma texted_only p p' b b1 :
  opts p' = opts p -> texted p' b b1 ->
  only_data (dataKey (opts p)) b -> only_data (dataKey (opts p)) b1.
Proof.
  intros O [-> | [s A]] H; auto.
  rewrite <- O in *. eauto using append_data_only.
Qed.

Lemma only_data_delete k b :
  only_data k b -> num_keys (obj_delete k b) <= 1.
Proof.
  intros [-> | [v ->]]; simpl; auto. rewrite String.eqb_refl. simpl. lia.
Qed.

Lemma add_leaf_top p k n leaf b b' :
  add_leaf p true n leaf b = Some b' ->
  only_data k b -> num_keys (obj_delete k b') <= 1.
Proof.
  unfold add_leaf. rewrite Bool.andb_false_r.
  intros A [-> | [v ->]]; simpl in A.
  - destruct (inherited n) eqn:I; [discriminate|].
    rewrite obj_set_nil in A by now apply inherited_proto.
    inversion A. simpl. destruct (String.eqb n k); simpl; lia.
  - destruct (String.eqb k n) eqn:E.
    + apply String.eqb_eq in E. subst n.
      destruct v; rewrite obj_set_single in A; inversion A; simpl;
        rewrite String.eqb_refl; simpl; lia.
    + destruct (inherited n) eqn:I; [discriminate|].
      apply inherited_proto in I.
      unfold obj_set, obj_has in A; simpl in A. rewrite E, I in A.
      inversion A. clear A.
      destruct (array_index n); simpl.
      * destruct (array_index k); [destruct (N.ltb n1 n0)|]; simpl;
          rewrite ?String.eqb_refl, ?E; simpl;
          rewrite ?(String.eqb_sym n k), ?E; simpl;
          rewrite ?String.eqb_refl; simpl; try lia.
      * rewrite String.eqb_refl; simpl; lia.
Qed.

Lemma parse_loop_top : forall fuel name branch p b f q,
  parse_loop fuel true name branch p = Ok (b, f) q ->
  only_data (dataKey (opts p)) branch ->
  num_keys (obj_delete (dataKey (opts p)) b) <= 1.
Proof.
  induction fuel as [|fuel IH]; intros name branch p b f q H D;
    [discriminate|].
  apply parse_loop_unfolds in H.
  destruct H as [_ -> _ _
                | p1 p2 b1 b2 K1 T1 K2 T2 H
                | p1 b1 K1 T1 -> _ _
                | p1 p2 b1 b2 g raw leaf K1 T1 _ _ _ _ K2 A H].
  - now apply only_data_delete.
  - destruct K1 as (O1 & _), K2 as (O2 & _).
    apply IH in H; [congruence|].
    rewrite O2, O1.
    eapply texted_only with (p' := p2); [congruence | exact T2 |].
    eapply texted_only with (p' := p1); eauto.
  - destruct K1 as (O1 & _).
    apply only_data_delete. eapply texted_only with (p' := p1); eauto.
  - destruct H as [(_ & _ & _ & ->) | (C & _)]; [|discriminate].
    destruct K1 as (O1 & _).
    eapply add_leaf_top; [exact A|].
    eapply texted_only with (p' := p1); eauto.
Qed.

(** ** The top-level call and parse_xml *)

Lemma keeps_set_tree p t n : keeps p (set_tree t n p).
Proof. repeat split. Qed.

(** The top-level call of parse never runs out of fuel; it returns with
    no error recorded, or throws the formatted text of the one error it
    recorded, which is never TooManyTopLevelNodes. *)
Lemma parse_top_ok (p : XML) :
  lastIndex p = 0 ->
  match parse (S (String.length (text p))) true None [] p with
  | Ok _ q => keeps p q
  | Throw e q => thrown p e q
  | OutOfFuel => False
  end.
Proof.
  intro L. unfold parse.
  pose proof (parse_loop_ok (S (String.length (text p))) true None [] p) as G.
  destruct (parse_loop _ true None [] p) as [[b f] q| |] eqn:E;
    cbn [finish bind fst snd loop_ok gen_ok] in *;
    [|apply G; lia|apply G; lia].
  destruct G as (K & _); [lia|].
  cbn [truthy_name andb].
  apply parse_loop_top in E; [|now left].
  destruct K as (O & T & R). rewrite <- O in E.
  apply Nat.ltb_ge in E. rewrite E.
  destruct (truthy_name _ && negb _); [destruct (obj_get _ _)|];
    repeat split; auto.
Qed.

Lemma XML_new_ok fs (o : options) (txt : string) :
  match XML_new fs o txt with
  | Ok _ p => exists t, load fs txt = inl t /\ text p = t /\ errors p = [] /\
                        opts p = effective o
  | Throw e p =>
      load fs txt = inr e /\ errors p = [] \/
      (exists t err k,
        load fs txt = inl t /\ errors p = [err] /\ e = Error (getError err) /\
        err_type err = "Parse" /\ err_key err = kind_key k /\
        is_too_many k = false) \/
      (exists t,
        load fs txt = inl t /\ (e = JsTypeError \/ e = Beyond) /\
        errors p = [])
  | OutOfFuel => False
  end.
Proof.
  unfold XML_new. destruct (load fs txt) as [t|e] eqn:Ld; [|now left].
  destruct t as [|c t]; [exists EmptyString; now repeat split|].
  destruct (keys_beyond (effective o)).
  { right; right. exists (String c t). repeat split; auto. }
  pose proof (parse_top_ok (new_parser o (String c t)) eq_refl) as P.
  cbn [text new_parser] in P.
  destruct (parse _ true None [] _) as [tr q| |]; cbn [bind]; auto.
  - destruct P as (O & T & R). exists (String c t). now repeat split.
  - right.
    destruct P as [(err & k & H1 & H2 & H3 & H4 & H5 & _)
                  | (H1 & _ & _ & H2)].
    + left. exists (String c t), err, k. repeat split; auto.
    + right. exists (String c t). repeat split; auto.
Qed.

(** ** Hashes: reading after writing *)

Lemma obj_get_update_same k v o :
  obj_has k o = true -> obj_get k (obj_update k v o) = Some v.
Proof.
  unfold obj_has. induction o as [|[k' v'] o IH]; simpl; [discriminate|].
  destruct (String.eqb k' k) eqn:E; simpl; rewrite E; auto.
Qed.

Lemma obj_get_update_other k k' v o :
  k <> k' -> obj_get k' (obj_update k v o) = obj_get k' o.
Proof.
  intro N. induction o as [|[k0 v0] o IH]; simpl; auto.
  destruct (String.eqb k0 k) eqn:E; simpl.
  - apply String.eqb_eq in E. subst k0.
    apply String.eqb_neq in N. now rewrite N.
  - now rewrite IH.
Qed.

Lemma obj_get_insert_same n k v o :
  obj_get k o = None -> obj_get k (obj_insert_index n k v o) = Some v.
Proof.
  induction o as [|[k' v'] o IH]; simpl; [now rewrite String.eqb_refl|].
  destruct (String.eqb k' k) eqn:E; [discriminate|]. intro H.
  destruct (array_index k') as [n'|]; [destruct (N.ltb n' n)|]; simpl;
    rewrite ?String.eqb_refl, ?E; auto.
Qed.

Lemma obj_get_insert_other n k k' v o :
  k <> k' -> obj_get k' (obj_insert_index n k v o) = obj_get k' o.
Proof.
  intro N. apply String.eqb_neq in N.
  induction o as [|[k0 v0] o IH]; simpl; [now rewrite N|].
  destruct (array_index k0) as [n'|]; [destruct (N.ltb n' n)|]; simpl;
    rewrite ?N, ?IH; auto.
Qed.

Lemma obj_get_app_same k v o :
  obj_get k o = None -> obj_get k (o ++ [(k, v)])%list = Some v.
Proof.
  induction o as [|[k' v'] o IH]; simpl; [now rewrite String.eqb_refl|].
  destruct (String.eqb k' k); [discriminate | auto].
Qed.

Lemma obj_get_app_other k k' v o :
  k <> k' -> obj_get k' (o ++ [(k, v)])%list = obj_get k' o.
Proof.
  intro N. apply String.eqb_neq in N.
  induction o as [|[k0 v0] o IH]; simpl; [now rewrite N|].
  now rewrite IH.
Qed.

(** [o[k] = v; o[k]] is [v]. *)
Lemma obj_get_set_same k v o :
  obj_has k o = true \/ String.eqb k "__proto__" = false ->
  obj_get k (obj_set k v o) = Some v.
Proof.
  unfold obj_set. destruct (obj_has k o) eqn:E.
  - intros _. now apply obj_get_update_same.
  - intros [H | ->]; [discriminate|].
    unfold obj_has in E. destruct (obj_get k o) eqn:G; [discriminate|].
    destruct (array_index k);
      auto using obj_get_insert_same, obj_get_app_same.
Qed.

(** [o[k] = v] leaves the other keys as they were. *)
Lemma obj_get_set_other k k' v o :
  k <> k' -> obj_get k' (obj_set k v o) = obj_get k' o.
Proof.
  intro N. unfold obj_set. destruct (obj_has k o).
  - now apply obj_get_update_other.
  - destruct (String.eqb k "__proto__"); [reflexivity|].
    destruct (array_index k);
      auto using obj_get_insert_other, obj_get_app_other.
Qed.

Lemma all_values_get (P : value -> Prop) k o v :
  all_values P o -> obj_get k o = Some v -> P v.
Proof.
  induction 1 as [|[k' v'] o H F IH]; simpl; [discriminate|].
  destruct (String.eqb k' k); [intro E; now inversion E; subst | auto].
Qed.

Lemma all_values_set (P : value -> Prop) k v o :
  all_values P o -> P v -> all_values P (obj_set k v o).
Proof.
  intros F Hv. unfold obj_set. destruct (obj_has k o).
  - induction F as [|[k' v'] o H F IH]; simpl; [constructor|].
    destruct (String.eqb k' k); constructor; auto.
  - destruct (String.eqb k "__proto__"); [exact F|].
    destruct (array_index k) as [n|].
    + induction F as [|[k' v'] o H F IH]; simpl; [repeat constructor; auto|].
      destruct (array_index k') as [n'|]; [destruct (N.ltb n' n)|];
        repeat constructor; auto.
    + apply Forall_app; split; auto.
Qed.

Lemma all_values_delete (P : value -> Prop) k o :
  all_values P o -> all_values P (obj_delete k o).
Proof.
  induction 1 as [|[k' v'] o H F IH]; simpl; [constructor|].
  destruct (String.eqb k' k); auto. constructor; auto.
Qed.

Lemma flat_hash (o : obj) :
  flat (Hash o) = true <-> all_values (fun v => flat v = true) o.
Proof.
  simpl. unfold all_values. rewrite forallb_forall, Forall_forall. reflexivity.
Qed.

Lemma flat_arr (l : list value) :
  flat (Arr l) = true <->
  Forall (fun x => is_arr x = false /\ flat x = true) l.
Proof.
  simpl. rewrite forallb_forall, Forall_forall.
  split; intros H x Hx; specialize (H x Hx).
  - apply andb_prop in H as [A B]. apply negb_true_iff in A. auto.
  - destruct H as [A B]. now rewrite A, B.
Qed.

(** ** Arrays stay flat when no element has the name of the text key *)

Lemma starts_with_app (w b : string) : starts_with w (w ++ b) = true.
Proof.
  induction w as [|c w IH]; simpl; auto.
  now rewrite (proj2 (Ascii.eqb_eq c c) eq_refl).
Qed.

Lemma substr_contains (w t : string) : substr w t -> contains w t = true.
Proof.
  intros (a & b & ->). induction a as [|c a IH]; simpl.
  - assert (U : forall t, contains w t = starts_with w t || contains w t).
    { intros [|c t]; simpl; now rewrite Bool.orb_assoc, Bool.orb_diag. }
    rewrite U, starts_with_app. reflexivity.
  - rewrite IH. apply Bool.orb_true_r.
Qed.

Lemma toLowerCase_append (a b : string) :
  toLowerCase (a ++ b) = toLowerCase a ++ toLowerCase b.
Proof. induction a as [|c a IH]; simpl; [reflexivity | now rewrite IH]. Qed.

Lemma substr_lower (w t : string) :
  substr w t -> substr (toLowerCase w) (toLowerCase t).
Proof.
  intros (a & b & ->). exists (toLowerCase a), (toLowerCase b).
  now rewrite !toLowerCase_append.
Qed.

Lemma branch_inv_nil k : branch_inv k [].
Proof. split; [reflexivity | discriminate]. Qed.

(** What the text step stores is a string under the text key. *)
Lemma append_data_stored p s b b1 q :
  append_data p s b = Ok b1 q ->
  exists t, b1 = obj_set (dataKey (opts p)) (Str t) b /\
            obj_get (dataKey (opts p)) b1 = Some (Str t).
Proof.
  unfold append_data. cbv zeta. destruct (obj_get _ b) as [v|] eqn:G.
  - destruct (to_str v) as [t|]; [|discriminate]. intros [= <- <-].
    eexists; split; [reflexivity|]. apply obj_get_set_same. left.
    unfold obj_has. now rewrite G.
  - destruct (inherited _) eqn:I; [discriminate|]. intros [= <- <-].
    eexists; split; [reflexivity|]. apply obj_get_set_same. right.
    now apply inherited_proto.
Qed.

Lemma append_data_inv p s b b1 q :
  append_data p s b = Ok b1 q ->
  branch_inv (dataKey (opts p)) b -> branch_inv (dataKey (opts p)) b1.
Proof.
  intros A (F & D). apply append_data_stored in A as (t & -> & G). split.
  - apply flat_hash, all_values_set; [now apply flat_hash | reflexivity].
  - intros v'. rewrite G. intro E; now inversion E.
Qed.

Lemma texted_inv p p' b b1 :
  opts p' = opts p -> texted p' b b1 ->
  branch_inv (dataKey (opts p)) b -> branch_inv (dataKey (opts p)) b1.
Proof.
  intros O [-> | [s A]] H; auto.
  rewrite <- O in *. eauto using append_data_inv.
Qed.

Lemma parse_attribs_strs fuel o raw : forall i attribs,
  all_values is_str attribs ->
  all_values is_str (parse_attribs fuel o raw i attribs).
Proof.
  induction fuel as [|fuel IH]; intros i attribs H; simpl; auto.
  destruct (exec patAttrib raw i) as [[st m]|]; auto.
  apply IH, all_values_set; auto. eexists; reflexivity.
Qed.

Lemma all_values_weaken (P Q : value -> Prop) o :
  (forall v, P v -> Q v) -> all_values P o -> all_values Q o.
Proof. intros H F. eapply Forall_impl; [|exact F]. intros; auto. Qed.

Lemma new_leaf_inv p raw k : branch_inv k (new_leaf p raw).
Proof.
  unfold new_leaf.
  pose proof (parse_attribs_strs (S (String.length raw)) (opts p) raw 0 []
                (Forall_nil _)) as A.
  set (attribs := parse_attribs _ _ _ _ _) in *. clearbody attribs.
  assert (FA : flat (Hash attribs) = true).
  { apply flat_hash. eapply all_values_weaken; [|exact A].
    intros v [s ->]; reflexivity. }
  destruct (preserveAttributes (opts p)).
  - destruct (String.eqb (attribsKey (opts p)) "__proto__") eqn:Pr.
    { unfold obj_set. simpl. rewrite Pr.
      destruct (Nat.eqb (num_keys attribs) 0); apply branch_inv_nil. }
    rewrite obj_set_nil by exact Pr.
    destruct (Nat.eqb (num_keys attribs) 0); simpl.
    + rewrite String.eqb_refl. apply branch_inv_nil.
    + split.
      * simpl in *. now rewrite FA.
      * intros v. simpl. destruct (String.eqb _ k); [|discriminate].
        intro E; now inversion E.
  - split; auto. intros v G.
    destruct (all_values_get _ _ _ _ A G) as [s ->]. reflexivity.
Qed.

Lemma compress_inv p leaf :
  branch_inv (dataKey (opts p)) leaf ->
  flat (compress p leaf) = true /\ is_arr (compress p leaf) = false.
Proof.
  intros (F & D). unfold compress.
  destruct (obj_get (dataKey (opts p)) leaf) as [data|] eqn:G.
  - destruct (Nat.eqb (num_keys leaf) 1).
    + split; auto. apply flat_hash in F.
      exact (all_values_get _ _ _ _ F G).
    + destruct (Nat.eqb (num_keys leaf) 0); auto.
  - destruct (Nat.eqb (num_keys leaf) 0); auto.
Qed.

Lemma add_leaf_inv p top n leaf k b b' :
  add_leaf p top n leaf b = Some b' ->
  branch_inv k b -> flat leaf = true -> is_arr leaf = false -> n <> k ->
  branch_inv k b'.
Proof.
  intros A (F & D) FL AL N. revert A.
  assert (G : forall v, flat v = true ->
                        branch_inv k (obj_set n v b)).
  { intros v Fv. split.
    - apply flat_hash, all_values_set; auto. now apply flat_hash.
    - intro v'. rewrite obj_get_set_other; auto. }
  unfold add_leaf. destruct (obj_get n b) as [temp|] eqn:E.
  - assert (FT : flat temp = true).
    { apply flat_hash in F. exact (all_values_get _ _ _ _ F E). }
    destruct temp as [s|o|l]; intro A; inversion A; apply G.
    + simpl. now rewrite AL, FL.
    + simpl in *. now rewrite AL, FL, FT.
    + apply flat_arr. apply Forall_app. split; [now apply flat_arr|].
      repeat constructor; auto.
  - destruct (inherited n); [discriminate|].
    destruct (forceArrays (opts p) && negb top); intro A; inversion A;
      apply G; auto.
    simpl. now rewrite AL, FL.
Qed.

(** A step of the scan moves forward in the same text. *)
Lemma scan_step_forward p d q d' :
  scan_step p d = Some (q, d') ->
  keeps p q /\ lastIndex p < lastIndex q <= String.length (text p).
Proof.
  unfold scan_step.
  destruct (exec patTag (text p) (lastIndex p)) as [[st m]|] eqn:E;
    [|discriminate].
  apply exec_pos in E. rewrite min_len_patTag in E.
  set (p1 := set_lastIndex (pos m) p).
  assert (K1 : keeps p p1) by apply keeps_set_lastIndex.
  assert (L1 : lastIndex p1 = pos m) by reflexivity.
  assert (T1 : text p1 = text p) by reflexivity.
  clearbody p1.
  assert (Special : forall r : result string,
            step_ok p1 r ->
            match r with Ok _ q0 => Some (q0, d) | _ => None end
            = Some (q, d') ->
            keeps p q /\ lastIndex p < lastIndex q <= String.length (text p)).
  { intros r S H. destruct r as [a q0| |]; try discriminate.
    injection H as <- <-. destruct S as (K & L & B).
    split; [eauto using keeps_trans|]. rewrite T1 in B. lia. }
  destruct (test patSpecialTag (group 2 m)).
  - destruct (test patPITag (group 2 m)); [apply Special, parsePINode_ok|].
    destruct (test patCommentTag (group 2 m));
      [apply Special, parseCommentNode_ok|].
    destruct (test patDTDTag (group 2 m)); [apply Special, parseDTDNode_ok|].
    destruct (test patCDATATag (group 2 m));
      [apply Special, parseCDATANode_ok|].
    rewrite throwParseError_eq. discriminate.
  - destruct (matches patStandardTag (group 2 m)) as [ms|]; [|discriminate].
    destruct (negb (String.eqb (group 1 ms) EmptyString));
      [destruct (Nat.leb d 1)
      |destruct (test patSelfClosing (group 3 ms)); [destruct (Nat.eqb d 0)|]];
      try discriminate; intros [= <- <-]; (split; [exact K1 | lia]).
Qed.

Lemma scan_states_head fuel p d : In (p, d) (scan_states fuel p d).
Proof. destruct fuel; now left. Qed.

(** With one round per character that is left, the scan holds the
    parser after each of its steps. *)
Lemma scan_states_closed : forall fuel p d,
  String.length (text p) - lastIndex p <= fuel ->
  forall x dx y, In (x, dx) (scan_states fuel p d) ->
                 scan_step x dx = Some y -> In y (scan_states fuel p d).
Proof.
  induction fuel as [|fuel IH]; intros p d F x dx [y dy] I S.
  - destruct I as [[= <- <-] | []].
    apply scan_step_forward in S as (_ & S). lia.
  - cbn [scan_states] in *. destruct I as [[= <- <-] | I].
    + rewrite S. right. apply scan_states_head.
    + destruct (scan_step p d) as [[q d']|] eqn:Sp; [|destruct I].
      right. apply (IH q d') with (x := x) (dx := dx); auto.
      apply scan_step_forward in Sp as ((_ & T & _) & L). rewrite T. lia.
Qed.

(** The loop keeps its branch flat when no parser of the scan opens an
    element named as the text key; a loop that returns after its closing
    tag leaves the parser in the scan, unless it is the loop of the root
    element. *)
Lemma parse_loop_flat (L : list (XML * nat)) :
  (forall x dx y, In (x, dx) L -> scan_step x dx = Some y -> In y L) ->
  (forall x dx, In (x, dx) L -> opens_key x = false) ->
  forall fuel top name branch p b f q d,
    parse_loop fuel top name branch p = Ok (b, f) q ->
    In (p, d) L -> (top = true <-> d = 0) ->
    branch_inv (dataKey (opts p)) branch ->
    branch_inv (dataKey (opts p)) b /\
    (f = true -> 2 <= d -> In (q, d - 1) L).
Proof.
  intros Closed Free.
  induction fuel as [|fuel IH]; intros top name branch p b f q d H I Top B;
    [discriminate|].
  pose proof (Free _ _ I) as NK.
  pose proof (fun y => Closed p d y I) as Next.
  unfold opens_key in NK. unfold scan_step in Next. cbn [parse_loop] in H.
  revert H NK Next.
  destruct (exec patTag (text p) (lastIndex p)) as [[st m]|].
  2: { intros H _ _. injection H as <- <- <-. split; [exact B|discriminate]. }
  set (p1 := set_lastIndex (pos m) p).
  assert (K1 : keeps p p1) by apply keeps_set_lastIndex.
  assert (O1 : opts p1 = opts p) by reflexivity.
  pose proof (text_step p1 (group 1 m) branch) as TS.
  destruct (if test (Cls non_ws) (group 1 m) then _ else _)
    as [b1 p1'| |]; cbn [bind]; try (intro H; discriminate H).
  destruct TS as (-> & T1).
  assert (B1 : branch_inv (dataKey (opts p)) b1)
    by (eapply texted_inv with (p' := p1); eauto).
  assert (Special : forall r : result string,
            step_ok p1 r ->
            bind r (fun _ q' => parse_loop fuel top name b1 q') = Ok (b, f) q ->
            (forall y, match r with Ok _ q0 => Some (q0, d) | _ => None end
                       = Some y -> In y L) ->
            branch_inv (dataKey (opts p)) b /\
            (f = true -> 2 <= d -> In (q, d - 1) L)).
  { intros r S H Next. destruct r as [a p2| |]; try discriminate.
    cbn [bind] in H. destruct S as ((O2 & _) & _).
    specialize (Next _ eq_refl).
    destruct (IH _ _ _ _ _ _ _ _ H Next Top) as (R1 & R2);
      [rewrite O2; exact B1|].
    rewrite O2 in R1. auto. }
  destruct (test patSpecialTag (group 2 m)); cbn [negb andb].
  - destruct (test patPITag (group 2 m)).
    { intros H _ Next. exact (Special _ (parsePINode_ok _ _) H Next). }
    destruct (test patCommentTag (group 2 m)).
    { intros H _ Next. exact (Special _ (parseCommentNode_ok _ _) H Next). }
    destruct (test patDTDTag (group 2 m)).
    { intros H _ Next. exact (Special _ (parseDTDNode_ok _ _) H Next). }
    destruct (test patCDATATag (group 2 m)).
    + pose proof (parseCDATANode_ok (group 2 m) p1) as S.
      destruct (parseCDATANode (group 2 m) p1) as [a p2| |];
        try (intro H; discriminate H).
      cbn [bind]. destruct S as ((O2 & _) & _).
      destruct (append_data p2 a b1) as [b2 p2'| |] eqn:A; cbn [bind];
        try (intro H; discriminate H).
      pose proof (append_data_same _ _ _ _ _ A). subst p2'.
      intros H _ Next. specialize (Next _ eq_refl).
      assert (B2 : branch_inv (dataKey (opts p2)) b2).
      { eapply append_data_inv; [exact A|]. rewrite O2. exact B1. }
      destruct (IH _ _ _ _ _ _ _ _ H Next Top B2) as (R1 & R2).
      rewrite O2 in R1. auto.
    + rewrite throwParseError_eq. intro H; discriminate H.
  - destruct (matches patStandardTag (group 2 m)) as [ms|] eqn:M;
      [|rewrite throwParseError_eq; intro H; discriminate H].
    pose proof (node_name_truthy (lowerCase (opts p1)) _ _ M) as NT.
    change (if lowerCase (opts p1) then toLowerCase (group 2 ms)
            else group 2 ms) with (node_name p (group 2 ms)) in *.
    set (nodeName := node_name p (group 2 ms)) in *.
    destruct (String.eqb (group 1 ms) EmptyString); cbn [negb andb].
    2: { destruct (String.eqb nodeName _);
           [|rewrite throwParseError_eq; intro H; discriminate H].
         intros H _ Next. injection H as <- <- <-. split; [exact B1|].
         intros _ D. apply Next.
         destruct (Nat.leb d 1) eqn:Le; [|reflexivity].
         apply Nat.leb_le in Le. lia. }
    intros H NK Next. apply String.eqb_neq in NK.
    assert (After : forall leaf p2,
              keeps p1 p2 -> branch_inv (dataKey (opts p)) leaf ->
              (top = false -> In (p2, d) L) ->
              match add_leaf p2 top nodeName (compress p2 leaf) b1 with
              | Some b2 =>
                  if top then Ok (b2, false) p2
                  else parse_loop fuel top name b2 p2
              | None => Throw Beyond p2
              end = Ok (b, f) q ->
              branch_inv (dataKey (opts p)) b /\
              (f = true -> 2 <= d -> In (q, d - 1) L)).
    { intros leaf p2 (O2 & _) BL I2 A.
      assert (O : opts p2 = opts p) by congruence.
      destruct (add_leaf p2 top nodeName (compress p2 leaf) b1) as [b2|]
        eqn:AL; [|discriminate].
      rewrite <- O in BL. apply compress_inv in BL as (FL & NA).
      assert (B2 : branch_inv (dataKey (opts p)) b2)
        by (eapply add_leaf_inv; eauto).
      destruct top.
      - injection A as <- <- <-. split; [exact B2 | discriminate].
      - rewrite <- O in B2.
        destruct (IH _ _ _ _ _ _ _ _ A (I2 eq_refl) Top B2) as (R1 & R2).
        rewrite O in R1. auto. }
    revert H Next. destruct (test patSelfClosing (group 3 ms)).
    + cbn [bind]. intros H Next. apply (After (new_leaf p1 (group 3 ms)) p1); auto using keeps_refl.
      * apply new_leaf_inv.
      * intro T. apply Next. destruct (Nat.eqb d 0) eqn:D0; [|reflexivity].
        apply Nat.eqb_eq, Top in D0. congruence.
    + intros H Next. specialize (Next _ eq_refl).
      destruct (parse_loop fuel false (Some nodeName)
                  (new_leaf p1 (group 3 ms)) p1)
        as [[leaf found] p2| |] eqn:Ln; cbn [finish bind fst snd] in H;
        try discriminate.
      rewrite NT in H. destruct found; cbn [negb andb bind] in H;
        [|rewrite throwParseError_eq in H; discriminate].
      pose proof (parse_loop_keeps _ _ _ _ _ _ _ _ Ln) as K2.
      destruct (IH _ _ _ _ _ _ _ _ Ln Next) as (BL & Q).
      { split; [discriminate | lia]. }
      { apply new_leaf_inv. }
      apply (After leaf p2); auto.
      intro T. replace d with (S d - 1) by lia. apply Q; [reflexivity|].
      destruct d; [|lia]. destruct Top as (_ & Top).
      rewrite Top in T by reflexivity. discriminate.
Qed.

Lemma parse_top_flat p tr q :
  parse (S (String.length (text p))) true None [] p = Ok tr q ->
  key_free p = true -> flat (tree q) = true.
Proof.
  unfold parse, key_free. intros H KF.
  destruct (parse_loop _ true None [] p) as [[b f] q0| |] eqn:E;
    cbn [finish bind fst snd truthy_name andb] in H; try discriminate.
  rewrite forallb_forall in KF.
  apply (parse_loop_flat (scan_states (String.length (text p)) p 0)) with (d := 0)
    in E; auto using branch_inv_nil, scan_states_head.
  2: { apply scan_states_closed. lia. }
  2: { intros x dx Hx. apply KF in Hx. now apply negb_true_iff in Hx. }
  2: { split; reflexivity. }
  destruct E as ((F & _) & _).
  assert (FT : all_values (fun v => flat v = true)
                 (obj_delete (dataKey (opts q0)) b))
    by (apply all_values_delete; now apply flat_hash).
  destruct (Nat.ltb 1 _); [rewrite throwParseError_eq in H; discriminate|].
  destruct (truthy_name _ && negb _);
    [destruct (obj_get _ _) as [v|] eqn:G|];
    inversion H; subst; simpl; try (now apply flat_hash).
  exact (all_values_get _ _ _ _ FT G).
Qed.

Lemma kind_key_too_many (k : kind) :
  kind_key k = kind_key TooManyTopLevelNodes -> is_too_many k = true.
Proof. destruct k; simpl; intro H; try discriminate; reflexivity. Qed.

Lemma next_close_loop_ends patEnd unclosed : forall fuel tag i p tag' j q,
  next_close_loop fuel patEnd unclosed tag i p = Ok (tag', j) q ->
  test patEnd tag' = true.
Proof.
  induction fuel as [|fuel IH]; intros tag i p tag' j q; simpl;
    destruct (test patEnd tag) eqn:E; intro H;
    try (inversion H; subst; assumption); try discriminate.
  destruct (exec patNextClose (text p) i) as [[st m]|]; eauto.
  rewrite throwParseError_eq in H. discriminate.
Qed.

(** ** Array-forcing *)

Lemma append_data_get p s b b1 q n :
  append_data p s b = Ok b1 q -> n <> dataKey (opts p) ->
  obj_get n b1 = obj_get n b.
Proof.
  intros A N. apply append_data_stored in A as (t & -> & _).
  apply obj_get_set_other; auto.
Qed.

Lemma texted_get p p' b b1 n :
  opts p' = opts p -> texted p' b b1 -> n <> dataKey (opts p) ->
  obj_get n b1 = obj_get n b.
Proof.
  intros O [-> | [s A]] N; auto.
  eapply append_data_get; [exact A|]. now rewrite O.
Qed.

(** What add_leaf stores, and under which key. *)
Lemma add_leaf_stored p top n leaf b b' :
  add_leaf p top n leaf b = Some b' ->
  exists v, b' = obj_set n v b /\ obj_get n b' = Some v /\
    match obj_get n b with
    | Some (Arr l) => v = Arr (l ++ [leaf])%list
    | Some temp => v = Arr [temp; leaf]
    | None => inherited n = false /\
              v = if forceArrays (opts p) && negb top then Arr [leaf]
                  else leaf
    end.
Proof.
  unfold add_leaf. destruct (obj_get n b) as [temp|] eqn:G.
  - assert (H : obj_has n b = true) by (unfold obj_has; now rewrite G).
    destruct temp; intros [= <-]; eexists;
      (split; [reflexivity|]); (split; [|reflexivity]);
      apply obj_get_set_same; auto.
  - destruct (inherited n) eqn:I; [discriminate|].
    pose proof (inherited_proto _ I) as Pr.
    destruct (forceArrays (opts p) && negb top); intros [= <-]; eexists;
      (split; [reflexivity|]); (split; [|split; reflexivity]);
      apply obj_get_set_same; auto.
Qed.

Lemma add_leaf_forced p m leaf b b' n :
  add_leaf p false m leaf b = Some b' ->
  forceArrays (opts p) = true -> arr_or_none n b ->
  arr_or_none n b'.
Proof.
  intros A F H. apply add_leaf_stored in A as (v & -> & G & V).
  unfold arr_or_none in *. rewrite F in V. cbn [negb andb] in V.
  destruct (String.eqb m n) eqn:E.
  - apply String.eqb_eq in E. subst m. rewrite G.
    destruct (obj_get n b) as [[s|o|l]|]; [| | |destruct V as (_ & V)];
      subst v; reflexivity.
  - apply String.eqb_neq in E. rewrite obj_get_set_other; auto.
Qed.

Lemma parse_loop_forced : forall fuel name branch p b f q,
  parse_loop fuel false name branch p = Ok (b, f) q ->
  forceArrays (opts p) = true ->
  forall n, n <> dataKey (opts p) -> arr_or_none n branch -> arr_or_none n b.
Proof.
  induction fuel as [|fuel IH]; intros name branch p b f q H F n N A;
    [discriminate|].
  apply parse_loop_unfolds in H.
  destruct H as [_ -> _ _
                | p1 p2 b1 b2 K1 T1 K2 T2 H
                | p1 b1 K1 T1 -> _ _
                | p1 p2 b1 b2 g raw leaf K1 T1 _ _ _ _ K2 AL H]; auto.
  - pose proof (keeps_trans _ _ _ K1 K2) as K.
    assert (O : opts p2 = opts p) by apply K.
    assert (O1 : opts p1 = opts p) by apply K1.
    eapply IH in H; eauto; try congruence.
    unfold arr_or_none in *.
    rewrite (texted_get p p2 b1 b2 n), (texted_get p p1 branch b1 n); auto.
  - assert (O1 : opts p1 = opts p) by apply K1.
    unfold arr_or_none in *. rewrite (texted_get p p1 branch b1 n); auto.
  - pose proof (keeps_trans _ _ _ K1 K2) as K.
    assert (O : opts p2 = opts p) by apply K.
    assert (O1 : opts p1 = opts p) by apply K1.
    destruct H as [(C & _) | (_ & H)]; [discriminate|].
    eapply IH in H; eauto; try congruence.
    eapply add_leaf_forced; [exact AL | congruence |].
    unfold arr_or_none in *. rewrite (texted_get p p1 branch b1 n); auto.
Qed.

(** ** Entities: decoding what was encoded *)

Section Literal.

(** A literal pattern matches exactly where the text starts with it. *)
Lemma run_Lit (w : string) : forall k p t c,
  run (Lit w) k (MState p t c)
  = if starts_with w t
    then k (MState (p + String.length w) (drop (String.length w) t) c)
    else None.
Proof.
  induction w as [|a w IH]; intros k p t c.
  - simpl. now rewrite Nat.add_0_r.
  - destruct w as [|b w].
    + simpl. destruct t as [|x t]; [reflexivity|].
      rewrite Ascii.eqb_sym. destruct (Ascii.eqb a x); [|reflexivity].
      unfold step; simpl. now rewrite Nat.add_1_r.
    + change (Lit (String a (String b w)))
        with (Seq (Chr a) (Lit (String b w))).
      rewrite run_seq. cbn [run rest]. destruct t as [|x t]; [reflexivity|].
      rewrite Ascii.eqb_sym.
      change (starts_with (String a (String b w)) (String x t))
        with (Ascii.eqb a x && starts_with (String b w) t).
      destruct (Ascii.eqb a x); [|reflexivity]. unfold step.
      cbn [pos caps andb]. rewrite IH.
      destruct (starts_with (String b w) t); [|reflexivity].
      change (String.length (String a (String b w)))
        with (S (String.length (String b w))).
      change (drop (S (String.length (String b w))) (String x t))
        with (drop (String.length (String b w)) t).
      now rewrite <- Nat.add_succ_comm.
Qed.

Variables (w by_ : string).

Lemma replace_miss (a : ascii) (t : string) (p : nat) :
  starts_with w (String a t) = false ->
  replace_go (Lit w) by_ 0 p (String a t)
  = String a (replace_go (Lit w) by_ 0 (S p) t).
Proof. intro H. cbn [replace_go]. now rewrite run_Lit, H. Qed.

Lemma replace_skip (u t : string) : forall p,
  replace_go (Lit w) by_ (String.length u) p (u ++ t)
  = replace_go (Lit w) by_ 0 (p + String.length u) t.
Proof.
  induction u as [|a u IH]; intro p; simpl.
  - now rewrite Nat.add_0_r.
  - now rewrite IH, Nat.add_succ_comm.
Qed.

End Literal.

Lemma replace_hit (by_ : string) (a : ascii) (u t : string) (p : nat) :
  replace_go (Lit (String a u)) by_ 0 p (String a u ++ t)
  = by_ ++ replace_go (Lit (String a u)) by_ 0 (p + S (String.length u)) t.
Proof.
  cbn [replace_go append]. rewrite run_Lit.
  change (String a (u ++ t)) with (String a u ++ t).
  rewrite starts_with_app. cbn [pos String.length].
  replace (Nat.eqb (p + S (String.length u)) p) with false
    by (symmetry; apply Nat.eqb_neq; lia).
  replace (p + S (String.length u) - p - 1) with (String.length u) by lia.
  rewrite replace_skip. now rewrite Nat.add_succ_comm.
Qed.

(** The result of replacing a literal does not depend on the index at
    which the text starts. *)
Lemma replace_go_pos (w by_ : string) : forall t skip p p',
  replace_go (Lit w) by_ skip p t = replace_go (Lit w) by_ skip p' t.
Proof.
  induction t as [|c t IH]; intros skip p p'; destruct skip as [|k];
    cbn [replace_go]; rewrite ?run_Lit; auto.
  - destruct (starts_with w EmptyString); reflexivity.
  - destruct (starts_with w (String c t)); cbn [pos].
    + replace (Nat.eqb (p + String.length w) p)
        with (Nat.eqb (String.length w) 0)
        by (destruct (Nat.eqb_spec (String.length w) 0);
            symmetry; [apply Nat.eqb_eq | apply Nat.eqb_neq]; lia).
      replace (Nat.eqb (p' + String.length w) p')
        with (Nat.eqb (String.length w) 0)
        by (destruct (Nat.eqb_spec (String.length w) 0);
            symmetry; [apply Nat.eqb_eq | apply Nat.eqb_neq]; lia).
      replace (p + String.length w - p - 1) with (String.length w - 1) by lia.
      replace (p' + String.length w - p' - 1) with (String.length w - 1)
        by lia.
      destruct (Nat.eqb (String.length w) 0); f_equal; auto.
      f_equal; auto.
    + f_equal; auto.
Qed.

Lemma replace_all_nil (a : ascii) (u by_ : string) :
  replace_all (Lit (String a u)) by_ EmptyString = EmptyString.
Proof. unfold replace_all. cbn [replace_go]. now rewrite run_Lit. Qed.

Lemma replace_all_miss (w by_ : string) (a : ascii) (t : string) :
  starts_with w (String a t) = false ->
  replace_all (Lit w) by_ (String a t)
  = String a (replace_all (Lit w) by_ t).
Proof.
  intro H. unfold replace_all. rewrite replace_miss; auto.
  f_equal. apply replace_go_pos.
Qed.

Lemma replace_all_hit (by_ : string) (a : ascii) (u t : string) :
  replace_all (Lit (String a u)) by_ (String a u ++ t)
  = by_ ++ replace_all (Lit (String a u)) by_ t.
Proof.
  unfold replace_all. rewrite replace_hit. f_equal. apply replace_go_pos.
Qed.

Lemma expand_single (s : string) : expand single s = s.
Proof. induction s as [|a s IH]; simpl; [reflexivity | now rewrite IH]. Qed.

(** Replacing a literal in a text written character by character, when
    it can be done one character at a time. *)
Lemma replace_expand (a : ascii) (u by_ : string) (f g : ascii -> string) :
  (forall x t, replace_all (Lit (String a u)) by_ (f x ++ t)
               = g x ++ replace_all (Lit (String a u)) by_ t) ->
  forall s, replace_all (Lit (String a u)) by_ (expand f s) = expand g s.
Proof.
  intros H s. induction s as [|x s IH]; simpl.
  - apply replace_all_nil.
  - now rewrite H, IH.
Qed.

Ltac miss :=
  rewrite replace_all_miss
    by (cbn [starts_with]; repeat match goal with
                                  | H : Ascii.eqb _ _ = false |- _ =>
                                      rewrite H
                                  end; reflexivity).

Ltac hit a u :=
  match goal with
  | |- context [replace_all ?r ?b (String a ?t)] =>
      change (replace_all r b (String a t))
        with (replace_all (Lit (String a u)) b (String a u ++ drop (String.length u) t));
      rewrite replace_all_hit
  end.

Ltac by_char x :=
  intros x t;
  unfold amp, amp_lt, amp_gt, amp_lt_gt, single;
  destruct (Ascii.eqb "&" x) eqn:Eamp;
  [apply Ascii.eqb_eq in Eamp; subst x
  |destruct (Ascii.eqb "<" x) eqn:Elt;
   [apply Ascii.eqb_eq in Elt; subst x
   |destruct (Ascii.eqb ">" x) eqn:Egt;
    [apply Ascii.eqb_eq in Egt; subst x|]]];
  cbn [append Ascii.eqb Bool.eqb andb].

Lemma encode_step1 s :
  replace_all (Chr "&") "&amp;" (expand single s) = expand amp s.
Proof.
  apply (replace_expand "&" EmptyString). by_char x.
  - apply (replace_all_hit "&amp;" "&" EmptyString).
  - now miss.
  - now miss.
  - now miss.
Qed.

Lemma encode_step2 s :
  replace_all (Chr "<") "&lt;" (expand amp s) = expand amp_lt s.
Proof.
  apply (replace_expand "<" EmptyString). by_char x.
  - now do 5 miss.
  - apply (replace_all_hit "&lt;" "<" EmptyString).
  - now miss.
  - now miss.
Qed.

Lemma encode_step3 s :
  replace_all (Chr ">") "&gt;" (expand amp_lt s) = expand amp_lt_gt s.
Proof.
  apply (replace_expand ">" EmptyString). by_char x.
  - now do 5 miss.
  - now do 4 miss.
  - apply (replace_all_hit "&gt;" ">" EmptyString).
  - now miss.
Qed.

Lemma decode_step1 s :
  replace_all (Lit "&lt;") "<" (expand amp_lt_gt s) = expand amp_gt s.
Proof.
  apply (replace_expand "&" "lt;"). by_char x.
  - now do 5 miss.
  - exact (replace_all_hit "<" "&" "lt;" t).
  - now do 4 miss.
  - now miss.
Qed.

Lemma decode_step2 s :
  replace_all (Lit "&gt;") ">" (expand amp_gt s) = expand amp s.
Proof.
  apply (replace_expand "&" "gt;"). by_char x.
  - now do 5 miss.
  - now miss.
  - exact (replace_all_hit ">" "&" "gt;" t).
  - now miss.
Qed.

Lemma decode_step3 s :
  replace_all (Lit "&quot;") (String dquote EmptyString) (expand amp s)
  = expand amp s.
Proof.
  apply (replace_expand "&" "quot;"). by_char x.
  - now do 5 miss.
  - now miss.
  - now miss.
  - now miss.
Qed.

Lemma decode_step4 s :
  replace_all (Lit "&apos;") "'" (expand amp s) = expand amp s.
Proof.
  apply (replace_expand "&" "apos;"). by_char x.
  - now do 5 miss.
  - now miss.
  - now miss.
  - now miss.
Qed.

Lemma decode_step5 s :
  replace_all (Lit "&amp;") "&" (expand amp s) = expand single s.
Proof.
  apply (replace_expand "&" "amp;"). by_char x.
  - exact (replace_all_hit "&" "&" "amp;" t).
  - now miss.
  - now miss.
  - now miss.
Qed.

Lemma encode_expand (s : string) : encode_entities s = expand amp_lt_gt s.
Proof.
  destruct s as [|a s]; [reflexivity|]. unfold encode_entities.
  rewrite <- (expand_single (String a s)) at 1.
  now rewrite encode_step1, encode_step2, encode_step3.
Qed.

Lemma decode_all_expand (s : string) : decode_all (expand amp_lt_gt s) = s.
Proof.
  unfold decode_all.
  rewrite decode_step1, decode_step2, decode_step3, decode_step4,
    decode_step5.
  apply expand_single.
Qed.

Lemma scan_none_miss (u by_ : string) : forall t p,
  scan (Chr "&") p t = None ->
  replace_all (Lit (String "&" u)) by_ t = t.
Proof.
  induction t as [|a t IH]; intros p H; [apply replace_all_nil|].
  cbn [scan run rest] in H.
  destruct (Ascii.eqb a "&") eqn:E; [discriminate|].
  rewrite replace_all_miss.
  - f_equal. eauto.
  - cbn [starts_with]. now rewrite Ascii.eqb_sym, E.
Qed.

(** Where decode_entities finds no ampersand, its replacements would not
    change the text either. *)
Lemma decode_entities_all (t : string) : decode_entities t = decode_all t.
Proof.
  destruct t as [|a t]; [reflexivity|]. unfold decode_entities.
  destruct (test (Chr "&") (String a t)) eqn:E; [reflexivity|].
  unfold test, exec in E. cbn [String.length Nat.ltb Nat.leb drop] in E.
  destruct (scan (Chr "&") 0 (String a t)) as [[st m]|] eqn:S;
    [discriminate|].
  unfold decode_all.
  now rewrite !(scan_none_miss _ _ _ _ S).
Qed.

(** ** Composing *)

Section ValueInd.

Variable P : value -> Prop.
Hypothesis HStr : forall s, P (Str s).
Hypothesis HHash : forall o, Forall (fun kv => P (snd kv)) o -> P (Hash o).
Hypothesis HArr : forall l, Forall P l -> P (Arr l).

(** Induction on values, with the property for all members. *)
Fixpoint value_ind' (v : value) : P v :=
  match v with
  | Str s => HStr s
  | Hash o =>
      HHash o
        ((fix go (o : list (string * value))
            : Forall (fun kv => P (snd kv)) o :=
            match o with
            | [] => Forall_nil _
            | (k, x) :: o' => Forall_cons (k, x) (value_ind' x) (go o')
            end) o)
  | Arr l =>
      HArr l
        ((fix go (l : list value) : Forall P l :=
            match l with
            | [] => Forall_nil _
            | x :: l' => Forall_cons x (value_ind' x) (go l')
            end) l)
  end.

End ValueInd.

Lemma reordered_refl (v : value) : reordered v v.
Proof.
  induction v as [s|o IH|l IH] using value_ind'.
  - constructor.
  - constructor. induction IH as [|kv o H F IH]; constructor; auto.
  - apply R_arr with (l1 := l); [apply Permutation_refl|].
    induction IH; constructor; auto.
Qed.

Lemma Forall2_trans_in {A : Type} (R : A -> A -> Prop) (l1 : list A) :
  Forall (fun a => forall b c, R a b -> R b c -> R a c) l1 ->
  forall l2 l3, Forall2 R l1 l2 -> Forall2 R l2 l3 -> Forall2 R l1 l3.
Proof.
  induction 1 as [|a l1 H F IH]; intros l2 l3 H12 H23;
    inversion H12; subst; inversion H23; subst; constructor; eauto.
Qed.

Lemma reordered_trans (a : value) :
  forall b c, reordered a b -> reordered b c -> reordered a c.
Proof.
  induction a as [s|o IH|l IH] using value_ind'; intros b c Hab Hbc;
    inversion Hab; subst; inversion Hbc; subst.
  - constructor.
  - constructor. eapply Forall2_trans_in; [|eassumption|eassumption].
    eapply Forall_impl; [|exact IH].
    intros kv Hkv x y [E1 R1] [E2 R2]. split; [congruence | eauto].
  - match goal with
    | P1 : Permutation l ?m1, F1 : Forall2 reordered ?m1 ?m2,
      P2 : Permutation ?m2 ?m3, F2 : Forall2 reordered ?m3 ?m4 |- _ =>
        apply Forall2_flip in F1;
        destruct (Permutation_Forall2 P2 F1) as (m1' & P3 & F3);
        apply Forall2_flip in F3;
        apply R_arr with (l1 := m1');
        [eapply Permutation_trans; eauto|];
        apply Forall2_trans_in with (l2 := m3); auto
    end.
    apply Forall_forall. intros x Hx.
    rewrite Forall_forall in IH. apply IH.
    eapply Permutation_in; [apply Permutation_sym|exact Hx].
    eapply Permutation_trans; eauto.
Qed.

Lemma sort_insert_perm {A : Type} (cmp : comparator A) (x : A) (l : list A) :
  Permutation (x :: l) (sort_insert cmp x l).
Proof.
  induction l as [|y l IH]; simpl; [apply Permutation_refl|].
  destruct (Z.ltb 0 (cmp x y)); [|apply Permutation_refl].
  eapply Permutation_trans; [apply perm_swap|]. now apply perm_skip.
Qed.

(** Sorting keeps the members. *)
Lemma js_sort_perm {A : Type} (cmp : comparator A) (l : list A) :
  Permutation l (js_sort cmp l).
Proof.
  induction l as [|x l IH]; simpl; [apply Permutation_refl|].
  eapply Permutation_trans; [|apply sort_insert_perm]. now apply perm_skip.
Qed.

Lemma obj_update_same k v o : obj_get k o = Some v -> obj_update k v o = o.
Proof.
  induction o as [|[k' v'] o IH]; simpl; auto.
  destruct (String.eqb k' k); intro H; [now inversion H | now rewrite IH].
Qed.

Lemma obj_update_rel k v v' o :
  obj_get k o = Some v -> reordered v v' ->
  Forall2 entry_rel o (obj_update k v' o).
Proof.
  intros G R. induction o as [|[k' x] o IH]; simpl in *; [constructor|].
  destruct (String.eqb k' k).
  - inversion G; subst. constructor; [now split|].
    clear. induction o; constructor; auto. split; auto using reordered_refl.
  - constructor; auto. split; auto using reordered_refl.
Qed.

Lemma entries_refl (o : obj) : Forall2 entry_rel o o.
Proof.
  induction o; constructor; auto. split; auto using reordered_refl.
Qed.

Lemma entries_trans (o1 o2 o3 : obj) :
  Forall2 entry_rel o1 o2 -> Forall2 entry_rel o2 o3 ->
  Forall2 entry_rel o1 o3.
Proof.
  apply Forall2_trans_in. apply Forall_forall.
  intros kv _ x y [E1 R1] [E2 R2].
  split; [congruence | eauto using reordered_trans].
Qed.

Lemma sort_values_perm s cmp (l l1 : list value) :
  sort_values s cmp l = Some l1 -> Permutation l l1.
Proof.
  unfold sort_values. destruct s; [|intros [= <-]; apply Permutation_refl].
  destruct cmp as [f|]; [intros [= <-]; apply js_sort_perm|].
  destruct (_ && _); [discriminate|]. intros [= <-]; apply js_sort_perm.
Qed.

Lemma sort_values_off cmp (l l1 : list value) :
  sort_values false cmp l = Some l1 -> l1 = l.
Proof. now intros [= <-]. Qed.

Section Frame.

Variables (c : composer) (rec : value -> string -> nat -> composed value).
Hypothesis Hrec : frames c rec.

Lemma compose_children_frame : forall keys indent o x o',
  compose_children rec keys indent o = Done x o' ->
  Forall2 entry_rel o o' /\ (sort c = Some false -> o' = o).
Proof.
  induction keys as [|key keys IH]; intros indent o x o' H; simpl in H.
  - inversion H; subst. split; auto using entries_refl.
  - destruct (negb (String.eqb key "_Attribs") && test re_valid_tag_name key);
      [|eauto].
    destruct (obj_get key o) as [child|] eqn:G; [|eauto].
    destruct (rec child key (indent + 1)) as [xml child'| | |] eqn:R;
      try discriminate.
    destruct (compose_children rec keys indent (obj_update key child' o))
      as [xml' o''| | |] eqn:C; try discriminate.
    inversion H; subst. apply IH in C as (F & E).
    apply Hrec in R as (R1 & R2). split.
    + eapply entries_trans; [|exact F]. eapply obj_update_rel; eauto.
    + intro S. rewrite (E S), (R2 S). now apply obj_update_same.
Qed.

Lemma compose_members_frame : forall l name indent x l',
  compose_members rec l name indent = Done x l' ->
  Forall2 reordered l l' /\ (sort c = Some false -> l' = l).
Proof.
  induction l as [|v l IH]; intros name indent x l' H; simpl in H.
  - inversion H; subst. split; auto.
  - destruct (rec v name indent) as [xml v'| | |] eqn:R; try discriminate.
    destruct (compose_members rec l name indent) as [xml' l''| | |] eqn:C;
      try discriminate.
    inversion H; subst. apply IH in C as (F & E).
    apply Hrec in R as (R1 & R2). split; [constructor; auto|].
    intro S. now rewrite (E S), (R2 S).
Qed.

Lemma compose_node_frame xml0 node name indent xml node' :
  compose_node rec c xml0 node name indent = Done xml node' ->
  match node, node' with
  | Some v, Some v' => frame c v v'
  | None, None => True
  | _, _ => False
  end.
Proof.
  unfold compose_node.
  destruct node as [v|]; [|intro H; inversion H; subst; exact I].
  assert (Same : frame c v v) by (split; auto using reordered_refl).
  destruct v as [s|o|l]; [intro H; inversion H; subst; exact Same| |].
  - (* a hash *)
    destruct (no_length (Hash o)).
    + cbn [entries].
      destruct (match match obj_get "_Attribs" o with
                      | Some a => if truthy a then Some a else None
                      | None => None
                      end with
                | Some a => _
                | None => Some EmptyString
                end) as [attrs|]; [|discriminate].
      destruct (Nat.ltb _ (num_keys o));
        [|intro H; inversion H; subst; exact Same].
      destruct (match obj_get "_Data" o with
                | Some d => if truthy d then Some d else None
                | None => None
                end) as [d|].
      * destruct (encode_value encode_entities d); [|discriminate].
        intro H; inversion H; subst; exact Same.
      * destruct (compose_children rec _ indent o) as [xml' o'| | |] eqn:C;
          try discriminate.
        intro H; inversion H; subst.
        apply compose_children_frame in C as (F & E). split.
        -- now constructor.
        -- intro S. now rewrite (E S).
    + destruct (or_default true (sort c)); discriminate.
  - (* an array *)
    destruct (no_length (Arr l)) eqn:N.
    + destruct l; [|discriminate]. cbn.
      intro H; inversion H; subst; exact Same.
    + destruct (sort_values _ _ l) as [sorted|] eqn:SV; [|discriminate].
      destruct (compose_members rec _ name indent) as [xml' l'| | |] eqn:C;
        try discriminate.
      intro H; inversion H; subst.
      apply compose_members_frame in C as (F & E). split.
      * apply R_arr with (l1 := sorted); eauto using sort_values_perm.
      * intro S. rewrite S in SV. apply sort_values_off in SV.
        rewrite (E S), SV. reflexivity.
Qed.

End Frame.

Lemma frame_refl c v : frame c v v.
Proof. split; auto using reordered_refl. Qed.

Lemma Forall2_reordered_refl (l : list value) : Forall2 reordered l l.
Proof. induction l; constructor; auto using reordered_refl. Qed.

(** What compose_xml leaves of its node. *)
Lemma compose_xml_frame (c : composer) : forall fuel node name indent xml node',
  compose_xml fuel c node name indent = Done xml node' -> frame c node node'.
Proof.
  induction fuel as [|fuel IH]; intros node name indent xml node' H;
    [discriminate|].
  assert (Hrec : frames c (compose_xml fuel c))
    by (intros v n i x v' R; eapply IH; eauto).
  cbn [compose_xml] in H.
  assert (Direct : forall xml0 i,
            match compose_node (compose_xml fuel c) c xml0 (Some node) name i
            with
            | Done xml (Some node') => Done xml node'
            | Done xml None => Done xml node
            | TypeError => TypeError
            | Unmodelled => Unmodelled
            | NoFuel => NoFuel
            end = Done xml node' -> frame c node node').
  { intros xml0 i D.
    destruct (compose_node _ c xml0 (Some node) name i) as [x [v|]| | |] eqn:E;
      try discriminate; inversion D; subst;
      apply (compose_node_frame c _ Hrec) in E; [exact E | contradiction]. }
  destruct indent as [|indent]; [|eapply Direct; eauto].
  destruct name as [|a name]; [|eapply Direct; eauto].
  destruct (compose_node _ c _ _ _ 0) as [x [inner'|]| | |] eqn:E;
    try discriminate; inversion H; subst; clear H;
    apply (compose_node_frame c _ Hrec) in E; [|apply frame_refl].
  destruct node as [s|o|l].
  - destruct (first_key (entries (Str s))); apply frame_refl.
  - cbn [entries] in *. destruct o as [|[k v0] o]; [contradiction|].
    cbn [first_key obj_get] in *. rewrite String.eqb_refl in E.
    destruct E as (R & S). cbn [obj_update]. rewrite String.eqb_refl.
    split.
    + constructor. constructor; [now split | apply entries_refl].
    + intro F. now rewrite (S F).
  - destruct l as [|v0 l]; [contradiction|].
    change (entries (Arr (v0 :: l)))
      with (("0", v0) :: combine (map (fun i => NilZero.string_of_uint
                                                 (Nat.to_uint i))
                                    (seq 1 (List.length l))) l) in *.
    cbn [first_key obj_get] in *. rewrite String.eqb_refl in E.
    destruct E as (R & S). split.
    + apply R_arr with (l1 := v0 :: l); [apply Permutation_refl|].
      constructor; auto using Forall2_reordered_refl.
    + intro F. now rewrite (S F).
Qed.

(** ** The rounds given to the loops of the model are enough *)

Section RunExt.

Variable t : string.

Lemma rep_loop_ext body greedy :
  (forall k1 k2 s, state_of t s ->
     (forall s', state_of t s' -> pos s <= pos s' -> k1 s' = k2 s') ->
     body k1 s = body k2 s) ->
  forall n k1 k2 s, state_of t s ->
    (forall s', state_of t s' -> pos s <= pos s' -> k1 s' = k2 s') ->
    rep_loop body greedy k1 n s = rep_loop body greedy k2 n s.
Proof.
  intros Hbody n; induction n as [|n IH]; intros k1 k2 s W H; simpl.
  - apply H; auto.
  - rewrite (H s W (Nat.le_refl _)).
    rewrite (Hbody _ (fun s' => if Nat.eqb (pos s') (pos s) then None
                                else rep_loop body greedy k2 n s') s W).
    + reflexivity.
    + intros s' W' L. destruct (Nat.eqb (pos s') (pos s)); auto.
      apply IH; auto. intros s2 W2 L2. apply H; auto. lia.
Qed.

(** The matcher looks at its continuation only on states of the text
    that are not before the current one. *)
Lemma run_ext r : forall k1 k2 s, state_of t s ->
  (forall s', state_of t s' -> pos s <= pos s' -> k1 s' = k2 s') ->
  run r k1 s = run r k2 s.
Proof.
  induction r as [|c|p|r1 IH1 r2 IH2|r1 IH1 r2 IH2|g r1 IH1|n r1 IH1|n| |];
    intros k1 k2 s W H; simpl; auto.
  - destruct (rest s) as [|a r] eqn:E; auto.
    destruct (Ascii.eqb a c); auto.
    apply H; [eauto using state_of_step | simpl; lia].
  - destruct (rest s) as [|a r] eqn:E; auto.
    destruct (p a); auto.
    apply H; [eauto using state_of_step | simpl; lia].
  - apply IH1; auto. intros s1 W1 L1. apply IH2; auto.
    intros s2 W2 L2. apply H; auto. lia.
  - rewrite (IH1 k1 k2 s), (IH2 k1 k2 s); auto.
  - apply rep_loop_ext; auto.
  - apply IH1; auto. intros s1 W1 L1. apply H; simpl; auto.
    destruct W1 as (R1 & B1 & C1). destruct W as (R & B & C).
    repeat split; simpl; auto. constructor; auto. simpl.
    rewrite R. apply substr_take_drop.
  - unfold cap. destruct (cap_lookup n (caps s)) as [w|] eqn:E; auto.
    destruct (starts_with w (rest s)) eqn:F; auto.
    apply H; simpl; [|lia].
    destruct W as (R & B & C). apply starts_with_append in F.
    assert (String.length w <= String.length (rest s))
      by (rewrite F, length_append; lia).
    rewrite R, length_drop in H0.
    repeat split; simpl; auto; [|lia].
    rewrite R. apply drop_drop.
  - destruct (Nat.eqb (pos s) 0); auto.
  - destruct (rest s); auto.
Qed.

(** At the end of the text a star cannot go round again. *)
Lemma rep_loop_end r greedy k n s :
  state_of t s -> rest s = EmptyString ->
  rep_loop (run r) greedy k n s = k s.
Proof.
  intros W E. destruct n as [|n]; [reflexivity|]. simpl.
  assert (A : run r (fun s' => if Nat.eqb (pos s') (pos s) then None
                               else rep_loop (run r) greedy k n s') s = None).
  { destruct (run r _ s) as [res|] eqn:R; [|reflexivity].
    apply run_inv with (t := t) in R; auto.
    destruct R as (s' & W' & P & _ & K).
    assert (pos s' = pos s).
    { destruct W as (R & B & _), W' as (_ & B' & _).
      apply (f_equal String.length) in R. rewrite E, length_drop in R.
      simpl in R. lia. }
    apply Nat.eqb_eq in H. rewrite H in K. discriminate. }
  rewrite A. destruct greedy; [reflexivity | now destruct (k s)].
Qed.

(** A star gives the same result with any number of rounds that is at
    least the length of the text that is left. *)
Lemma rep_loop_fuel r greedy k : forall m n s,
  state_of t s -> String.length (rest s) <= m -> m <= n ->
  rep_loop (run r) greedy k n s = rep_loop (run r) greedy k m s.
Proof.
  induction m as [|m IH]; intros n s W L N.
  - destruct (rest s) eqn:E; [|simpl in L; lia].
    now rewrite !rep_loop_end.
  - destruct n as [|n]; [lia|]. simpl.
    rewrite (run_ext r
               (fun s' => if Nat.eqb (pos s') (pos s) then None
                          else rep_loop (run r) greedy k n s')
               (fun s' => if Nat.eqb (pos s') (pos s) then None
                          else rep_loop (run r) greedy k m s') s W);
      [reflexivity|].
    intros s' W' P. destruct (Nat.eqb_spec (pos s') (pos s)); auto.
    apply IH; auto; [|lia].
    destruct W as (R & B & _), W' as (R' & B' & _).
    rewrite R, length_drop in L. rewrite R', length_drop. lia.
Qed.

End RunExt.

Lemma min_len_patAttrib : min_len patAttrib = 3.
Proof. reflexivity. Qed.

(** The attribute loop gives the same result with any number of rounds
    above the number of characters left. *)
Lemma parse_attribs_fuel o raw : forall fuel fuel' i attribs,
  String.length raw - i < fuel -> String.length raw - i < fuel' ->
  parse_attribs fuel o raw i attribs = parse_attribs fuel' o raw i attribs.
Proof.
  induction fuel as [|fuel IH]; intros fuel' i attribs F F'; [lia|].
  destruct fuel' as [|fuel']; [lia|]. simpl.
  destruct (exec patAttrib raw i) as [[st m]|] eqn:E; [|reflexivity].
  apply exec_pos in E. rewrite min_len_patAttrib in E.
  apply IH; lia.
Qed.

Lemma height_all_perm (l l' : list value) :
  Permutation l l' -> height_all l = height_all l'.
Proof. induction 1; simpl in *; lia. Qed.

Lemma height_all_bound (l : list value) (n : nat) :
  height_all l < n <-> Forall (fun v => height v < n) l /\ 0 < n.
Proof.
  induction l as [|x l IH]; simpl.
  - split; [intro; split; [constructor | lia] | intros [_ H]; exact H].
  - split.
    + intro H. assert (height_all l < n) by lia.
      apply IH in H0 as [F Z]. split; [constructor; auto; lia | auto].
    + intros [F Z]. inversion F; subst.
      assert (height_all l < n) by (apply IH; auto). lia.
Qed.

Lemma height_values_bound (o : obj) (n : nat) :
  height_values o < n <-> all_values (fun v => height v < n) o /\ 0 < n.
Proof.
  unfold all_values. induction o as [|kv o IH]; simpl.
  - split; [intro; split; [constructor | lia] | intros [_ H]; exact H].
  - split.
    + intro H. assert (height_values o < n) by lia.
      apply IH in H0 as [F Z]. split; [constructor; auto; lia | auto].
    + intros [F Z]. inversion F; subst.
      assert (height_values o < n) by (apply IH; auto). lia.
Qed.

Lemma height_values_rel (o o' : obj) :
  Forall2 (fun kv kv' => fst kv = fst kv' /\ reordered (snd kv) (snd kv'))
    o o' ->
  Forall (fun kv => forall v', reordered (snd kv) v' ->
                               height v' = height (snd kv)) o ->
  height_values o' = height_values o.
Proof.
  induction 1 as [|kv kv' o o' [E1 R1] F IHF]; intro A; [reflexivity|].
  inversion A; subst. simpl. rewrite IHF by auto. now rewrite (H1 _ R1).
Qed.

Lemma height_all_rel (l l' : list value) :
  Forall2 reordered l l' ->
  Forall (fun x => forall v', reordered x v' -> height v' = height x) l ->
  height_all l' = height_all l.
Proof.
  induction 1 as [|x x' l l' R1 F IHF]; intro A; [reflexivity|].
  inversion A; subst. simpl. rewrite IHF by auto. now rewrite (H1 _ R1).
Qed.

(** Reordering arrays keeps the height. *)
Lemma reordered_height (v : value) : forall v',
  reordered v v' -> height v' = height v.
Proof.
  induction v as [s|o IH|l IH] using value_ind'; intros v' R;
    inversion R; subst; auto.
  - cbn [height]. f_equal. now apply height_values_rel.
  - cbn [height]. f_equal. fold (height_all l) (height_all l').
    match goal with P : Permutation l ?m |- _ =>
      rewrite (height_all_perm _ _ P); apply height_all_rel; auto;
      apply Forall_forall; intros x Hx; rewrite Forall_forall in IH;
      apply IH; eapply Permutation_in;
      [apply Permutation_sym; exact P | exact Hx]
    end.
Qed.

Lemma all_values_update (P : value -> Prop) k v o :
  all_values P o -> P v -> all_values P (obj_update k v o).
Proof.
  intros F Hv. induction F as [|[k' v'] o H F IH]; simpl; [constructor|].
  destruct (String.eqb k' k); constructor; auto.
Qed.

Section Total.

Variables (c : composer) (rec : value -> string -> nat -> composed value)
  (fuel : nat).
Hypothesis Hrec : frames c rec.
Hypothesis Hfuel : forall v n i, height v < fuel -> rec v n i <> NoFuel.

Lemma compose_children_total : forall keys indent o,
  all_values (fun v => height v < fuel) o ->
  compose_children rec keys indent o <> NoFuel.
Proof.
  induction keys as [|key keys IH]; intros indent o A; simpl;
    [discriminate|].
  destruct (negb (String.eqb key "_Attribs") && test re_valid_tag_name key);
    auto.
  destruct (obj_get key o) as [child|] eqn:G; auto.
  pose proof (all_values_get _ _ _ _ A G) as Hc. cbv beta in Hc.
  destruct (rec child key (indent + 1)) as [xml child'| | |] eqn:R;
    try discriminate; [|now apply Hfuel in R].
  apply Hrec in R as (R1 & _). apply reordered_height in R1.
  specialize (IH indent (obj_update key child' o)).
  destruct (compose_children rec keys indent _); try discriminate.
  apply IH. apply all_values_update; auto. cbv beta. lia.
Qed.

Lemma compose_members_total : forall l name indent,
  Forall (fun v => height v < fuel) l ->
  compose_members rec l name indent <> NoFuel.
Proof.
  induction l as [|v l IH]; intros name indent F; simpl; [discriminate|].
  inversion F; subst.
  destruct (rec v name indent) as [xml v'| | |] eqn:R;
    try discriminate; [|now apply Hfuel in R].
  specialize (IH name indent H2).
  destruct (compose_members rec l name indent); try discriminate. auto.
Qed.

Lemma compose_node_total xml node name indent :
  (forall v, node = Some v -> height v <= fuel) ->
  compose_node rec c xml node name indent <> NoFuel.
Proof.
  intro H. unfold compose_node.
  destruct node as [v|]; [|discriminate].
  specialize (H v eq_refl).
  destruct v as [s|o|l]; [discriminate| |].
  - destruct (no_length (Hash o));
      [|destruct (or_default true (sort c)); discriminate].
    cbn [entries].
    destruct (match match obj_get "_Attribs" o with
                    | Some a => if truthy a then Some a else None
                    | None => None
                    end with
              | Some a => _
              | None => Some EmptyString
              end) as [attrs|]; [|discriminate].
    destruct (Nat.ltb _ (num_keys o)); [|discriminate].
    destruct (match obj_get "_Data" o with
              | Some d => if truthy d then Some d else None
              | None => None
              end) as [d|].
    + destruct (encode_value encode_entities d); discriminate.
    + pose proof (compose_children_total
                    (sort_keys (or_default true (sort c))
                       (tag_sorter_by_name c) (hash_keys_to_array (Hash o)))
                    indent o) as T.
      destruct (compose_children rec _ indent o); try discriminate.
      intros _. apply T; [|reflexivity].
      cbn [height] in H. fold (height_values o) in H.
      apply height_values_bound. lia.
  - destruct (no_length (Arr l)) eqn:N.
    + destruct l; [|discriminate]. cbn. discriminate.
    + destruct (sort_values _ _ l) as [sorted|] eqn:SV; [|discriminate].
      pose proof (compose_members_total sorted name indent) as T.
      destruct (compose_members rec _ name indent); try discriminate.
      intros _. apply T; [|reflexivity].
      cbn [height] in H. fold (height_all l) in H.
      eapply Permutation_Forall; [exact (sort_values_perm _ _ _ _ SV)|].
      apply height_all_bound. lia.
Qed.

End Total.

Lemma height_get k o v : obj_get k o = Some v -> height v < height (Hash o).
Proof.
  intro G. cbn [height]. fold (height_values o).
  assert (A : all_values (fun x => height x < S (height_values o)) o)
    by (apply height_values_bound; lia).
  exact (all_values_get _ _ _ _ A G).
Qed.

Lemma height_values_combine (ks : list string) (l : list value) :
  height_values (combine ks l) <= height_all l.
Proof.
  revert ks. induction l as [|x l IH]; intros [|i ks]; simpl; try lia.
  specialize (IH ks). lia.
Qed.

Lemma strs_height (ks l : list string) :
  all_values (fun x => height x < 1) (combine ks (map Str l)).
Proof.
  unfold all_values. revert ks.
  induction l as [|x l IH]; intros [|i ks]; simpl; constructor; auto.
Qed.

(** compose_xml does not run out of fuel when given more rounds than
    the height of the node. *)
Lemma compose_xml_total (c : composer) : forall fuel node name indent,
  height node < fuel -> compose_xml fuel c node name indent <> NoFuel.
Proof.
  induction fuel as [|fuel IH]; intros node name indent H; [lia|].
  assert (Hrec : frames c (compose_xml fuel c))
    by (intros v n i x v' R; eapply compose_xml_frame; eauto).
  assert (Hfuel : forall v n i, height v < fuel ->
                                compose_xml fuel c v n i <> NoFuel)
    by (intros; now apply IH).
  assert (Direct : forall xml0 i,
            match compose_node (compose_xml fuel c) c xml0 (Some node) name i
            with
            | Done xml (Some node') => Done xml node'
            | Done xml None => Done xml node
            | TypeError => TypeError
            | Unmodelled => Unmodelled
            | NoFuel => NoFuel
            end <> NoFuel).
  { intros xml0 i.
    pose proof (compose_node_total c _ fuel Hrec Hfuel xml0 (Some node)
                  name i) as T.
    destruct (compose_node _ c xml0 (Some node) name i) as [x [v|]| | |];
      try discriminate.
    intros _. apply T; [|reflexivity].
    intros v E. inversion E; subst. lia. }
  cbn [compose_xml].
  destruct indent as [|indent]; [|apply Direct].
  destruct name as [|a name]; [|apply Direct].
  match goal with
  | |- context [compose_node ?r c ?x ?inner ?n 0] =>
      pose proof (compose_node_total c _ fuel Hrec Hfuel x inner n 0) as T;
      destruct (compose_node r c x inner n 0) as [y [v|]| | |] eqn:E;
      try discriminate
  end.
  intros _. apply T; [|reflexivity]. intros v E'.
  destruct (first_key (entries node)) as [k|]; [|discriminate].
  assert (height v <= height node); [|lia].
  destruct node as [s|o|l].
  - cbn [entries] in E'.
    pose proof (all_values_get _ _ _ _ (strs_height _ _) E') as S.
    cbv beta in S. simpl. lia.
  - cbn [entries] in E'. apply height_get in E'. lia.
  - cbn [entries] in E'.
    apply (height_get k (combine (index_keys (List.length l)) l)) in E'.
    cbn [height] in *. fold (height_all l).
    fold (height_values (combine (index_keys (List.length l)) l)) in E'.
    pose proof (height_values_combine (index_keys (List.length l)) l).
    lia.
Qed.

(** stringify always gives a text or fails with a TypeError (or leaves
    the model): the fuel that it gives to compose_xml is enough. *)
Lemma stringify_total (c : composer) (node : value) (name : string) :
  stringify c node name <> NoFuel.
Proof. apply compose_xml_total. lia. Qed.


(** ** What the sort leaves, and a call on an array *)

Lemma ascii_compare_lt_trans (a b c : ascii) :
  Ascii.compare a b = Lt -> Ascii.compare b c = Lt -> Ascii.compare a c = Lt.
Proof. unfold Ascii.compare. rewrite !N.compare_lt_iff. lia. Qed.

Lemma ascii_compare_refl (a : ascii) : Ascii.compare a a = Eq.
Proof. unfold Ascii.compare. apply N.compare_refl. Qed.

Lemma string_compare_le_trans : forall a b c : string,
  String.compare a b <> Gt -> String.compare b c <> Gt ->
  String.compare a c <> Gt.
Proof.
  induction a as [|x a IH]; intros [|y b] [|z c]; cbn [String.compare];
    try congruence.
  destruct (Ascii.compare x y) eqn:XY; try congruence;
    destruct (Ascii.compare y z) eqn:YZ; try congruence; intros H1 H2.
  - apply Ascii.compare_eq_iff in XY, YZ. subst y z.
    rewrite ascii_compare_refl. eauto.
  - apply Ascii.compare_eq_iff in XY. subst y. now rewrite YZ.
  - apply Ascii.compare_eq_iff in YZ. subst z. now rewrite XY.
  - now rewrite (ascii_compare_lt_trans _ _ _ XY YZ).
Qed.

(** The order of strings by code units, which sort uses by default,
    orders. *)
Lemma default_compare_consistent {A : Type} (f : A -> string) :
  consistent (fun a b => default_compare (f a) (f b)).
Proof.
  unfold default_compare. split.
  - intros a b. rewrite (String.compare_antisym (f a) (f b)).
    destruct (String.compare (f b) (f a)); simpl; lia.
  - intros a b c H1 H2.
    pose proof (string_compare_le_trans (f a) (f b) (f c)) as T.
    destruct (String.compare (f a) (f b)); try lia;
      destruct (String.compare (f b) (f c)); try lia;
      destruct (String.compare (f a) (f c)); try lia;
      exfalso; apply T; congruence.
Qed.

Lemma sort_insert_in_order {A : Type} (cmp : comparator A) (x : A) :
  consistent cmp ->
  forall l, in_order cmp l -> in_order cmp (sort_insert cmp x l).
Proof.
  intros (Asym & Trans). induction l as [|y l IH]; intro H.
  - cbn. auto.
  - destruct H as (H1 & H2). cbn [sort_insert].
    destruct (Z.ltb 0 (cmp x y)) eqn:E.
    + apply Z.ltb_lt, Asym in E. cbn [in_order]. split; [|auto].
      eapply Permutation_Forall; [apply sort_insert_perm|].
      constructor; [lia | exact H1].
    + apply Z.ltb_ge in E. cbn [in_order]. repeat split; auto.
      constructor; [exact E|].
      eapply Forall_impl; [|exact H1]. intros z Hz. eauto.
Qed.

(** The sort puts the members in the order of a comparator that
    orders. *)
Lemma js_sort_in_order {A : Type} (cmp : comparator A) (l : list A) :
  consistent cmp -> in_order cmp (js_sort cmp l).
Proof.
  intro C. induction l as [|x l IH]; [exact I|].
  cbn [js_sort fold_right]. now apply sort_insert_in_order.
Qed.

(** A call on an array with members sorts it, then composes the members
    in that order. *)
Lemma compose_xml_array c fuel l name indent xml node' :
  l <> [] -> name <> EmptyString \/ indent <> 0 ->
  compose_xml (S fuel) c (Arr l) name indent = Done xml node' ->
  exists l1 xml' l',
    sort_values (or_default true (sort c)) (tag_sorter_with_same_name c) l
    = Some l1 /\
    compose_members (compose_xml fuel c) l1 name indent = Done xml' l' /\
    node' = Arr l' /\ Forall2 reordered l1 l'.
Proof.
  intros N I. cbn [compose_xml].
  assert (Hrec : frames c (compose_xml fuel c))
    by (intros v n i x v' R; eapply compose_xml_frame; eauto).
  assert (Direct : forall xml0,
            match compose_node (compose_xml fuel c) c xml0 (Some (Arr l))
                    name indent
            with
            | Done xml (Some node') => Done xml node'
            | Done xml None => Done xml (Arr l)
            | TypeError => TypeError
            | Unmodelled => Unmodelled
            | NoFuel => NoFuel
            end = Done xml node' ->
            exists l1 xml' l',
              sort_values (or_default true (sort c))
                (tag_sorter_with_same_name c) l = Some l1 /\
              compose_members (compose_xml fuel c) l1 name indent
              = Done xml' l' /\
              node' = Arr l' /\ Forall2 reordered l1 l').
  { intros xml0. unfold compose_node.
    destruct l as [|x l]; [congruence|]. cbn [no_length List.length Nat.eqb].
    destruct (sort_values _ _ (x :: l)) as [l1|]; [|discriminate].
    destruct (compose_members _ l1 name indent) as [xml' l'| | |] eqn:C;
      try discriminate.
    intros [= _ <-]. exists l1, xml', l'. repeat split; auto.
    now apply (compose_members_frame c _ Hrec) in C. }
  destruct indent as [|indent]; [|apply Direct].
  destruct name as [|a name]; [|apply Direct].
  destruct I; congruence.
Qed.

(** A loop below the root that reads a tag and returns without its
    closing tag went on, with the scan position after that tag, as a
    loop that returns without it. *)
Lemma parse_loop_goes_on fuel name branch p b q st m :
  exec patTag (text p) (lastIndex p) = Some (st, m) ->
  parse_loop (S fuel) false name branch p = Ok (b, false) q ->
  exists b2 p2,
    exec patTag (text p) (lastIndex p) = Some (st, m) /\
    text p2 = text p /\ pos m <= lastIndex p2 /\
    parse_loop fuel false name b2 p2 = Ok (b, false) q.
Proof.
  intros E. cbn [parse_loop]. rewrite E.
  set (p1 := set_lastIndex (pos m) p).
  pose proof (text_step p1 (group 1 m) branch) as TS.
  destruct (if test (Cls non_ws) (group 1 m) then _ else _)
    as [b1 p1'| |]; cbn [bind]; try discriminate.
  destruct TS as (-> & _).
  assert (Special : forall r : result string,
            step_ok p1 r ->
            bind r (fun _ q' => parse_loop fuel false name b1 q')
            = Ok (b, false) q ->
            exists b2 p2,
              Some (st, m) = Some (st, m) /\
              text p2 = text p /\ pos m <= lastIndex p2 /\
              parse_loop fuel false name b2 p2 = Ok (b, false) q).
  { intros r S H. destruct r as [a p2| |]; try discriminate.
    cbn [bind] in H. destruct S as ((_ & T & _) & L & _).
    exists b1, p2. repeat split; auto. }
  destruct (test patSpecialTag (group 2 m)).
  - destruct (test patPITag (group 2 m));
      [apply Special, parsePINode_ok|].
    destruct (test patCommentTag (group 2 m));
      [apply Special, parseCommentNode_ok|].
    destruct (test patDTDTag (group 2 m));
      [apply Special, parseDTDNode_ok|].
    destruct (test patCDATATag (group 2 m)).
    + pose proof (parseCDATANode_ok (group 2 m) p1) as S.
      destruct (parseCDATANode (group 2 m) p1) as [a p2| |];
        try discriminate.
      cbn [bind]. destruct S as ((_ & T & _) & L & _).
      destruct (append_data p2 a b1) as [b2 p2'| |] eqn:A; cbn [bind];
        try discriminate.
      pose proof (append_data_same _ _ _ _ _ A). subst p2'. intro H.
      exists b2, p2. repeat split; auto.
    + rewrite throwParseError_eq. discriminate.
  - destruct (matches patStandardTag (group 2 m)) as [ms|] eqn:M;
      [|rewrite throwParseError_eq; discriminate].
    pose proof (node_name_truthy (lowerCase (opts p1)) _ _ M) as NT.
    destruct (String.eqb (group 1 ms) EmptyString); cbn [negb].
    2: { destruct (String.eqb _ (match name with Some n => n | None => _ end));
           [discriminate | rewrite throwParseError_eq; discriminate]. }
    destruct (test patSelfClosing (group 3 ms)).
    + cbn [bind]. destruct (add_leaf p1 false _ _ b1) as [b2|];
        [|discriminate].
      intro H. exists b2, p1. repeat split; auto.
    + set (nodeName := if lowerCase (opts p1) then toLowerCase (group 2 ms)
                       else group 2 ms) in *.
      pose proof (finish_nested_ok False p1 nodeName _ NT
                    (parse_loop_gen_ok False fuel false (Some nodeName)
                       (new_leaf p1 (group 3 ms)) p1
                       ltac:(intros [])))
        as F.
      destruct (finish false _ _) as [leaf p2| |]; try discriminate.
      cbn [bind]. destruct F as ((_ & T & _) & L & _).
      destruct (add_leaf p2 false _ _ b1) as [b2|]; [|discriminate].
      intro H. exists b2, p2. repeat split; auto.
      change (lastIndex p1) with (pos m) in L. lia.
Qed.

(** ** The claims *)

(** C1, amended.  For every text and options, parse_xml never returns a
    formatted error string: when it returns, it returns the finished
    tree, and no error was recorded.  When it throws an Error, reading
    the file that the text names failed, or the message is the formatted
    text of the one parse error recorded: the first structural problem
    ends the whole parse by a throw, as every call of throwParseError
    does.  The loops of the parser always end.  An Error is not all
    that parse_xml throws: text added to a slot that holds a hash with a
    key toString throws a TypeError (and a document nested deeper than
    the call stack allows is outside the model, see [outcome]). *)
Theorem parse_xml_returns_tree_or_throws
  (fs : string -> option string) (txt : string) (o : options) :
  (forall v, parse_xml fs txt o = Returned v ->
     exists p, XML_new fs o txt = Ok tt p /\ errors p = [] /\ v = tree p) /\
  (forall m, parse_xml fs txt o = Thrown (Error m) ->
     load fs txt = inr (Error m) \/
     exists err p,
       XML_new fs o txt = Throw (Error m) p /\ errors p = [err] /\
       err_type err = "Parse" /\ m = getError err) /\
  parse_xml fs txt o <> Diverged /\
  (forall key tag p,
     throwParseError key tag p
     = Throw (A := unit) (Error (getError (parse_error key tag p)))
         (push_error (parse_error key tag p) p)) /\
  parse_xml no_files "<a><_Data toString='x'/>t</a>" default_options
  = Thrown JsTypeError.
Proof.
  unfold parse_xml. pose proof (XML_new_ok fs o txt) as H.
  split; [|split; [|split; [|split; [|vm_compute; reflexivity]]]].
  - intros v. destruct (XML_new fs o txt) as [[] p|e p|];
      [|destruct e; discriminate|discriminate].
    destruct H as (t & _ & _ & E & _). unfold error_count. rewrite E. simpl.
    intros [= <-]. exists p. auto.
  - intros m. destruct (XML_new fs o txt) as [[] p|e p|];
      [destruct (Nat.eqb _ 0); discriminate| |discriminate].
    destruct e; try discriminate. intros [= ->].
    destruct H as [[L _] | [(t & err & k & _ & E & Em & T & _)
                           | (t & _ & [C | C] & _)]];
      try discriminate; [now left|].
    right. exists err, p. inversion Em. auto.
  - destruct (XML_new fs o txt) as [[] p|e p|];
      [destruct (Nat.eqb _ 0); discriminate
      |destruct e; discriminate|contradiction].
  - intros key tag p. apply throwParseError_eq.
Qed.

(** The text of one element is returned as its tree, with no error
    recorded. *)
Lemma parse_xml_returns_tree_or_throws_witness :
  exists p, XML_new no_files default_options "<A>x</A>" = Ok tt p /\
            errors p = [] /\ Str "x" = tree p.
Proof.
  apply (proj1 (parse_xml_returns_tree_or_throws no_files "<A>x</A>"
                  default_options) (Str "x")).
  vm_compute. reflexivity.
Defined.

(** C1 as stated fails: a mismatched closing tag makes parse_xml throw;
    nothing is returned. *)
Lemma parse_xml_throws_on_mismatch :
  parse_xml no_files "<A><B></A>" default_options =
  Thrown (Error
    "Parse Error: Mismatched closing tag (expected </B>) on line 1: </A>").
Proof. vm_compute. reflexivity. Qed.

(** C2, amended.  Composing with sorting off leaves the tree as it was.
    With sorting on, which is the default, a call that returns leaves
    the tree as it was up to the order of the members of its arrays:
    strings are unchanged and hashes keep their keys, in their order.
    With comparators that order, every call on an array that is not
    empty and has a name first sorts the array in place -- by the
    comparator for elements of the same name, or as strings when there
    is none -- and then composes its members in that order, and the
    array is left in that order.  What the sort leaves is in the order
    of the comparator: no member stands after one that the comparator
    puts after it. *)
Theorem compose_reorders_arrays_only (c : composer) :
  (forall fuel node name indent xml node',
     compose_xml fuel c node name indent = Done xml node' ->
     reordered node node' /\ (sort c = Some false -> node' = node)) /\
  (forall fuel l name indent xml node',
     orders c -> l <> [] -> name <> EmptyString \/ indent <> 0 ->
     compose_xml (S fuel) c (Arr l) name indent = Done xml node' ->
     exists l1 xml' l',
       sort_values (or_default true (sort c)) (tag_sorter_with_same_name c) l
       = Some l1 /\
       compose_members (compose_xml fuel c) l1 name indent = Done xml' l' /\
       node' = Arr l' /\ Forall2 reordered l1 l') /\
  (forall (cmp : comparator value) (l : list value),
     consistent cmp ->
     sort_values true (Some cmp) l = Some (js_sort cmp l) /\
     in_order cmp (js_sort cmp l) /\ Permutation l (js_sort cmp l)) /\
  (forall (l l1 : list value),
     sort_values true None l = Some l1 ->
     in_order (fun a b => default_compare (str_of a) (str_of b)) l1 /\
     Permutation l l1).
Proof.
  split; [|split; [|split]].
  - intros fuel node name indent xml node'. apply compose_xml_frame.
  - intros fuel l name indent xml node' _ N I H.
    eapply compose_xml_array; eauto.
  - intros cmp l A. split; [reflexivity|].
    split; [now apply js_sort_in_order | apply js_sort_perm].
  - intros l l1 H. split; [|eauto using sort_values_perm].
    unfold sort_values in H. destruct (_ && _); [discriminate|].
    injection H as <-. apply js_sort_in_order.
    apply default_compare_consistent.
Qed.

(** With sorting off, a tree whose array is out of order is written in
    the order it has and is left as it was. *)
Lemma compose_reorders_arrays_only_witness :
  reordered (Hash [("I", Arr [Str "b"; Str "a"])])
    (Hash [("I", Arr [Str "b"; Str "a"])]) /\
  (Some false = Some false ->
   Hash [("I", Arr [Str "b"; Str "a"])]
   = Hash [("I", Arr [Str "b"; Str "a"])]).
Proof.
  apply (proj1 (compose_reorders_arrays_only
                  (Composer None None (Some false) None None None))
           3 (Hash [("I", Arr [Str "b"; Str "a"])]) "R" 0
           (xml_header ++ nl ++ "<R>" ++ nl ++ tab ++ "<I>b</I>" ++ nl ++ tab
              ++ "<I>a</I>" ++ nl ++ "</R>" ++ nl)
           (Hash [("I", Arr [Str "b"; Str "a"])])).
  vm_compute; reflexivity.
Defined.

(** C2 as stated fails: with the default options, composing a tree whose
    array is not in order leaves the array sorted. *)
Lemma compose_sorts_the_tree :
  stringify default_composer (Hash [("I", Arr [Str "b"; Str "a"])]) "R"
  = Done (xml_header ++ nl ++ "<R>" ++ nl ++ tab ++ "<I>a</I>" ++ nl ++ tab
            ++ "<I>b</I>" ++ nl ++ "</R>" ++ nl)
      (Hash [("I", Arr [Str "a"; Str "b"])]).
Proof. vm_compute. reflexivity. Qed.

(** C3, on the code.  The document of the specification survives parsing,
    composing and parsing again.  A document whose text holds an escaped
    opening bracket does not: the text is compressed to a plain string,
    which compose_xml writes without encoding it (line 574), while it
    encodes the text of an element with attributes (line 541); the text
    written back is not the document, and parsing it again throws. *)
Theorem round_trip_loses_escaping :
  (let doc := "<?xml version=" ++ quoted "1.0" ++ "?><Doc><Item id="
                ++ quoted "1" ++ ">Hello</Item></Doc>" in
   let tree := Hash [("Item", Hash [("_Attribs", Hash [("id", Str "1")]);
                                    ("_Data", Str "Hello")])] in
   let xml := xml_header ++ nl ++ "<Doc>" ++ nl ++ tab ++ "<Item id="
                ++ quoted "1" ++ ">Hello</Item>" ++ nl ++ "</Doc>" ++ nl in
   parse_xml no_files doc preserving = Returned tree /\
   stringify default_composer tree "Doc" = Done xml tree /\
   parse_xml no_files xml preserving = Returned tree) /\
  (let doc := "<D k='v'><I>a&lt;b</I></D>" in
   let tree := Hash [("_Attribs", Hash [("k", Str "v")]); ("I", Str "a<b")] in
   let xml := xml_header ++ nl ++ "<D k=" ++ quoted "v" ++ ">" ++ nl ++ tab
                ++ "<I>a<b</I>" ++ nl ++ "</D>" ++ nl in
   parse_xml no_files doc preserving = Returned tree /\
   stringify default_composer tree "D" = Done xml tree /\
   parse_xml no_files xml preserving =
   Thrown (Error
     "Parse Error: Mismatched closing tag (expected </b>) on line 4: </D>")).
Proof. repeat split; vm_compute; reflexivity. Qed.

(** C4.  For every string s, decode_entities (encode_entities s) is s;
    in particular for every s built from ordinary characters and the
    five characters that have an entity, whether or not s holds the text
    of an entity. *)
Theorem decode_encode_entities (s : string) :
  decode_entities (encode_entities s) = s.
Proof.
  rewrite decode_entities_all, encode_expand. apply decode_all_expand.
Qed.

(** C5, amended.  In every tree returned for a text in which no tag
    that the parser reads opens an element named as the text key, no
    array has an array as a direct member.  The first duplicate of a name turns the value
    already there and the new one into an array of two; later duplicates
    are appended to that array.  So <R><I>1</I><I>2</I></R> gives I as
    the array of "1" and "2". *)
Theorem sequences_stay_flat :
  (forall fs txt o t v,
     load fs txt = inl t -> key_free (new_parser o t) = true ->
     parse_xml fs txt o = Returned v -> flat v = true) /\
  (forall p top n leaf b temp,
     obj_get n b = Some temp -> is_arr temp = false ->
     add_leaf p top n leaf b = Some (obj_set n (Arr [temp; leaf]) b) /\
     obj_get n (obj_set n (Arr [temp; leaf]) b) = Some (Arr [temp; leaf])) /\
  (forall p top n leaf b l,
     obj_get n b = Some (Arr l) ->
     add_leaf p top n leaf b = Some (obj_set n (Arr (l ++ [leaf])) b) /\
     obj_get n (obj_set n (Arr (l ++ [leaf])) b) = Some (Arr (l ++ [leaf]))) /\
  parse_xml no_files "<R><I>1</I><I>2</I></R>" default_options
  = Returned (Hash [("I", Arr [Str "1"; Str "2"])]).
Proof.
  split; [|split; [|split; [|vm_compute; reflexivity]]].
  - intros fs txt o t v L KF. unfold parse_xml, XML_new. rewrite L.
    destruct t as [|c t]; [intro H; inversion H; reflexivity|].
    destruct (keys_beyond (effective o)); [discriminate|].
    destruct (parse _ true None [] _) as [tr q|e q|] eqn:E; cbn [bind];
      [|destruct e; discriminate|discriminate].
    destruct (Nat.eqb (error_count q) 0); intro H; inversion H; subst;
      [|reflexivity].
    eapply (parse_top_flat (new_parser o (String c t))); eauto.
  - intros p top n leaf b temp G A. unfold add_leaf. rewrite G.
    assert (H : obj_has n b = true) by (unfold obj_has; now rewrite G).
    destruct temp; try discriminate; split; auto using obj_get_set_same.
  - intros p top n leaf b l G. unfold add_leaf. rewrite G.
    assert (H : obj_has n b = true) by (unfold obj_has; now rewrite G).
    split; auto using obj_get_set_same.
Qed.

(** The document <R><I>_Data</I><I>2</I></R> holds the text key, but no
    element of that name: its tree is flat. *)
Lemma sequences_stay_flat_witness :
  flat (Hash [("I", Arr [Str "_Data"; Str "2"])]) = true.
Proof.
  apply (proj1 sequences_stay_flat no_files "<R><I>_Data</I><I>2</I></R>"
           default_options "<R><I>_Data</I><I>2</I></R>");
    vm_compute; reflexivity.
Defined.

(** C5 as stated fails: an element named as the text key, repeated,
    leaves an array in the text slot of its parent, which compresses to
    that array and is then stored as a member of its own parent's
    array. *)
Lemma nested_sequence_with_text_key_element :
  parse_xml no_files
    "<D><R>a</R><R><_Data>x</_Data><_Data>y</_Data></R></D>" default_options
  = Returned (Hash [("R", Arr [Str "a"; Arr [Str "x"; Str "y"]])]) /\
  flat (Hash [("R", Arr [Str "a"; Arr [Str "x"; Str "y"]])]) = false.
Proof. split; vm_compute; reflexivity. Qed.

(** C6, amended.  With array-forcing on, an element added under a name
    that its parent does not hold yet -- as the name of an earlier
    child, of an attribute merged into the parent, or as the text key --
    and that is no member of Object.prototype is stored as an array of
    one when the parent is below the root, and as it is when the parent
    is the root; adding an element leaves the other keys of the parent
    as they were, and adding text leaves all keys but the text key as
    they were.  In the hash of every element below the root, each key
    that the loop added, apart from the text key, holds an array.  So in
    <D><R><I>1</I></R></D> R and I are wrapped and D, directly under the
    root, is not. *)
Theorem force_arrays_wraps_below_root :
  (forall p (top : bool) n (leaf : value) b,
     forceArrays (opts p) = true -> obj_get n b = None ->
     inherited n = false ->
     let v := if top then leaf else Arr [leaf] in
     add_leaf p top n leaf b = Some (obj_set n v b) /\
     obj_get n (obj_set n v b) = Some v) /\
  (forall p top n m leaf b b',
     add_leaf p top m leaf b = Some b' -> m <> n ->
     obj_get n b' = obj_get n b) /\
  (forall p s b b1 q n,
     append_data p s b = Ok b1 q -> n <> dataKey (opts p) ->
     obj_get n b1 = obj_get n b) /\
  (forall fuel name branch p b f q n v,
     forceArrays (opts p) = true ->
     parse_loop fuel false name branch p = Ok (b, f) q ->
     n <> dataKey (opts p) -> obj_get n branch = None ->
     obj_get n b = Some v -> is_arr v = true) /\
  parse_xml no_files "<D><R><I>1</I></R></D>"
    (Options false false false false true "_Attribs" "_Data")
  = Returned (Hash [("R", Arr [Hash [("I", Arr [Str "1"])]])]) /\
  parse_xml no_files "<D><R><I>1</I></R></D>"
    (Options true false false false true "_Attribs" "_Data")
  = Returned
      (Hash [("D", Hash [("R", Arr [Hash [("I", Arr [Str "1"])]])])]).
Proof.
  split; [|split; [|split; [|split; [|split; vm_compute; reflexivity]]]].
  - intros p top n leaf b F G I v. unfold add_leaf. rewrite G, I, F.
    apply inherited_proto in I.
    destruct top; cbn [negb andb]; split; auto using obj_get_set_same.
  - intros p top n m leaf b b' A N.
    apply add_leaf_stored in A as (v & -> & _).
    now apply obj_get_set_other.
  - intros p s b b1 q n. apply append_data_get.
  - intros fuel name branch p b f q n v F H N G E.
    pose proof (parse_loop_forced _ _ _ _ _ _ _ H F n N) as A.
    unfold arr_or_none in A. rewrite G, E in A. auto.
Qed.

(** An element named I is added to an empty parent below the root. *)
Lemma force_arrays_wraps_below_root_witness :
  add_leaf (new_parser (Options false false false false true "_Attribs"
                          "_Data") "<D><R><I>1</I></R></D>")
    false "I" (Str "1") []
  = Some (obj_set "I" (Arr [Str "1"]) []) /\
  obj_get "I" (obj_set "I" (Arr [Str "1"]) []) = Some (Arr [Str "1"]).
Proof.
  apply (proj1 force_arrays_wraps_below_root
           (new_parser (Options false false false false true "_Attribs"
                          "_Data") "<D><R><I>1</I></R></D>")
           false "I" (Str "1") []); reflexivity.
Defined.

(** C6 as stated fails: with attributes merged into the element, a
    single child named as an attribute of its parent joins the value of
    the attribute in an array of two. *)
Lemma forced_child_joins_attribute :
  parse_xml no_files "<D><R I='x'><I>1</I></R></D>"
    (Options false false false false true "_Attribs" "_Data")
  = Returned (Hash [("R", Arr [Hash [("I", Arr [Str "x"; Str "1"])]])]).
Proof. vm_compute. reflexivity. Qed.

(** C7, on the code.  When the loop reads a closing tag whose name is
    not the name of the element that is open, and the text before the
    tag, if there is any, was added to the element, the loop throws a
    MismatchedClosingTag error.  But the text is added before the tag
    is looked at (lines 117-121): where the text slot holds a value
    that has no string, a hash with a key toString, that step throws a
    TypeError and the closing tag is never reached, as in
    <a><_Data toString='x'/>t</b>.  A call for an element below the
    root that finds no further tag in the text throws a
    MissingClosingTag error, and a loop below the root returns without
    its closing tag in no other way: it finds no further tag at once, or
    reads a tag and goes on as such a loop.  So <A><B></A> fails with
    the first error and <A><B></B> with the second. *)
Theorem closing_tag_errors :
  (forall fuel top name branch p st m ms,
     exec patTag (text p) (lastIndex p) = Some (st, m) ->
     test patSpecialTag (group 2 m) = false ->
     matches patStandardTag (group 2 m) = Some ms ->
     group 1 ms <> EmptyString ->
     node_name p (group 2 ms)
       <> match name with Some n => n | None => EmptyString end ->
     let p1 := set_lastIndex (pos m) p in
     let err := parse_error (kind_key (MismatchedClosingTag name))
                  (group 2 m) p1 in
     (test (Cls non_ws) (group 1 m) = false \/
      exists b1, append_data p1 (group 1 m) branch = Ok b1 p1) ->
     parse_loop (S fuel) top name branch p
     = Throw (Error (getError err)) (push_error err p1)) /\
  (forall fuel top name branch p st m v,
     exec patTag (text p) (lastIndex p) = Some (st, m) ->
     test (Cls non_ws) (group 1 m) = true ->
     obj_get (dataKey (opts p)) branch = Some v -> to_str v = None ->
     parse_loop (S fuel) top name branch p
     = Throw JsTypeError (set_lastIndex (pos m) p)) /\
  (forall fuel name branch p,
     name <> EmptyString ->
     exec patTag (text p) (lastIndex p) = None ->
     let q := set_lastIndex 0 p in
     let err := parse_error (kind_key (MissingClosingTag name)) name q in
     parse (S fuel) false (Some name) branch p
     = Throw (Error (getError err)) (push_error err q)) /\
  (forall fuel name branch p b q,
     parse_loop (S fuel) false name branch p = Ok (b, false) q ->
     exec patTag (text p) (lastIndex p) = None /\
     b = branch /\ q = set_lastIndex 0 p \/
     exists st m b2 p2,
       exec patTag (text p) (lastIndex p) = Some (st, m) /\
       text p2 = text p /\ pos m <= lastIndex p2 /\
       parse_loop fuel false name b2 p2 = Ok (b, false) q) /\
  parse_xml no_files "<A><B></A>" default_options =
    Thrown (Error
      "Parse Error: Mismatched closing tag (expected </B>) on line 1: </A>") /\
  parse_xml no_files "<A><B></B>" default_options =
    Thrown (Error
      "Parse Error: Missing closing tag (expected </A>) on line 1: <A>") /\
  parse_xml no_files "<a><_Data toString='x'/>t</b>" default_options
  = Thrown JsTypeError.
Proof.
  split; [|split; [|split; [|split; [|repeat split; vm_compute; reflexivity]]]].
  - intros fuel top name branch p st m ms E S M C N p1 err T.
    cbn [parse_loop]. rewrite E. fold p1.
    assert (T' : exists b1,
               (if test (Cls non_ws) (group 1 m)
                then append_data p1 (group 1 m) branch else Ok branch p1)
               = Ok b1 p1).
    { destruct T as [-> | (b1 & ->)]; [eauto|].
      destruct (test (Cls non_ws) (group 1 m)); eauto. }
    destruct T' as (b1 & ->). cbn [bind]. rewrite S, M.
    apply String.eqb_neq in C, N. unfold node_name in N.
    unfold p1 at 1 2. cbn [opts set_lastIndex]. rewrite C, N. cbn [negb].
    apply throwParseError_eq.
  - intros fuel top name branch p st m v E T G V.
    cbn [parse_loop]. rewrite E, T. unfold append_data.
    cbn [opts set_lastIndex]. rewrite G, V. reflexivity.
  - intros fuel name branch p N E q err. unfold parse.
    cbn [parse_loop]. rewrite E. cbn [finish bind fst snd].
    destruct name; [congruence|]. cbn [truthy_name negb andb name_str].
    apply throwParseError_eq.
  - intros fuel name branch p b q H.
    destruct (exec patTag (text p) (lastIndex p)) as [[st m]|] eqn:E.
    + right. exists st, m.
      destruct (parse_loop_goes_on _ _ _ _ _ _ _ _ E H)
        as (b2 & p2 & _ & T & L & G).
      exists b2, p2. auto.
    + left. cbn [parse_loop] in H. rewrite E in H. inversion H. auto.
Qed.

(** The call for B finds no further tag after its opening tag. *)
Lemma closing_tag_errors_witness :
  let p := set_lastIndex 6 (new_parser default_options "<A><B>") in
  let q := set_lastIndex 0 p in
  let err := parse_error (kind_key (MissingClosingTag "B")) "B" q in
  parse 1 false (Some "B") [] p
  = Throw (Error (getError err)) (push_error err q).
Proof.
  apply (proj1 (proj2 (proj2 closing_tag_errors)) 0 "B" []
           (set_lastIndex 6 (new_parser default_options "<A><B>")));
    [discriminate | vm_compute; reflexivity].
Defined.

(** C8, on the code.  After the loop of the top-level call, a root with
    more than one key left makes the call throw a TooManyTopLevelNodes
    error; but the loop of the top-level call stops at the first
    element (line 223), so the root never holds more than one own key:
    no call of the constructor that stays within the model -- no
    element is named as a member of Object.prototype -- records that
    error, and a text with two sibling root elements parses to the
    value of the first. *)
Theorem too_many_top_level_nodes_check :
  (forall name b f p,
     truthy_name name = false ->
     1 < num_keys (obj_delete (dataKey (opts p)) b) ->
     let tag := name_str (first_key (obj_delete (dataKey (opts p)) b)) in
     let err := parse_error (kind_key TooManyTopLevelNodes) tag p in
     finish true name (Ok (b, f) p)
     = Throw (Error (getError err)) (push_error err p)) /\
  (forall fs o txt e p err,
     XML_new fs o txt = Throw e p -> e <> Beyond -> In err (errors p) ->
     err_key err <> kind_key TooManyTopLevelNodes) /\
  parse_xml no_files "<__proto__>x</__proto__>" default_options
  = NotModelled /\
  parse_xml no_files "<A></A><B></B>" default_options
  = Returned (Str EmptyString).
Proof.
  split; [|split; [|split; vm_compute; reflexivity]].
  - intros name b f p N L tag err. cbn [finish bind fst snd].
    rewrite N. cbn [andb]. apply Nat.ltb_lt in L. rewrite L.
    apply throwParseError_eq.
  - intros fs o txt e p err H B I. pose proof (XML_new_ok fs o txt) as X.
    rewrite H in X.
    destruct X as [[_ E] | [(t & err' & k & _ & E & _ & _ & K & T)
                           | (t & _ & _ & E)]];
      rewrite E in I; simpl in I; try contradiction.
    destruct I as [<- | []]. rewrite K. intro C.
    apply kind_key_too_many in C. congruence.
Qed.

(** A root left with two keys makes the top-level call throw. *)
Lemma too_many_top_level_nodes_check_witness :
  let p := new_parser default_options "<A/>" in
  finish true None (Ok ([("A", Str "1"); ("B", Str "2")], false) p)
  = Throw (Error (getError (parse_error (kind_key TooManyTopLevelNodes) "A" p)))
      (push_error (parse_error (kind_key TooManyTopLevelNodes) "A" p) p).
Proof.
  intro p.
  apply (proj1 too_many_top_level_nodes_check None
           [("A", Str "1"); ("B", Str "2")] false p);
    [reflexivity | vm_compute; lia].
Defined.

(** C9.  The loop of parseCDATANode returns only a tag that ends with
    the two closing brackets of a CDATA section; until then every round
    appends the closing bracket it stopped at and the next chunk.  So a
    closing bracket inside the section does not end it, and
    <R><![CDATA[a>b]]></R> parses with the text a>b. *)
Theorem cdata_keeps_embedded_bracket :
  (forall fuel unclosed tag i p tag' j q,
     next_close_loop fuel patEndCDATA unclosed tag i p = Ok (tag', j) q ->
     test patEndCDATA tag' = true) /\
  (forall fuel unclosed tag i p st m,
     test patEndCDATA tag = false ->
     exec patNextClose (text p) i = Some (st, m) ->
     next_close_loop (S fuel) patEndCDATA unclosed tag i p
     = next_close_loop fuel patEndCDATA unclosed (tag ++ ">" ++ group 1 m)
         (pos m) p) /\
  (let p := set_lastIndex 14
              (new_parser default_options "<R><![CDATA[a>b]]></R>") in
   parseCDATANode "![CDATA[a" p = Ok "a>b" (set_lastIndex 18 p)) /\
  parse_xml no_files "<R><![CDATA[a>b]]></R>" default_options
  = Returned (Str "a>b").
Proof.
  split; [|split; [|split; vm_compute; reflexivity]].
  - intros. eapply next_close_loop_ends; eauto.
  - intros fuel unclosed tag i p st m E X. simpl. now rewrite E, X.
Qed.


(** ** Further properties of the code *)

(** ** More of the matcher: the loops over a class *)

Lemma run_lazy (p : ascii -> bool) (k : mstate -> option mstate) :
  forall t i c, run (lazy p) k (MState i t c) = lazy_try p k i t c.
Proof.
  unfold lazy. cbn [run rest].
  induction t as [|a t IH]; intros i c; cbn [String.length rep_loop lazy_try].
  - now destruct (k (MState i "" c)).
  - destruct (k (MState i (String a t) c)); [reflexivity|].
    cbn [run rest]. destruct (p a); [|reflexivity].
    unfold step. cbn [pos caps].
    replace (Nat.eqb (S i) i) with false by (symmetry; apply Nat.eqb_neq; lia).
    apply IH.
Qed.

Lemma run_star (p : ascii -> bool) (k : mstate -> option mstate) :
  forall t i c, run (star p) k (MState i t c) = greedy_try p k i t c.
Proof.
  unfold star. cbn [run rest].
  induction t as [|a t IH]; intros i c; cbn [String.length rep_loop greedy_try].
  - reflexivity.
  - cbn [run rest]. destruct (p a); [|reflexivity].
    unfold step. cbn [pos caps].
    replace (Nat.eqb (S i) i) with false by (symmetry; apply Nat.eqb_neq; lia).
    now rewrite IH.
Qed.

Lemma run_plus (p : ascii -> bool) (k : mstate -> option mstate) i t c :
  run (plus p) k (MState i t c)
  = match t with
    | String a t' => if p a then greedy_try p k (S i) t' c else None
    | EmptyString => None
    end.
Proof.
  unfold plus, Plus. rewrite run_seq. cbn [run rest].
  destruct t as [|a t]; [reflexivity|]. destruct (p a); [|reflexivity].
  unfold step. cbn [pos caps]. apply run_star.
Qed.

Lemma greedy_try_Some p : forall t i c,
  greedy_try p Some i t c = Some (MState (i + span p t) (drop (span p t) t) c).
Proof.
  induction t as [|a t IH]; intros i c; cbn [greedy_try span].
  - now rewrite Nat.add_0_r.
  - destruct (p a).
    + rewrite IH. cbn [drop]. now rewrite Nat.add_succ_comm.
    + now rewrite Nat.add_0_r.
Qed.

Lemma greedy_try_Eos p : forall t i c,
  greedy_try p (run Eos Some) i t c
  = if all_chars p t then Some (MState (i + String.length t) EmptyString c)
    else None.
Proof.
  induction t as [|a t IH]; intros i c; cbn [greedy_try all_chars].
  - cbn. now rewrite Nat.add_0_r.
  - destruct (p a); cbn [andb]; [|reflexivity].
    rewrite IH. destruct (all_chars p t); [|reflexivity].
    cbn [String.length]. now rewrite Nat.add_succ_comm.
Qed.

Lemma scan_Bos_later r : forall t p, scan (Seq Bos r) (S p) t = None.
Proof.
  induction t as [|a t IH]; intro p; cbn [scan run pos Nat.eqb]; auto.
Qed.

Lemma scan_hit r p t m :
  run r Some (MState p t []) = Some m -> scan r p t = Some (p, m).
Proof. intro H. destruct t; cbn [scan]; now rewrite H. Qed.


Lemma lazy_try_hit p k i t c m :
  k (MState i t c) = Some m -> lazy_try p k i t c = Some m.
Proof. intro K. destruct t; cbn [lazy_try]; now rewrite K. Qed.


(** ** trim *)

Lemma ltrim_drop (t : string) :
  replace_first (Cat [Bos; plus ws]) EmptyString t = drop (span ws t) t.
Proof.
  unfold replace_first, exec. cbn [Nat.ltb Nat.leb drop Cat].
  destruct t as [|a t]; [reflexivity|].
  cbn [scan]. rewrite run_seq. cbn [run pos Nat.eqb]. rewrite run_plus.
  cbn [span]. destruct (ws a).
  - rewrite greedy_try_Some. reflexivity.
  - now rewrite scan_Bos_later.
Qed.

Lemma scan_ws_tail : forall t p,
  scan (Cat [plus ws; Eos]) p t
  = match ws_tail t with
    | Some n => Some (p + n, MState (p + String.length t) EmptyString [])
    | None => None
    end.
Proof.
  induction t as [|a t IH]; intro p; [reflexivity|].
  cbn [scan Cat]. rewrite run_seq, run_plus. cbn [ws_tail all_chars].
  destruct (ws a); cbn [andb].
  - rewrite greedy_try_Eos. destruct (all_chars ws t).
    + cbn [String.length]. now rewrite Nat.add_0_r, Nat.add_succ_comm.
    + rewrite IH. destruct (ws_tail t); [|reflexivity]. cbn [option_map].
      cbn [String.length]. now rewrite !Nat.add_succ_comm.
  - rewrite IH. destruct (ws_tail t); [|reflexivity]. cbn [option_map].
    cbn [String.length]. now rewrite !Nat.add_succ_comm.
Qed.

Lemma rtrim_take (t : string) :
  replace_first (Cat [plus ws; Eos]) EmptyString t
  = match ws_tail t with Some n => take n t | None => t end.
Proof.
  unfold replace_first, exec. cbn [Nat.ltb Nat.leb drop].
  rewrite scan_ws_tail. destruct (ws_tail t); [|reflexivity].
  cbn [rest append Nat.add]. apply append_nil_r.
Qed.

Lemma all_chars_take_span p : forall t, all_chars p (take (span p t) t) = true.
Proof.
  induction t as [|a t IH]; [reflexivity|]. cbn [span].
  destruct (p a) eqn:E; [|reflexivity]. cbn [take all_chars]. now rewrite E.
Qed.

Lemma drop_span_head p : forall t a u,
  drop (span p t) t = String a u -> p a = false.
Proof.
  induction t as [|x t IH]; intros a u; cbn [span]; [discriminate|].
  destruct (p x) eqn:E; cbn [drop]; [apply IH|].
  intro H. injection H as -> _. exact E.
Qed.

Lemma ws_tail_Some : forall t n, ws_tail t = Some n ->
  all_chars ws (drop n t) = true /\
  forall v a, take n t = v ++ String a EmptyString -> ws a = false.
Proof.
  induction t as [|x t IH]; intros n; [discriminate|]. cbn [ws_tail].
  destruct (all_chars ws (String x t)) eqn:A.
  - intro H. injection H as <-. split; [exact A|].
    intros [|] ?; discriminate.
  - destruct (ws_tail t) as [n'|] eqn:W; [|discriminate].
    cbn [option_map]. intro H. injection H as <-.
    destruct (IH n' eq_refl) as [D L]. split; [exact D|].
    cbn [take]. intros [|y v] a H.
    + cbn [append] in H. injection H as -> T.
      cbn [all_chars] in A. destruct (ws a); [|reflexivity]. cbn [andb] in A.
      destruct n' as [|n'].
      * destruct t; cbn in D, A; congruence.
      * destruct t; discriminate.
    + cbn [append] in H. injection H as _ T. eauto.
Qed.

Lemma ws_tail_None : forall t, ws_tail t = None ->
  forall v a, t = v ++ String a EmptyString -> ws a = false.
Proof.
  induction t as [|x t IH]; [intros _ [|]; discriminate|]. cbn [ws_tail].
  destruct (all_chars ws (String x t)) eqn:A; [discriminate|].
  destruct (ws_tail t) eqn:W; [discriminate|]. intros _ [|y v] a H.
  - cbn [append] in H. injection H as -> ->. cbn [all_chars] in A.
    now rewrite andb_true_r in A.
  - cbn [append] in H. injection H as _ T. eauto.
Qed.

Lemma take_head : forall n t a u,
  take n t = String a u -> exists u', t = String a u'.
Proof.
  intros [|n] [|x t] a u; cbn [take]; try discriminate.
  intro H. injection H as -> _. eauto.
Qed.

(** X1.  trim takes off the white space at both ends of a text and
    nothing else: the text is what trim returns between two runs of
    white space, and what trim returns neither starts nor ends with a
    white space character. *)
Theorem trim_strips_white_space (s : string) :
  exists l r,
    s = l ++ trim s ++ r /\
    all_chars ws l = true /\ all_chars ws r = true /\
    (forall a u, trim s = String a u -> ws a = false) /\
    (forall u a, trim s = u ++ String a EmptyString -> ws a = false).
Proof.
  destruct s as [|x s].
  - exists EmptyString, EmptyString. cbn. repeat split; try discriminate.
    intros [|]; discriminate.
  - remember (String x s) as t eqn:Et.
    assert (T : trim t = match ws_tail (drop (span ws t) t) with
                         | Some n => take n (drop (span ws t) t)
                         | None => drop (span ws t) t
                         end).
    { subst t. unfold trim. now rewrite ltrim_drop, rtrim_take. }
    clear Et. rewrite T. clear T.
    exists (take (span ws t) t).
    pose proof (drop_span_head ws t) as Hh.
    pose proof (all_chars_take_span ws t) as Hl.
    pose proof (take_drop (span ws t) t) as Ht.
    set (u := drop (span ws t) t) in *.
    destruct (ws_tail u) as [n|] eqn:W.
    + destruct (ws_tail_Some u n W) as [D L].
      exists (drop n u). rewrite take_drop. repeat split; auto.
      intros a w H. destruct (take_head _ _ _ _ H) as [u' E]. eauto.
    + exists EmptyString. rewrite append_nil_r. repeat split; auto.
      eauto using ws_tail_None.
Qed.

(** ** The entities of attribute values *)

Lemma expand_ext (f g : ascii -> string) :
  (forall a, f a = g a) -> forall s, expand f s = expand g s.
Proof.
  intros H s. induction s as [|a s IH]; simpl; [reflexivity|].
  now rewrite H, IH.
Qed.

Ltac by_entity x :=
  intros x t; unfold entity, single;
  destruct (Ascii.eqb "&" x) eqn:Eamp;
  [apply Ascii.eqb_eq in Eamp; subst x
  |destruct (Ascii.eqb "<" x) eqn:Elt;
   [apply Ascii.eqb_eq in Elt; subst x
   |destruct (Ascii.eqb ">" x) eqn:Egt;
    [apply Ascii.eqb_eq in Egt; subst x
    |destruct (Ascii.eqb dquote x) eqn:Equot;
     [apply Ascii.eqb_eq in Equot; subst x
     |destruct (Ascii.eqb "'" x) eqn:Eapos;
      [apply Ascii.eqb_eq in Eapos; subst x|]]]]];
  cbn [append Ascii.eqb Bool.eqb andb dquote].

Lemma attrib_step3 s : expand amp_lt_gt s = expand (entity true true false false) s.
Proof.
  apply expand_ext. intro a. unfold amp_lt_gt, entity. cbn [andb].
  destruct (Ascii.eqb "&" a), (Ascii.eqb "<" a), (Ascii.eqb ">" a); reflexivity.
Qed.

Lemma attrib_step4 s :
  replace_all (Chr dquote) "&quot;" (expand (entity true true false false) s)
  = expand (entity true true true false) s.
Proof.
  apply (replace_expand dquote EmptyString). by_entity x.
  - now do 5 miss.
  - now do 4 miss.
  - now do 4 miss.
  - apply (replace_all_hit "&quot;" dquote EmptyString).
  - now miss.
  - now miss.
Qed.

Lemma attrib_step5 s :
  replace_all (Chr "'") "&apos;" (expand (entity true true true false) s)
  = expand (entity true true true true) s.
Proof.
  apply (replace_expand "'" EmptyString). by_entity x.
  - now do 5 miss.
  - now do 4 miss.
  - now do 4 miss.
  - now do 6 miss.
  - apply (replace_all_hit "&apos;" "'" EmptyString).
  - now miss.
Qed.

Lemma attrib_back1 s :
  replace_all (Lit "&lt;") "<" (expand (entity true true true true) s)
  = expand (entity false true true true) s.
Proof.
  apply (replace_expand "&" "lt;"). by_entity x.
  - now do 5 miss.
  - exact (replace_all_hit "<" "&" "lt;" t).
  - now do 4 miss.
  - now do 6 miss.
  - now do 6 miss.
  - now miss.
Qed.

Lemma attrib_back2 s :
  replace_all (Lit "&gt;") ">" (expand (entity false true true true) s)
  = expand (entity false false true true) s.
Proof.
  apply (replace_expand "&" "gt;"). by_entity x.
  - now do 5 miss.
  - now miss.
  - exact (replace_all_hit ">" "&" "gt;" t).
  - now do 6 miss.
  - now do 6 miss.
  - now miss.
Qed.

Lemma attrib_back3 s :
  replace_all (Lit "&quot;") (String dquote EmptyString)
    (expand (entity false false true true) s)
  = expand (entity false false false true) s.
Proof.
  apply (replace_expand "&" "quot;"). by_entity x.
  - now do 5 miss.
  - now miss.
  - now miss.
  - exact (replace_all_hit (String dquote EmptyString) "&" "quot;" t).
  - now do 6 miss.
  - now miss.
Qed.

Lemma attrib_back4 s :
  replace_all (Lit "&apos;") "'" (expand (entity false false false true) s)
  = expand amp s.
Proof.
  apply (replace_expand "&" "apos;"). by_entity x; unfold amp, single.
  - now do 5 miss.
  - now miss.
  - now miss.
  - now miss.
  - exact (replace_all_hit "'" "&" "apos;" t).
  - rewrite Eamp. now miss.
Qed.

Lemma encode_attrib_expand (s : string) :
  encode_attrib_entities s = expand (entity true true true true) s.
Proof.
  destruct s as [|a s]; [reflexivity|]. unfold encode_attrib_entities.
  rewrite <- (expand_single (String a s)) at 1.
  now rewrite encode_step1, encode_step2, encode_step3, attrib_step3,
    attrib_step4, attrib_step5.
Qed.

Lemma all_chars_append p a b :
  all_chars p (a ++ b) = all_chars p a && all_chars p b.
Proof.
  induction a as [|x a IH]; simpl; [reflexivity|].
  now rewrite IH, andb_assoc.
Qed.

Lemma all_chars_expand p f :
  (forall a, all_chars p (f a) = true) ->
  forall s, all_chars p (expand f s) = true.
Proof.
  intros H s. induction s as [|a s IH]; simpl; [reflexivity|].
  now rewrite all_chars_append, H, IH.
Qed.

(** X2.  Decoding what encode_attrib_entities wrote gives the text
    back, for every text. *)
Theorem decode_encode_attrib_entities (s : string) :
  decode_entities (encode_attrib_entities s) = s.
Proof.
  rewrite decode_entities_all, encode_attrib_expand. unfold decode_all.
  rewrite attrib_back1, attrib_back2, attrib_back3, attrib_back4,
    decode_step5.
  apply expand_single.
Qed.

(** X3.  The three replacements of encode_entities amount to writing
    the text character by character, with an entity for each ampersand
    and angle bracket; what it returns holds no angle bracket. *)
Theorem encode_entities_charwise (s : string) :
  encode_entities s = expand amp_lt_gt s /\
  all_chars (fun c => negb (markup c)) (encode_entities s) = true.
Proof.
  split; [apply encode_expand|]. rewrite encode_expand.
  apply all_chars_expand. intro a. unfold amp_lt_gt, single, markup, is_char.
  destruct (Ascii.eqb "&" a); [reflexivity|].
  destruct (Ascii.eqb "<" a) eqn:L; [reflexivity|].
  destruct (Ascii.eqb ">" a) eqn:G; [reflexivity|].
  simpl. rewrite Ascii.eqb_sym, L, Ascii.eqb_sym, G. reflexivity.
Qed.

(** X4.  The five replacements of encode_attrib_entities amount to
    writing the text character by character, with an entity for each
    ampersand, angle bracket and quote; what it returns holds no angle
    bracket and no quote, so it cannot end the attribute value or the tag
    it is written in. *)
Theorem encode_attrib_entities_charwise (s : string) :
  encode_attrib_entities s = expand (entity true true true true) s /\
  all_chars (fun c => negb (markup c || quote c)) (encode_attrib_entities s)
  = true.
Proof.
  split; [apply encode_attrib_expand|]. rewrite encode_attrib_expand.
  apply all_chars_expand. intro a.
  unfold entity, single, markup, quote, is_char. cbn [andb].
  destruct (Ascii.eqb "&" a); [reflexivity|].
  destruct (Ascii.eqb "<" a) eqn:L; [reflexivity|].
  destruct (Ascii.eqb ">" a) eqn:G; [reflexivity|].
  destruct (Ascii.eqb dquote a) eqn:Q; [reflexivity|].
  destruct (Ascii.eqb "'" a) eqn:A; [reflexivity|].
  simpl. rewrite Ascii.eqb_sym, L, Ascii.eqb_sym, G, Ascii.eqb_sym, Q,
    Ascii.eqb_sym, A. reflexivity.
Qed.

(** ** always_array *)

Lemma obj_get_delete_other k k' o :
  k <> k' -> obj_get k' (obj_delete k o) = obj_get k' o.
Proof.
  intro N. induction o as [|[a v] o IH]; [reflexivity|]. cbn [obj_delete].
  destruct (String.eqb a k) eqn:E.
  - apply String.eqb_eq in E. subst a. cbn [obj_get].
    destruct (String.eqb k k') eqn:E'; [|reflexivity].
    apply String.eqb_eq in E'. contradiction.
  - cbn [obj_get]. now rewrite IH.
Qed.

(** X5.  Called with a key that the hash holds, other than __proto__,
    always_array leaves under that key an array: the value itself when
    it is one already (or a hash with a key named length), an array of
    that one value otherwise.  The other keys keep their values, and a
    second call changes nothing.  (On the key __proto__ the assignment
    that follows the delete replaces the prototype of the hash.) *)
Theorem always_array_of_key (o : obj) (key : string) (temp : value) :
  key <> EmptyString -> key <> "__proto__" -> obj_get key o = Some temp ->
  exists o',
    always_array (Hash o) key = AlwaysNull (Hash o') /\
    obj_get key o' = Some (if array_like temp then temp else Arr [temp]) /\
    (forall k, k <> key -> obj_get k o' = obj_get k o) /\
    always_array (Hash o') key = AlwaysNull (Hash o').
Proof.
  intros N P G. unfold always_array. destruct key as [|a key]; [congruence|].
  apply String.eqb_neq in P. rewrite G, P. destruct (array_like temp) eqn:A.
  - exists o. rewrite G, A. auto.
  - exists (obj_set (String a key) (Arr [temp]) (obj_delete (String a key) o)).
    rewrite obj_get_set_same by auto. cbn [array_like]. repeat split.
    intros k K. rewrite obj_get_set_other by congruence.
    apply obj_get_delete_other. congruence.
Qed.

(** always_array on the key a of a hash of two strings. *)
Lemma always_array_of_key_witness :
  exists o',
    always_array (Hash [("a", Str "x"); ("b", Str "y")]) "a"
    = AlwaysNull (Hash o') /\
    obj_get "a" o' = Some (Arr [Str "x"]) /\
    (forall k, k <> "a" ->
               obj_get k o' = obj_get k [("a", Str "x"); ("b", Str "y")]) /\
    always_array (Hash o') "a" = AlwaysNull (Hash o').
Proof.
  apply (always_array_of_key [("a", Str "x"); ("b", Str "y")] "a" (Str "x"));
    [discriminate | discriminate | reflexivity].
Defined.


(** ** XML.prototype.compose *)











(** ** compose_xml: when it succeeds, and what it leaves out *)

Lemma existsb_false {A : Type} (f : A -> bool) (l : list A) :
  existsb f l = false <-> Forall (fun x => f x = false) l.
Proof.
  induction l as [|x l IH]; simpl; [split; auto|].
  rewrite orb_false_iff, IH. split.
  - intros [H1 H2]. now constructor.
  - intro H. inversion H; subst. auto.
Qed.

Lemma has_key_hash k o :
  has_key k (Hash o) = false <->
  obj_get k o = None /\ all_values (fun v => has_key k v = false) o.
Proof.
  cbn [has_key]. rewrite orb_false_iff, existsb_false. unfold obj_has, all_values.
  destruct (obj_get k o); split; intros [H1 H2]; try discriminate; auto.
Qed.

Lemma has_key_arr k l :
  has_key k (Arr l) = false <-> Forall (fun v => has_key k v = false) l.
Proof. cbn [has_key]. apply existsb_false. Qed.

Lemma composable_hash o :
  composable (Hash o) <->
  obj_get "length" o = None /\ obj_get "replace" o = None /\
  obj_get "toString" o = None /\ all_values composable o.
Proof.
  unfold composable. rewrite !has_key_hash. unfold all_values.
  rewrite !Forall_forall. split.
  - intros [[L1 A1] [[L2 A2] [L3 A3]]]. repeat (split; [assumption|]).
    intros x I. repeat split; auto.
  - intros (L1 & L2 & L3 & A).
    repeat split; try assumption; intros x I; apply A in I; apply I.
Qed.

Lemma composable_arr l : composable (Arr l) <-> Forall composable l.
Proof.
  unfold composable. rewrite !has_key_arr, !Forall_forall. split.
  - intros (A1 & A2 & A3) x I. auto.
  - intros A. repeat split; intros x I; apply A in I; apply I.
Qed.

Lemma composable_str s : composable (Str s).
Proof. repeat split; reflexivity. Qed.

(** A value none of whose hashes has a key toString has a string. *)
Lemma to_str_some (v : value) :
  has_key "toString" v = false -> exists s, to_str v = Some s.
Proof.
  induction v as [s|o IH|l IH] using value_ind'; intro H.
  - cbn. eauto.
  - apply has_key_hash in H as (G & _). cbn [to_str]. unfold obj_has.
    rewrite G. eauto.
  - apply has_key_arr in H. cbn [to_str].
    match goal with
    | |- exists s, match ?f l with _ => _ end = _ =>
        assert (M : exists ss, f l = Some ss)
    end.
    { induction l as [|x l IHl]; [eauto|].
      inversion IH; subst. inversion H; subst.
      destruct (H2 H4) as [s ->]. destruct (IHl H3 H5) as [ss ->]. eauto. }
    destruct M as [ss ->]. eauto.
Qed.

Lemma composable_to_str (v : value) :
  composable v -> exists s, to_str v = Some s.
Proof. intros (_ & _ & T). now apply to_str_some. Qed.

Lemma sort_values_done srt cmp (l : list value) :
  Forall composable l -> exists l1, sort_values srt cmp l = Some l1.
Proof.
  intro C. unfold sort_values. destruct srt; [|eauto].
  destruct cmp; [eauto|].
  replace (existsb _ l) with false; [rewrite andb_false_r; eauto|].
  symmetry. apply existsb_false. eapply Forall_impl; [|exact C].
  intros v Cv. now destruct (composable_to_str v Cv) as [s ->].
Qed.

Lemma obj_get_rel k o o' :
  Forall2 entry_rel o o' -> obj_get k o = None -> obj_get k o' = None.
Proof.
  induction 1 as [|[a v] [a' v'] o o' [E R] F IH]; [auto|].
  cbn in E. subst a'. cbn [obj_get]. destruct (String.eqb a k); auto.
  discriminate.
Qed.

Lemma composable_reordered (v : value) : forall v',
  reordered v v' -> composable v -> composable v'.
Proof.
  induction v as [s|o IH|l IH] using value_ind'; intros v' R C;
    inversion R; subst; auto.
  - apply composable_hash in C as (L1 & L2 & L3 & A). apply composable_hash.
    fold entry_rel in H0.
    repeat split; eauto using obj_get_rel.
    clear L1 L2 L3 R. unfold all_values in *.
    induction H0 as [|kv kv' o o' [E R] F IHF]; [constructor|].
    inversion IH; subst. inversion A; subst. constructor; auto.
  - apply composable_arr in C. apply composable_arr.
    assert (C1 : Forall composable l1) by (eapply Permutation_Forall; eauto).
    assert (IH1 : Forall (fun v => forall v', reordered v v' ->
                                              composable v -> composable v') l1)
      by (eapply Permutation_Forall; eauto).
    clear H0 C IH R. induction H1 as [|x x' l1 l' R F IHF]; [constructor|].
    inversion C1; subst. inversion IH1; subst. constructor; auto.
Qed.

Lemma obj_get_in k o : In k (map fst o) -> exists v, obj_get k o = Some v.
Proof.
  induction o as [|[a v] o IH]; [intros []|]. cbn [map fst In obj_get].
  destruct (String.eqb a k) eqn:E; [eauto|]. intros [->|I]; auto.
  now rewrite String.eqb_refl in E.
Qed.

Lemma sort_keys_in srt cmp keys k :
  In k (sort_keys srt cmp keys) -> In k keys.
Proof.
  unfold sort_keys. destruct srt; auto.
  apply Permutation_in, Permutation_sym, js_sort_perm.
Qed.

Lemma encode_value_composable enc v :
  composable v -> exists s, encode_value enc v = Some s.
Proof.
  intro C. pose proof (composable_to_str v C) as T.
  destruct v as [s|o|l]; cbn [encode_value]; eauto.
  apply composable_hash in C as (_ & -> & _). exact T.
Qed.

Lemma compose_attribs_done (attribs : obj) : forall keys,
  all_values composable attribs ->
  (forall k, In k keys -> In k (map fst attribs)) ->
  exists s, compose_attribs attribs keys = Some s.
Proof.
  induction keys as [|key keys IH]; intros A I; cbn [compose_attribs]; eauto.
  destruct (obj_get_in key attribs) as [v G]; [apply I; now left|].
  rewrite G.
  destruct (encode_value_composable encode_attrib_entities v) as [s ->].
  { exact (all_values_get _ _ _ _ A G). }
  destruct IH as [x ->]; eauto. intros k K. apply I. now right.
Qed.

Lemma entries_composable v : composable v -> all_values composable (entries v).
Proof.
  destruct v as [s|o|l]; cbn [entries]; intro C.
  - unfold all_values. generalize (index_keys (String.length s)).
    induction (chars s) as [|x l IH]; intros [|i ks]; cbn; constructor;
      auto using composable_str.
  - now apply composable_hash in C.
  - apply composable_arr in C. unfold all_values.
    generalize (index_keys (List.length l)).
    induction C as [|x l Cx C IH]; intros [|i ks]; cbn; constructor; auto.
Qed.

Section Succeeds.

Variables (c : composer) (rec : value -> string -> nat -> composed value)
  (fuel : nat).
Hypothesis Hrec : frames c rec.
Hypothesis Hdone : forall v n i, height v < fuel -> composable v ->
                                 exists x v', rec v n i = Done x v'.

Lemma compose_children_done : forall keys indent o,
  all_values (fun v => height v < fuel /\ composable v) o ->
  exists x o', compose_children rec keys indent o = Done x o'.
Proof.
  induction keys as [|key keys IH]; intros indent o A; cbn [compose_children];
    eauto.
  destruct (negb (String.eqb key "_Attribs") && test re_valid_tag_name key);
    auto.
  destruct (obj_get key o) as [child|] eqn:G; auto.
  destruct (all_values_get _ _ _ _ A G) as [Hh Hc].
  destruct (Hdone child key (indent + 1) Hh Hc) as (x & child' & R).
  rewrite R. apply Hrec in R as (R1 & _).
  destruct (IH indent (obj_update key child' o)) as (x' & o' & ->); eauto.
  apply all_values_update; auto. split.
  - rewrite (reordered_height _ _ R1). exact Hh.
  - eapply composable_reordered; eauto.
Qed.

Lemma compose_members_done : forall l name indent,
  Forall (fun v => height v < fuel /\ composable v) l ->
  exists x l', compose_members rec l name indent = Done x l'.
Proof.
  induction l as [|v l IH]; intros name indent F; cbn [compose_members];
    eauto.
  inversion F as [|? ? [Hh Hc] F']; subst.
  destruct (Hdone v name indent Hh Hc) as (x & v' & ->).
  destruct (IH name indent F') as (x' & l' & ->). eauto.
Qed.

Lemma compose_node_hash_done xml v name indent :
  (forall s, v <> Str s) -> no_length v = true ->
  all_values (fun x => height x < fuel /\ composable x) (entries v) ->
  exists x node', compose_node rec c xml (Some v) name indent = Done x node'.
Proof.
  intros NS NL A. unfold compose_node.
  assert (AC : all_values composable (entries v)).
  { eapply all_values_weaken; [|exact A]. now intros x [_ C]. }
  assert (AT : forall a, obj_get "_Attribs" (entries v) = Some a ->
            exists s,
              compose_attribs (entries a)
                (sort_keys (or_default true (sort c)) (attribute_sorter c)
                   (hash_keys_to_array a)) = Some s).
  { intros a G. apply compose_attribs_done.
    - apply entries_composable. exact (all_values_get _ _ _ _ AC G).
    - intros k I. now apply sort_keys_in in I. }
  assert (DT : forall d, obj_get "_Data" (entries v) = Some d ->
            exists s, encode_value encode_entities d = Some s).
  { intros d G. apply encode_value_composable.
    exact (all_values_get _ _ _ _ AC G). }
  pose proof (compose_children_done
                (sort_keys (or_default true (sort c)) (tag_sorter_by_name c)
                   (hash_keys_to_array v)) indent (entries v) A)
    as (x & o' & CH).
  destruct v as [s|o|l]; [now destruct (NS s)| |]; rewrite NL;
    (destruct (obj_get "_Attribs" _) as [a|] eqn:GA;
     [destruct (AT a eq_refl) as [attrs E]; destruct (truthy a);
      cbv iota beta; [rewrite E|]|]);
    (destruct (Nat.ltb _ _); [|eauto]);
    (destruct (obj_get "_Data" _) as [d|] eqn:GD;
     [destruct (DT d eq_refl) as [sd E']; destruct (truthy d);
      cbv iota beta; [rewrite E'; eauto|]|]);
    rewrite CH; eauto.
Qed.

Lemma compose_node_done xml node name indent :
  (forall v, node = Some v -> height v <= fuel /\ composable v) ->
  exists x node', compose_node rec c xml node name indent = Done x node'.
Proof.
  intro H. destruct node as [v|]; [|unfold compose_node; eauto].
  destruct (H v eq_refl) as [Hh Hc].
  destruct v as [s|o|l]; [unfold compose_node; eauto| |].
  - apply composable_hash in Hc as (L & _ & _ & A).
    apply compose_node_hash_done; [discriminate | |].
    + cbn [no_length]. now rewrite L.
    + cbn [entries]. cbn [height] in Hh. fold (height_values o) in Hh.
      assert (B : all_values (fun x => height x < fuel) o)
        by (apply height_values_bound; lia).
      unfold all_values in *. rewrite Forall_forall in *. auto.
  - destruct l as [|v l].
    + apply compose_node_hash_done; [discriminate|reflexivity|constructor].
    + unfold compose_node. cbn [no_length List.length Nat.eqb].
      apply composable_arr in Hc.
      cbn [height] in Hh. fold (height_all (v :: l)) in Hh.
      assert (B : Forall (fun x => height x < fuel) (v :: l))
        by (apply height_all_bound; lia).
      destruct (sort_values_done (or_default true (sort c))
                  (tag_sorter_with_same_name c) (v :: l) Hc) as [l1 SV].
      rewrite SV.
      destruct (compose_members_done l1 name indent) as (x & l' & ->); eauto.
      eapply Permutation_Forall; [exact (sort_values_perm _ _ _ _ SV)|].
      rewrite Forall_forall in *. auto.
Qed.

End Succeeds.

Lemma compose_xml_done (c : composer) : forall fuel node name indent,
  height node < fuel -> composable node ->
  exists x node', compose_xml fuel c node name indent = Done x node'.
Proof.
  induction fuel as [|fuel IH]; intros node name indent H C; [lia|].
  assert (Hrec : frames c (compose_xml fuel c))
    by (intros v n i x v' R; eapply compose_xml_frame; eauto).
  assert (Direct : forall xml0 i,
            exists x node',
              match compose_node (compose_xml fuel c) c xml0 (Some node) name i
              with
              | Done xml (Some node') => Done xml node'
              | Done xml None => Done xml node
              | TypeError => TypeError
              | Unmodelled => Unmodelled
              | NoFuel => NoFuel
              end = Done x node').
  { intros xml0 i.
    destruct (compose_node_done c _ fuel Hrec IH xml0 (Some node) name i)
      as (x & n' & ->).
    - intros v E. inversion E; subst. split; [lia|assumption].
    - destruct n'; eauto. }
  cbn [compose_xml].
  destruct indent as [|indent]; [|apply Direct].
  destruct name as [|a name]; [|apply Direct].
  match goal with
  | |- context [compose_node ?r c ?x ?inner ?n 0] =>
      destruct (compose_node_done c r fuel Hrec IH x inner n 0)
        as (y & n' & ->); [|destruct n'; eauto]
  end.
  intros v E'.
  destruct (first_key (entries node)) as [k|]; [|discriminate].
  pose proof (all_values_get _ _ _ _ (entries_composable node C) E') as Cv.
  split; [|exact Cv].
  assert (height v <= height node); [|lia].
  destruct node as [s|o|l].
  - cbn [entries] in E'.
    pose proof (all_values_get _ _ _ _ (strs_height _ _) E') as S.
    cbv beta in S. simpl. lia.
  - cbn [entries] in E'. apply height_get in E'. lia.
  - cbn [entries] in E'.
    apply (height_get k (combine (index_keys (List.length l)) l)) in E'.
    cbn [height] in *. fold (height_all l).
    fold (height_values (combine (index_keys (List.length l)) l)) in E'.
    pose proof (height_values_combine (index_keys (List.length l)) l).
    lia.
Qed.

(** X7.  stringify returns a text, without throwing, for every tree in
    which no hash has a key named length, replace or toString, whatever
    the name, the options and the comparators. *)
Theorem stringify_succeeds (c : composer) (node : value) (name : string) :
  has_key "length" node = false -> has_key "replace" node = false ->
  has_key "toString" node = false ->
  exists xml node', stringify c node name = Done xml node'.
Proof.
  intros L R T. apply compose_xml_done; [lia | now repeat split].
Qed.

(** A tree with attributes and an array, and no such key. *)
Lemma stringify_succeeds_witness :
  exists xml node',
    stringify default_composer
      (Hash [("_Attribs", Hash [("k", Str "v")]); ("I", Arr [Str "b"; Str "a"])])
      "R" = Done xml node'.
Proof.
  apply (stringify_succeeds default_composer
           (Hash [("_Attribs", Hash [("k", Str "v")]);
                  ("I", Arr [Str "b"; Str "a"])]) "R"); reflexivity.
Defined.








(** ** Invariants of the tree that the parser builds *)

Lemma Forall_obj_set (Q : string * value -> Prop) k v o :
  (forall k', String.eqb k' k = true -> Q (k', v)) ->
  Forall Q o -> Forall Q (obj_set k v o).
Proof.
  intros Hv F. assert (Hk : Q (k, v)) by (apply Hv, String.eqb_refl).
  unfold obj_set. destruct (obj_has k o).
  - induction F as [|[k' v'] o H F IH]; simpl; [constructor|].
    destruct (String.eqb k' k) eqn:E; constructor; auto.
  - destruct (String.eqb k "__proto__"); [exact F|].
    destruct (array_index k) as [n|].
    + induction F as [|[k' v'] o H F IH]; simpl; [repeat constructor; auto|].
      destruct (array_index k') as [n'|]; [destruct (N.ltb n' n)|];
        repeat constructor; auto.
    + apply Forall_app; split; auto.
Qed.

Lemma Forall_obj_delete (Q : string * value -> Prop) k o :
  Forall Q o -> Forall Q (obj_delete k o).
Proof.
  induction 1 as [|[k' v'] o H F IH]; simpl; [constructor|].
  destruct (String.eqb k' k); auto.
Qed.

Lemma Forall_obj_get (Q : string * value -> Prop) k v o :
  Forall Q o -> obj_get k o = Some v -> Q (k, v).
Proof.
  induction 1 as [|[k' v'] o H F IH]; simpl; [discriminate|].
  destruct (String.eqb k' k) eqn:E; auto.
  apply String.eqb_eq in E. subst k'. intro G. inversion G; subst.
  exact H.
Qed.

Section TreeInvariant.

Variables (pk : string -> bool) (pa : list value -> bool) (o : options).

Hypothesis pk_data : pk (dataKey o) = true.
Hypothesis pk_attribs : pk (attribsKey o) = true.
Hypothesis pk_name :
  forall g, pk (if lowerCase o then toLowerCase g else g) = true.
Hypothesis pa_two : forall a b, pa [a; b] = true.
Hypothesis pa_push : forall l x, pa l = true -> pa (l ++ [x])%list = true.
Hypothesis pa_one : forceArrays o = true -> forall a, pa [a] = true.

Lemma tree_ok_hash b : tree_ok pk pa (Hash b) = true <-> entries_ok pk pa b.
Proof.
  cbn [tree_ok]. rewrite forallb_forall. unfold entries_ok.
  rewrite Forall_forall. split; intros H x I; specialize (H x I).
  - now apply andb_true_iff in H.
  - now apply andb_true_iff.
Qed.

Lemma entries_ok_set k v b :
  pk k = true -> tree_ok pk pa v = true -> entries_ok pk pa b ->
  entries_ok pk pa (obj_set k v b).
Proof.
  intros K V B. apply Forall_obj_set; auto. intros k' E.
  apply String.eqb_eq in E. subst k'. now split.
Qed.

Lemma append_data_ok p s b b1 q :
  append_data p s b = Ok b1 q ->
  opts p = o -> entries_ok pk pa b -> entries_ok pk pa b1.
Proof.
  intros A O B. apply append_data_stored in A as (t & -> & _). rewrite O.
  apply entries_ok_set; auto.
Qed.

Lemma texted_ok p b b1 :
  opts p = o -> texted p b b1 -> entries_ok pk pa b -> entries_ok pk pa b1.
Proof. intros O [-> | [s A]] B; eauto using append_data_ok. Qed.

Lemma parse_attribs_ok fuel raw : forall i attribs,
  entries_ok pk pa attribs -> entries_ok pk pa (parse_attribs fuel o raw i attribs).
Proof.
  induction fuel as [|fuel IH]; intros i attribs H; simpl; auto.
  destruct (exec patAttrib raw i) as [[st m]|]; auto.
  apply IH, entries_ok_set; auto.
Qed.

Lemma new_leaf_ok p raw : opts p = o -> entries_ok pk pa (new_leaf p raw).
Proof.
  intro O. unfold new_leaf. rewrite O.
  pose proof (parse_attribs_ok (S (String.length raw)) raw 0 []
                (Forall_nil _)) as A.
  set (attribs := parse_attribs _ _ _ _ _) in *. clearbody attribs.
  destruct (preserveAttributes o); [|exact A].
  destruct (String.eqb (attribsKey o) "__proto__") eqn:Pr.
  { unfold obj_set. simpl. rewrite Pr.
    destruct (Nat.eqb (num_keys attribs) 0); constructor. }
  rewrite obj_set_nil by exact Pr.
  destruct (Nat.eqb (num_keys attribs) 0); simpl.
  - rewrite String.eqb_refl. constructor.
  - constructor; [|constructor]. split; [exact pk_attribs|].
    now apply tree_ok_hash.
Qed.

Lemma compress_ok p leaf :
  entries_ok pk pa leaf -> tree_ok pk pa (compress p leaf) = true.
Proof.
  intro L. unfold compress.
  destruct (obj_get (dataKey (opts p)) leaf) as [data|] eqn:G.
  - destruct (Nat.eqb (num_keys leaf) 1).
    + apply (Forall_obj_get _ _ _ _ L G).
    + destruct (Nat.eqb (num_keys leaf) 0); [reflexivity|].
      now apply tree_ok_hash.
  - destruct (Nat.eqb (num_keys leaf) 0); [reflexivity|].
    now apply tree_ok_hash.
Qed.

Lemma add_leaf_ok p top g leaf b b' :
  add_leaf p top (node_name p g) leaf b = Some b' ->
  opts p = o -> entries_ok pk pa b -> tree_ok pk pa leaf = true ->
  entries_ok pk pa b'.
Proof.
  intros A O B L. revert A. unfold add_leaf, node_name. rewrite O.
  set (n := if lowerCase o then toLowerCase g else g).
  assert (N : pk n = true) by apply pk_name.
  destruct (obj_get n b) as [temp|] eqn:E.
  - destruct (Forall_obj_get _ _ _ _ B E) as [_ T]. cbn [fst snd] in T.
    destruct temp as [s|h|l]; intros [= <-]; apply entries_ok_set; auto.
    + cbn [tree_ok forallb]. now rewrite pa_two, L.
    + cbn [tree_ok forallb] in *. now rewrite pa_two, T, L.
    + cbn [tree_ok] in *. apply andb_true_iff in T as [T1 T2].
      rewrite pa_push by assumption. rewrite forallb_app, T2.
      cbn [forallb]. now rewrite L.
  - destruct (inherited n); [discriminate|].
    destruct (forceArrays o) eqn:FA; cbn [andb].
    + destruct (negb top); intros [= <-]; apply entries_ok_set; auto.
      cbn [tree_ok forallb]. now rewrite pa_one, L.
    + intros [= <-]. apply entries_ok_set; auto.
Qed.

Lemma parse_loop_tree_ok : forall fuel top name branch p b f q,
  parse_loop fuel top name branch p = Ok (b, f) q ->
  opts p = o -> entries_ok pk pa branch -> entries_ok pk pa b.
Proof.
  induction fuel as [|fuel IH]; intros top name branch p b f q H O I;
    [discriminate|].
  apply parse_loop_unfolds in H.
  destruct H as [_ -> _ _
                | p1 p2 b1 b2 K1 T1 K2 T2 H
                | p1 b1 K1 T1 -> _ _
                | p1 p2 b1 b2 g raw leaf K1 T1 _ G _ L K2 AL H]; auto.
  - assert (O1 : opts p1 = o) by (destruct K1 as (-> & _); exact O).
    assert (O2 : opts p2 = o) by (destruct K2 as (-> & _); exact O1).
    apply IH in H; eauto using texted_ok.
  - assert (O1 : opts p1 = o) by (destruct K1 as (-> & _); exact O).
    eauto using texted_ok.
  - assert (O1 : opts p1 = o) by (destruct K1 as (-> & _); exact O).
    assert (O2 : opts p2 = o) by (destruct K2 as (-> & _); exact O1).
    assert (I1 : entries_ok pk pa b1) by eauto using texted_ok.
    assert (IL : entries_ok pk pa leaf).
    { destruct L as [[-> ->] | [found L]]; [now apply new_leaf_ok|].
      apply IH in L; auto using new_leaf_ok. }
    assert (I2 : entries_ok pk pa b2).
    { replace (node_name p g) with (node_name p2 g) in AL
        by (unfold node_name; now rewrite O, O2).
      eapply add_leaf_ok; eauto using compress_ok. }
    destruct H as [(_ & _ & _ & ->) | (_ & H)]; auto.
    apply IH in H; auto.
Qed.

Lemma parse_top_tree_ok fuel p tr q :
  parse fuel true None [] p = Ok tr q -> opts p = o ->
  tree_ok pk pa (tree q) = true.
Proof.
  unfold parse. intros H O.
  destruct (parse_loop fuel true None [] p) as [[b f] q0| |] eqn:E;
    cbn [finish bind fst snd truthy_name andb] in H; try discriminate.
  apply parse_loop_tree_ok in E; auto; [|constructor].
  assert (FT : entries_ok pk pa (obj_delete (dataKey (opts q0)) b))
    by now apply Forall_obj_delete.
  destruct (Nat.ltb 1 _); [rewrite throwParseError_eq in H; discriminate|].
  destruct (truthy_name _ && negb _);
    [destruct (obj_get _ _) as [v|] eqn:G|];
    inversion H; subst; cbn [tree set_tree]; try (now apply tree_ok_hash).
  apply (Forall_obj_get _ _ _ _ FT G).
Qed.

End TreeInvariant.

Lemma parse_xml_tree_ok pk pa fs txt o v :
  pk (dataKey (effective o)) = true ->
  pk (attribsKey (effective o)) = true ->
  (forall g, pk (if lowerCase (effective o) then toLowerCase g else g) = true) ->
  (forall a b, pa [a; b] = true) ->
  (forall l x, pa l = true -> pa (l ++ [x])%list = true) ->
  (forceArrays (effective o) = true -> forall a, pa [a] = true) ->
  parse_xml fs txt o = Returned v -> tree_ok pk pa v = true.
Proof.
  intros H1 H2 H3 H4 H5 H6. unfold parse_xml, XML_new.
  destruct (load fs txt) as [t|e]; [|destruct e; discriminate].
  destruct t as [|a t].
  - cbn. intro E. inversion E. reflexivity.
  - destruct (keys_beyond (effective o)); [discriminate|].
    destruct (parse _ true None [] _) as [tr q|e q|] eqn:P; cbn [bind];
      [|destruct e; discriminate|discriminate].
    pose proof (parse_top_ok (new_parser o (String a t)) eq_refl) as K.
    cbn [text new_parser] in K. rewrite P in K. destruct K as (_ & _ & K). cbn [new_parser errors] in K.
    unfold error_count. rewrite K. cbn [List.length Nat.eqb].
    intro E. inversion E; subst.
    eapply parse_top_tree_ok; eauto.
Qed.

Lemma lower_char_idem (c : ascii) : lower_char (lower_char c) = lower_char c.
Proof. destruct c as [[] [] [] [] [] [] [] []]; reflexivity. Qed.

Lemma toLowerCase_idem (s : string) : toLowerCase (toLowerCase s) = toLowerCase s.
Proof.
  induction s as [|c s IH]; cbn [toLowerCase]; [reflexivity|].
  now rewrite lower_char_idem, IH.
Qed.

(** X10.  With lowerCase, every key of every hash of the tree that
    parse_xml returns is in lower case: the names of the elements and of
    the attributes, and the two reserved keys as well. *)
Theorem lower_case_folds_every_key
  (fs : string -> option string) (txt : string) (o : options) (v : value) :
  lowerCase o = true -> parse_xml fs txt o = Returned v ->
  tree_ok is_lower (fun _ => true) v = true.
Proof.
  intros L. apply parse_xml_tree_ok; auto; unfold effective; rewrite L;
    cbn [dataKey attribsKey lowerCase]; intros; unfold is_lower;
    rewrite toLowerCase_idem; apply String.eqb_refl.
Qed.

(** The tree of <A K='V'><B>Text</B></A> with lowerCase and
    preserveAttributes. *)
Lemma lower_case_folds_every_key_witness :
  tree_ok is_lower (fun _ => true)
    (Hash [("_attribs", Hash [("k", Str "V")]); ("b", Str "Text")]) = true.
Proof.
  apply (lower_case_folds_every_key no_files "<A K='V'><B>Text</B></A>"
           (Options false true false true false "_Attribs" "_Data"));
    vm_compute; reflexivity.
Defined.

(** X11.  No array of the tree that parse_xml returns is empty: without
    forceArrays every array has two members at least, and with it one at
    least. *)
Theorem arrays_of_the_tree_are_not_empty
  (fs : string -> option string) (txt : string) (o : options) (v : value) :
  parse_xml fs txt o = Returned v ->
  tree_ok (fun _ => true) (at_least (if forceArrays o then 1 else 2)) v = true.
Proof.
  assert (F : forceArrays (effective o) = forceArrays o)
    by (unfold effective; destruct (lowerCase o); reflexivity).
  apply parse_xml_tree_ok; auto.
  - intros a b. now destruct (forceArrays o).
  - intros l x. unfold at_least. rewrite !Nat.leb_le, length_app.
    cbn [List.length]. lia.
  - rewrite F. now intros ->.
Qed.

(** The tree of <R><I>1</I><J>3</J><I>2</I></R>. *)
Lemma arrays_of_the_tree_are_not_empty_witness :
  tree_ok (fun _ => true) (at_least 2)
    (Hash [("I", Arr [Str "1"; Str "2"]); ("J", Str "3")]) = true.
Proof.
  apply (arrays_of_the_tree_are_not_empty no_files
           "<R><I>1</I><J>3</J><I>2</I></R>" default_options).
  vm_compute. reflexivity.
Defined.

(** ** The line that a parse error reports *)



Lemma take_append (a b : string) : take (String.length a) (a ++ b) = a.
Proof.
  induction a as [|x a IH]; cbn [String.length append take].
  - now destruct b.
  - now rewrite IH.
Qed.

Lemma take_length n : forall s, n <= String.length s ->
  String.length (take n s) = n.
Proof. intros s H. rewrite length_take. lia. Qed.

Lemma drop_take_plus (n m : nat) (s : string) :
  drop n s = take m (drop n s) ++ drop (n + m) s.
Proof. now rewrite <- drop_drop, take_drop. Qed.

Lemma lazy_try_inv p k : forall t i c m,
  lazy_try p k i t c = Some m ->
  exists n, n <= String.length t /\ all_chars p (take n t) = true /\
            k (MState (i + n) (drop n t) c) = Some m.
Proof.
  induction t as [|a t IH]; intros i c m; cbn [lazy_try].
  - destruct (k (MState i "" c)) eqn:K; [|discriminate].
    intro E. exists 0. rewrite Nat.add_0_r. cbn. rewrite K. auto.
  - destruct (k (MState i (String a t) c)) eqn:K.
    + intro E. exists 0. rewrite Nat.add_0_r. cbn [String.length take drop all_chars].
      rewrite K. repeat split; auto. lia.
    + destruct (p a) eqn:P; [|discriminate]. intro E.
      destruct (IH _ _ _ E) as (n & L & A & R). exists (S n).
      cbn [String.length take drop all_chars]. rewrite P, A.
      rewrite <- Nat.add_succ_comm. repeat split; auto. lia.
Qed.

Lemma greedy_try_inv p k : forall t i c m,
  greedy_try p k i t c = Some m ->
  exists n, n <= String.length t /\ all_chars p (take n t) = true /\
            k (MState (i + n) (drop n t) c) = Some m.
Proof.
  assert (Z : forall t i c m, k (MState i t c) = Some m ->
            exists n, n <= String.length t /\ all_chars p (take n t) = true /\
                      k (MState (i + n) (drop n t) c) = Some m).
  { intros t i c m K. exists 0. rewrite Nat.add_0_r.
    destruct t; cbn; rewrite K; repeat split; auto; lia. }
  induction t as [|a t IH]; intros i c m; cbn [greedy_try]; [apply Z|].
  destruct (p a) eqn:P; [|apply Z].
  destruct (greedy_try p k (S i) t c) eqn:G; [|apply Z].
  intro E. inversion E; subst.
  destruct (IH _ _ _ G) as (n & L & A & R). exists (S n).
  cbn [String.length take drop all_chars]. rewrite P, A.
  rewrite <- Nat.add_succ_comm. repeat split; auto. lia.
Qed.

(** What a match of patTag is made of. *)
Lemma run_patTag (st : nat) (t : string) (m : mstate) :
  run patTag Some (MState st t []) = Some m ->
  exists n tag r,
    drop n t = "<" ++ tag ++ ">" ++ r /\ n <= String.length t /\
    all_chars (not_char "<") (take n t) = true /\
    all_chars (not_char ">") tag = true /\ tag <> EmptyString /\
    m = MState (st + n + String.length tag + 2) r
          [(2, tag); (1, take n t)].
Proof.
  unfold patTag. cbn [Cat]. rewrite run_seq, run_grp, run_lazy.
  intro H. apply lazy_try_inv in H as (n & L & A & H).
  cbn [pos rest caps] in H. rewrite run_seq in H. cbn [run rest] in H.
  destruct (drop n t) as [|a t1] eqn:D; [discriminate|].
  destruct (Ascii.eqb a "<") eqn:Ea; [|discriminate].
  apply Ascii.eqb_eq in Ea. subst a. unfold step in H. cbn [pos caps] in H.
  rewrite run_plus in H.
  destruct t1 as [|b t2]; [discriminate|].
  destruct (not_char ">" b) eqn:B; [|discriminate].
  apply greedy_try_inv in H as (n2 & L2 & A2 & H).
  cbn [pos rest caps] in H.
  destruct (drop n2 t2) as [|x r] eqn:D2; [discriminate|].
  destruct (Ascii.eqb x ">") eqn:X; [|discriminate].
  apply Ascii.eqb_eq in X. subst x. inversion H; subst. clear H.
  exists n, (String b (take n2 t2)), r.
  split; [|split; [exact L|split; [exact A|split; [|split]]]].
  - cbn [append]. rewrite D. f_equal. f_equal.
    rewrite <- (take_drop n2 t2) at 1. now rewrite D2.
  - cbn [all_chars]. now rewrite B, A2.
  - discriminate.
  - f_equal.
    + cbn [String.length]. rewrite take_length by assumption. lia.
    + assert (Q : forall a c, match a with
                              | 0 => S (a + c)
                              | S l => a + c - l
                              end = S c) by (intros [|a] c; lia).
      rewrite Q. replace (st + n - st) with n by lia. reflexivity.
Qed.



(** A match of patNextClose starts where it is looked for, and is a
    chunk without a closing bracket and then one. *)
Lemma closes_none g : forall t i c,
  all_chars (not_char ">") t = true ->
  lazy_try (not_char ">")
    (fun s' => run (Chr ">") Some
                 (MState (pos s') (rest s') ((1, g s') :: caps s'))) i t c
  = None.
Proof.
  induction t as [|a t IH]; intros i c A; cbn [lazy_try pos rest caps run].
  - reflexivity.
  - cbn [all_chars] in A. apply andb_true_iff in A as [A1 A2].
    unfold not_char in A1. apply negb_true_iff in A1. rewrite A1.
    unfold not_char. rewrite A1. cbn [negb]. auto.
Qed.

Lemma closes_some g : forall t i c,
  all_chars (not_char ">") t = false ->
  lazy_try (not_char ">")
    (fun s' => run (Chr ">") Some
                 (MState (pos s') (rest s') ((1, g s') :: caps s'))) i t c
  <> None.
Proof.
  induction t as [|a t IH]; intros i c A; cbn [lazy_try pos rest caps run].
  - discriminate.
  - cbn [all_chars] in A. unfold not_char in *.
    destruct (Ascii.eqb a ">"); [discriminate|]. cbn [negb andb] in *. auto.
Qed.

Lemma scan_patNextClose : forall t p st m,
  scan patNextClose p t = Some (st, m) ->
  exists n r,
    st = p /\ drop n t = ">" ++ r /\ n <= String.length t /\
    all_chars (not_char ">") (take n t) = true /\
    m = MState (p + n + 1) r [(1, take n t)].
Proof.
  assert (R : forall t p,
            run patNextClose Some (MState p t [])
            = lazy_try (not_char ">")
                (fun s' => run (Chr ">") Some
                   (MState (pos s') (rest s')
                      ((1, take (pos s' - p) t) :: caps s'))) p t []).
  { intros t p. unfold patNextClose. cbn [Cat].
    now rewrite run_seq, run_grp, run_lazy. }
  assert (N : forall t p, all_chars (not_char ">") t = true ->
                          scan patNextClose p t = None).
  { induction t as [|a t IH]; intros p A; cbn [scan]; rewrite R;
      rewrite (closes_none (fun s' => take (pos s' - p) _)); auto.
    cbn [all_chars] in A. apply andb_true_iff in A as [_ A]. auto. }
  intros t p st m H.
  destruct (all_chars (not_char ">") t) eqn:A; [now rewrite N in H|].
  pose proof (closes_some (fun s' => take (pos s' - p) t) t p [] A) as S.
  cbv beta in S. rewrite <- R in S.
  destruct (run patNextClose Some (MState p t [])) as [m'|] eqn:E;
    [|congruence].
  assert (H' : Some (p, m') = Some (st, m))
    by (destruct t; cbn [scan] in H; rewrite E in H; exact H).
  inversion H'; subst. clear H H' S.
  rewrite R in E. apply lazy_try_inv in E as (n & L & An & E).
  cbn [pos rest caps run] in E.
  destruct (drop n t) as [|x r] eqn:D; [discriminate|].
  destruct (Ascii.eqb x ">") eqn:X; [|discriminate].
  apply Ascii.eqb_eq in X. subst x. inversion E; subst.
  exists n, r. unfold step. cbn [pos caps].
  repeat split; auto. f_equal; [lia|].
  replace (st + n - st) with n by lia. reflexivity.
Qed.


















Lemma run_alt r1 r2 k s :
  run (Alt r1 r2) k s
  = match run r1 k s with Some m => Some m | None => run r2 k s end.
Proof. reflexivity. Qed.


Lemma run_Bos r k s :
  run (Seq Bos r) k s = if Nat.eqb (pos s) 0 then run r k s else None.
Proof. reflexivity. Qed.








(** ** What follows the root element *)


Lemma drop_append (a b : string) : drop (String.length a) (a ++ b) = b.
Proof. induction a as [|x a IH]; cbn; [now destruct b | exact IH]. Qed.

Lemma drop_app_le : forall n (a b : string), n <= String.length a ->
  drop n (a ++ b) = drop n a ++ b.
Proof.
  induction n as [|n IH]; intros a b L.
  - now destruct a, b.
  - destruct a as [|x a]; cbn in *; [lia|]. apply IH. lia.
Qed.

Lemma take_app_le : forall n (a b : string), n <= String.length a ->
  take n (a ++ b) = take n a.
Proof.
  induction n as [|n IH]; intros a b L.
  - now destruct a, b.
  - destruct a as [|x a]; cbn in *; [lia|]. f_equal. apply IH. lia.
Qed.

(** The lazy star of the characters other than [d] goes over a text
    without [d] when what follows it must start with [d]. *)
Lemma lazy_try_pass (d : ascii) (k : mstate -> option mstate) :
  (forall i a t c, Ascii.eqb a d = false -> k (MState i (String a t) c) = None) ->
  forall w i t c,
    all_chars (not_char d) w = true ->
    lazy_try (not_char d) k i (w ++ t) c
    = lazy_try (not_char d) k (i + String.length w) t c.
Proof.
  intros K. induction w as [|a w IH]; intros i t c A.
  - cbn [append String.length]. now rewrite Nat.add_0_r.
  - cbn [all_chars] in A. apply andb_true_iff in A as [A1 A2].
    cbn [append lazy_try String.length]. rewrite A1.
    unfold not_char in A1. apply negb_true_iff in A1. rewrite K by exact A1.
    rewrite IH by exact A2. now rewrite Nat.add_succ_comm.
Qed.

(** The greedy star of a class goes over a run of the class, when what
    follows accepts the text after it. *)
Lemma greedy_try_pass (p : ascii -> bool) (k : mstate -> option mstate) :
  forall w i t c m,
    all_chars p w = true ->
    greedy_try p k (i + String.length w) t c = Some m ->
    greedy_try p k i (w ++ t) c = Some m.
Proof.
  induction w as [|a w IH]; intros i t c m A H.
  - cbn [append String.length] in *. now rewrite Nat.add_0_r in H.
  - cbn [all_chars] in A. apply andb_true_iff in A as [A1 A2].
    cbn [append greedy_try String.length] in *. rewrite A1.
    rewrite (IH (S i) t c m); auto. now rewrite Nat.add_succ_comm.
Qed.

Lemma greedy_try_stop (p : ascii -> bool) (k : mstate -> option mstate)
  i a t c :
  p a = false ->
  greedy_try p k i (String a t) c = k (MState i (String a t) c).
Proof. intro P. cbn [greedy_try]. now rewrite P. Qed.

(** Where patTag matches: at the start of a text without an opening
    bracket, then a tag between its brackets. *)
Lemma run_patTag_intro (p : nat) (bf tag r : string) :
  all_chars (not_char "<") bf = true ->
  all_chars (not_char ">") tag = true -> tag <> EmptyString ->
  run patTag Some (MState p (bf ++ "<" ++ tag ++ ">" ++ r) [])
  = Some (MState (p + String.length bf + String.length tag + 2) r
            [(2, tag); (1, bf)]).
Proof.
  intros B T N. unfold patTag. cbn [Cat].
  rewrite run_seq, run_grp, run_lazy. cbn [pos rest caps].
  rewrite lazy_try_pass; auto.
  2: { intros i a t c E. cbn [pos rest caps]. rewrite run_seq.
       cbn [run rest]. now rewrite E. }
  apply lazy_try_hit. cbn [pos rest caps]. rewrite run_seq.
  cbn [append run rest Ascii.eqb Bool.eqb andb]. unfold step. cbn [pos caps].
  rewrite run_plus.
  destruct tag as [|b tag]; [congruence|].
  cbn [all_chars] in T. apply andb_true_iff in T as [T1 T2].
  cbn [append]. rewrite T1.
  apply greedy_try_pass; auto. rewrite greedy_try_stop by reflexivity.
  cbn [pos rest caps Ascii.eqb Bool.eqb andb].
  f_equal. f_equal.
  - cbn [String.length]. lia.
  - f_equal.
    + f_equal.
      replace (S (S (p + String.length bf)) + String.length tag
               - S (p + String.length bf))
        with (String.length (String b tag)) by (cbn [String.length]; lia).
      change (String b (tag ++ String ">" r))
        with (String b tag ++ String ">" r).
      apply take_append.
    + f_equal. f_equal.
      replace (p + String.length bf - p) with (String.length bf) by lia.
      apply take_append.
Qed.

Lemma span_le p : forall s, span p s <= String.length s.
Proof.
  induction s as [|a s IH]; cbn [span String.length]; [lia|].
  destruct (p a); lia.
Qed.

Lemma drop_span_stop p : forall s a t,
  drop (span p s) s = String a t -> p a = false.
Proof.
  induction s as [|x s IH]; intros a t; cbn [span]; [discriminate|].
  destruct (p x) eqn:P; cbn [drop]; [apply IH|].
  intro E. inversion E; subst. exact P.
Qed.

Lemma all_chars_false_split p : forall s,
  all_chars p s = false ->
  exists a t, drop (span p s) s = String a t /\ p a = false.
Proof.
  induction s as [|x s IH]; cbn [all_chars span]; [discriminate|].
  destruct (p x) eqn:P; cbn [andb drop]; eauto.
Qed.

Lemma all_chars_drop p : forall k s,
  all_chars p (drop k s) = false -> all_chars p s = false.
Proof.
  induction k as [|k IH]; intros s H; [now destruct s|].
  destruct s as [|x s]; [exact H|]. cbn [drop] in H. cbn [all_chars].
  rewrite (IH _ H). apply andb_false_r.
Qed.

Lemma span_app p : forall s u a t,
  drop (span p s) s = String a t ->
  span p (s ++ u) = span p s.
Proof.
  induction s as [|x s IH]; intros u a t; cbn [span]; [discriminate|].
  cbn [append span]. destruct (p x); cbn [drop]; [|reflexivity].
  intro E. f_equal. eauto.
Qed.

Lemma all_chars_app p a b :
  all_chars p (a ++ b) = all_chars p a && all_chars p b.
Proof.
  induction a as [|x a IH]; cbn [append all_chars]; [reflexivity|].
  now rewrite IH, andb_assoc.
Qed.

Lemma span_take p : forall n s,
  all_chars p (take n s) = true -> n <= String.length s ->
  (forall a t, drop n s = String a t -> p a = false) ->
  span p s = n \/ (drop n s = EmptyString /\ span p s = n).
Proof.
  induction n as [|n IH]; intros s A L D.
  - destruct s as [|a s]; [now left|]. cbn [span].
    rewrite (D a s eq_refl). now left.
  - destruct s as [|a s]; [cbn in L; lia|]. cbn [take all_chars] in A.
    apply andb_true_iff in A as [A1 A2]. cbn [span]. rewrite A1.
    cbn [String.length] in L.
    destruct (IH s A2 ltac:(lia) D) as [->|[E ->]]; auto.
Qed.

(** patTag fails at the start of a text exactly when what follows the
    text before the first opening bracket does not start a tag. *)
Lemma run_patTag_none (p : nat) (s : string) :
  run patTag Some (MState p s []) = None <->
  opens_tag (drop (span (not_char "<") s) s) = false.
Proof.
  split.
  - intro R. destruct (opens_tag _) eqn:O; [|reflexivity]. exfalso.
    unfold opens_tag in O.
    destruct (drop (span (not_char "<") s) s) as [|a [|b rest_]] eqn:D;
      try discriminate.
    apply andb_true_iff in O as [O O3]. apply andb_true_iff in O as [O1 O2].
    apply Ascii.eqb_eq in O1. subst a. apply negb_true_iff in O3.
    destruct (all_chars_false_split _ _ O3) as (c & r & D3 & C).
    unfold not_char in C. apply negb_false_iff, Ascii.eqb_eq in C. subst c.
    pose proof (run_patTag_intro p (take (span (not_char "<") s) s)
                  (String b (take (span (not_char ">") rest_) rest_)) r
                  (all_chars_take_span _ _)) as I.
    rewrite <- (take_drop (span (not_char "<") s) s) in R.
    rewrite D in R.
    rewrite <- (take_drop (span (not_char ">") rest_) rest_) in R.
    rewrite D3 in R. cbn [append] in I. rewrite I in R; [discriminate| |].
    + cbn [all_chars]. now rewrite O2, all_chars_take_span.
    + discriminate.
  - intro O. destruct (run patTag Some _) as [m|] eqn:R; [|reflexivity].
    exfalso. apply run_patTag in R as (n & tag & r & D & L & A & T & N & _).
    assert (S : span (not_char "<") s = n).
    { destruct (span_take (not_char "<") n s A L) as [S|[E _]]; auto.
      - intros a t E. rewrite D in E. cbn [append] in E.
        now inversion E.
      - rewrite D in E. discriminate. }
    rewrite S, D in O. destruct tag as [|b tag]; [congruence|].
    cbn [append opens_tag] in O. cbn [all_chars] in T.
    apply andb_true_iff in T as [T1 T2].
    rewrite T1, all_chars_app, T2 in O. discriminate.
Qed.

Lemma drop_take : forall a b s,
  drop a (take b s) = take (b - a) (drop a s).
Proof.
  induction a as [|a IH]; intros b s.
  - rewrite Nat.sub_0_r. reflexivity.
  - destruct b as [|b]; [destruct s; reflexivity|].
    destruct s as [|x s]; [cbn; now destruct (b - a)|].
    cbn [take drop Nat.sub]. apply IH.
Qed.

Lemma append_tag (bf tag r u : string) :
  (bf ++ "<" ++ tag ++ ">" ++ r) ++ u = bf ++ "<" ++ tag ++ ">" ++ r ++ u.
Proof.
  rewrite append_assoc. cbn [append]. rewrite append_assoc. reflexivity.
Qed.

Lemma run_patTag_ext (p : nat) (s u : string) (m : mstate) :
  run patTag Some (MState p s []) = Some m ->
  run patTag Some (MState p (s ++ u) []) = Some (more u m).
Proof.
  intro R. apply run_patTag in R as (n & tag & r & D & L & A & T & N & ->).
  rewrite <- (take_drop n s) at 1. rewrite D, append_tag.
  rewrite run_patTag_intro by assumption. unfold more. cbn [pos rest caps].
  now rewrite take_length by assumption.
Qed.

(** A text has a tag further on: an opening bracket at the index [k] or
    after it, and a closing bracket after that one. *)
Lemma run_patTag_later (p k : nat) (s u : string) (m : mstate) (q : nat) :
  run patTag Some (MState p s []) = None ->
  run patTag Some (MState q (drop k s) []) = Some m ->
  run patTag Some (MState p (s ++ u) []) = None.
Proof.
  intros R1 R2. apply run_patTag_none in R1. apply run_patTag_none.
  apply run_patTag in R2 as (n & tag & r & D & L & A & T & N & _).
  rewrite drop_drop in D.
  (* the text holds an opening bracket *)
  assert (F : all_chars (not_char "<") s = false).
  { apply all_chars_drop with (k := k + n). now rewrite D. }
  destruct (all_chars_false_split _ _ F) as (a & t1 & D1 & Ha).
  unfold not_char in Ha. apply negb_false_iff, Ascii.eqb_eq in Ha. subst a.
  rewrite (span_app _ _ u _ _ D1).
  rewrite drop_app_le by apply span_le. rewrite D1 in *.
  (* and a closing bracket after the first one *)
  assert (J : span (not_char "<") s <= k + n).
  { destruct (Nat.le_gt_cases (span (not_char "<") s) (k + n)) as [|G]; auto.
    exfalso.
    pose proof (all_chars_take_span (not_char "<") s) as TS.
    rewrite <- (take_drop (k + n) (take (span (not_char "<") s) s)) in TS.
    rewrite all_chars_app in TS. apply andb_true_iff in TS as [_ TS].
    assert (E : drop (k + n) (take (span (not_char "<") s) s)
                = take (span (not_char "<") s - (k + n)) (drop (k + n) s)).
    { apply drop_take. }
    rewrite E, D in TS.
    destruct (span (not_char "<") s - (k + n)) eqn:Z; [lia|].
    cbn in TS. discriminate. }
  assert (G : all_chars (not_char ">") t1 = false).
  { apply all_chars_drop with (k := k + n - span (not_char "<") s).
    assert (E : drop (k + n - span (not_char "<") s) t1
                = drop (S (k + n)) s).
    { change t1 with (drop 1 (String "<" t1)). rewrite <- D1, !drop_drop.
      f_equal. lia. }
    rewrite E.
    replace (S (k + n)) with (k + n + 1) by lia.
    rewrite <- drop_drop, D. cbn [append drop].
    rewrite all_chars_app. cbn [all_chars]. apply andb_false_r. }
  destruct t1 as [|b rest_]; [discriminate|].
  cbn [append opens_tag all_chars Ascii.eqb Bool.eqb andb] in *.
  destruct (not_char ">" b); cbn [andb] in *; [|reflexivity].
  rewrite G in R1. discriminate.
Qed.

Lemma scan_found (r : re) : forall s p st m,
  scan r p s = Some (st, m) ->
  exists k, st = p + k /\ k <= String.length s /\
            run r Some (MState (p + k) (drop k s) []) = Some m.
Proof.
  induction s as [|a s IH]; intros p st m H; cbn [scan] in H.
  - destruct (run r Some (MState p "" [])) as [m'|] eqn:R; [|discriminate].
    inversion H; subst. exists 0. rewrite Nat.add_0_r. auto.
  - destruct (run r Some (MState p (String a s) [])) as [m'|] eqn:R.
    + inversion H; subst. exists 0. rewrite Nat.add_0_r.
      cbn [drop String.length]. repeat split; auto. lia.
    + apply IH in H as (k & -> & L & H). exists (S k).
      cbn [drop String.length]. rewrite <- Nat.add_succ_comm.
      repeat split; auto. lia.
Qed.

Lemma scan_patTag_ext (u : string) : forall s p st m,
  scan patTag p s = Some (st, m) ->
  scan patTag p (s ++ u) = Some (st, more u m).
Proof.
  induction s as [|a s IH]; intros p st m H.
  - cbn [scan] in H.
    destruct (run patTag Some (MState p "" [])) as [m'|] eqn:R;
      [|discriminate].
    inversion H; subst. apply run_patTag_ext with (u := u) in R.
    apply scan_hit. exact R.
  - cbn [scan] in H.
    destruct (run patTag Some (MState p (String a s) [])) as [m'|] eqn:R.
    + inversion H; subst. apply run_patTag_ext with (u := u) in R.
      apply scan_hit. exact R.
    + pose proof (scan_found _ _ _ _ _ H) as (k & _ & _ & F).
      apply (run_patTag_later p (S k) (String a s) u m (S p + k)) in R;
        [|exact F].
      cbn [append scan]. cbn [append] in R. rewrite R. auto.
Qed.

Lemma exec_patTag_ext (t u : string) (i st : nat) (m : mstate) :
  exec patTag t i = Some (st, m) ->
  exec patTag (t ++ u) i = Some (st, more u m).
Proof.
  unfold exec. rewrite length_append.
  destruct (Nat.ltb (String.length t) i) eqn:L; [discriminate|].
  apply Nat.ltb_ge in L.
  replace (Nat.ltb (String.length t + String.length u) i) with false
    by (symmetry; apply Nat.ltb_ge; lia).
  rewrite drop_app_le by assumption. apply scan_patTag_ext.
Qed.

(** The same for patNextClose. *)
Lemma run_patNextClose_intro (p : nat) (w r : string) :
  all_chars (not_char ">") w = true ->
  run patNextClose Some (MState p (w ++ ">" ++ r) [])
  = Some (MState (p + String.length w + 1) r [(1, w)]).
Proof.
  intro A. unfold patNextClose. cbn [Cat].
  rewrite run_seq, run_grp, run_lazy. cbn [pos rest caps].
  rewrite lazy_try_pass; auto.
  2: { intros i a t c E. cbn [pos rest caps run]. now rewrite E. }
  apply lazy_try_hit.
  cbn [pos rest caps append run Ascii.eqb Bool.eqb andb]. unfold step.
  cbn [pos caps]. f_equal. f_equal; [lia|].
  replace (p + String.length w - p) with (String.length w) by lia.
  now rewrite take_append.
Qed.

Lemma exec_patNextClose_ext (t u : string) (i st : nat) (m : mstate) :
  exec patNextClose t i = Some (st, m) ->
  exec patNextClose (t ++ u) i = Some (st, more u m).
Proof.
  unfold exec. rewrite length_append.
  destruct (Nat.ltb (String.length t) i) eqn:L; [discriminate|].
  apply Nat.ltb_ge in L.
  replace (Nat.ltb (String.length t + String.length u) i) with false
    by (symmetry; apply Nat.ltb_ge; lia).
  rewrite drop_app_le by assumption. intro H.
  apply scan_patNextClose in H as (n & r & -> & D & Ln & A & ->).
  apply scan_hit. rewrite <- (take_drop n (drop i t)) at 1. rewrite D.
  rewrite append_assoc. cbn [append].
  pose proof (run_patNextClose_intro i _ (r ++ u) A) as I.
  cbn [append] in I. rewrite I. unfold more.
  cbn [pos rest caps]. now rewrite take_length by assumption.
Qed.

Lemma group_more u n m : group n (more u m) = group n m.
Proof. reflexivity. Qed.

(** The loop of the comment, DTD and CDATA parsers reads the same from a
    longer text when it ends well. *)
Lemma next_close_loop_ext (u : string) patEnd unclosed :
  forall fuel tag i p r,
    next_close_loop fuel patEnd unclosed tag i p = Ok r p ->
    forall fuel', fuel <= fuel' ->
      next_close_loop fuel' patEnd unclosed tag i (with_more u p)
      = Ok r (with_more u p).
Proof.
  induction fuel as [|fuel IH]; intros tag i p r H fuel' F.
  - cbn [next_close_loop] in H. destruct (test patEnd tag) eqn:T;
      [|discriminate].
    destruct fuel'; cbn [next_close_loop]; rewrite T; now inversion H.
  - cbn [next_close_loop] in H. destruct fuel' as [|fuel']; [lia|].
    cbn [next_close_loop]. destruct (test patEnd tag); [now inversion H|].
    destruct (exec patNextClose (text p) i) as [[st m]|] eqn:E.
    + cbn [with_more text]. rewrite (exec_patNextClose_ext _ u _ _ _ E).
      rewrite group_more. apply IH; [exact H | lia].
    + rewrite throwParseError_eq in H. discriminate.
Qed.

Lemma next_close_loop_same patEnd unclosed : forall fuel tag i p r q,
  next_close_loop fuel patEnd unclosed tag i p = Ok r q -> q = p.
Proof.
  induction fuel as [|fuel IH]; intros tag i p r q; cbn [next_close_loop];
    destruct (test patEnd tag); try discriminate;
    try (intro H; now inversion H).
  destruct (exec patNextClose (text p) i) as [[st m]|]; [apply IH|].
  rewrite throwParseError_eq. discriminate.
Qed.

Section Longer.

Variable u : string.

Lemma parsePINode_ext tag p a q :
  parsePINode tag p = Ok a q ->
  parsePINode tag (with_more u p) = Ok a (with_more u q).
Proof.
  unfold parsePINode. destruct (negb _).
  - rewrite throwParseError_eq. discriminate.
  - intro H. inversion H; subst. reflexivity.
Qed.

Lemma parseCommentNode_ext tag p a q :
  parseCommentNode tag p = Ok a q ->
  parseCommentNode tag (with_more u p) = Ok a (with_more u q).
Proof.
  unfold parseCommentNode.
  destruct (next_close_loop _ _ _ _ _ p) as [r p'| |] eqn:N;
    cbn [bind]; try discriminate.
  pose proof (next_close_loop_same _ _ _ _ _ _ _ _ N). subst p'.
  intro H. inversion H; subst.
  rewrite (next_close_loop_ext u _ _ _ _ _ _ _ N).
  - reflexivity.
  - cbn [with_more text]. rewrite length_append. lia.
Qed.

Lemma parseDTDNode_ext tag p a q :
  parseDTDNode tag p = Ok a q ->
  parseDTDNode tag (with_more u p) = Ok a (with_more u q).
Proof.
  unfold parseDTDNode. destruct (test patExternalDTDNode tag).
  { intro H. inversion H; subst. reflexivity. }
  destruct (test patInlineDTDNode tag).
  2: { rewrite throwParseError_eq. discriminate. }
  destruct (next_close_loop _ _ _ _ _ p) as [r p'| |] eqn:N;
    cbn [bind]; try discriminate.
  pose proof (next_close_loop_same _ _ _ _ _ _ _ _ N). subst p'.
  rewrite (next_close_loop_ext u _ _ _ _ _ _ _ N)
    by (cbn [with_more text]; rewrite length_append; lia).
  cbn [bind]. destruct (test patDTDNode (fst r)).
  - intro H. inversion H; subst. reflexivity.
  - rewrite throwParseError_eq. discriminate.
Qed.

Lemma parseCDATANode_ext tag p a q :
  parseCDATANode tag p = Ok a q ->
  parseCDATANode tag (with_more u p) = Ok a (with_more u q).
Proof.
  unfold parseCDATANode.
  destruct (next_close_loop _ _ _ _ _ p) as [r p'| |] eqn:N;
    cbn [bind]; try discriminate.
  pose proof (next_close_loop_same _ _ _ _ _ _ _ _ N). subst p'.
  rewrite (next_close_loop_ext u _ _ _ _ _ _ _ N)
    by (cbn [with_more text]; rewrite length_append; lia).
  cbn [bind]. destruct (matches patCDATANode (fst r)).
  - intro H. inversion H; subst. reflexivity.
  - rewrite throwParseError_eq. discriminate.
Qed.

Lemma append_data_more p s b :
  append_data (with_more u p) s b
  = map_state (with_more u) (append_data p s b).
Proof.
  unfold append_data. cbn [with_more opts].
  destruct (obj_get _ b) as [v|]; [destruct (to_str v)|destruct (inherited _)];
    reflexivity.
Qed.

Lemma new_leaf_more p raw : new_leaf (with_more u p) raw = new_leaf p raw.
Proof. reflexivity. Qed.

Lemma compress_more p leaf : compress (with_more u p) leaf = compress p leaf.
Proof. reflexivity. Qed.

Lemma add_leaf_more p top n leaf b :
  add_leaf (with_more u p) top n leaf b = add_leaf p top n leaf b.
Proof. reflexivity. Qed.

Lemma parse_loop_ext : forall fuel top name branch p b f q,
  parse_loop fuel top name branch p = Ok (b, f) q -> lastIndex q <> 0 ->
  forall fuel', fuel <= fuel' ->
    parse_loop fuel' top name branch (with_more u p)
    = Ok (b, f) (with_more u q).
Proof.
  induction fuel as [|fuel IH]; intros top name branch p b f q H Q fuel' F;
    [discriminate|].
  destruct fuel' as [|fuel']; [lia|]. apply le_S_n in F.
  cbn [parse_loop] in *.
  destruct (exec patTag (text p) (lastIndex p)) as [[st m]|] eqn:E.
  2: { inversion H; subst. now destruct Q. }
  cbn [with_more text lastIndex]. rewrite (exec_patTag_ext _ u _ _ _ E).
  rewrite !group_more.
  change (pos (more u m)) with (pos m).
  set (p1 := set_lastIndex (pos m) p) in *.
  change (set_lastIndex (pos m) (with_more u p)) with (with_more u p1).
  change (opts (with_more u p1)) with (opts p1).
  rewrite ?append_data_more, ?new_leaf_more.
  clearbody p1. clear E.
  assert (TS : (if test (Cls non_ws) (group 1 m)
                then map_state (with_more u) (append_data p1 (group 1 m) branch)
                else Ok branch (with_more u p1))
               = map_state (with_more u)
                   (if test (Cls non_ws) (group 1 m)
                    then append_data p1 (group 1 m) branch
                    else Ok branch p1))
    by (destruct (test (Cls non_ws) (group 1 m)); reflexivity).
  rewrite TS. clear TS.
  pose proof (text_step p1 (group 1 m) branch) as TS.
  destruct (if test (Cls non_ws) (group 1 m) then _ else _)
    as [b1 p1'| |]; cbn [bind map_state] in *; try discriminate.
  destruct TS as (-> & _).
  change (opts (with_more u p1)) with (opts p1).
  rewrite ?new_leaf_more.
  assert (Special : forall (r r' : result string),
            (forall a p2, r = Ok a p2 -> r' = Ok a (with_more u p2)) ->
            bind r (fun _ q' => parse_loop fuel top name b1 q') = Ok (b, f) q ->
            bind r' (fun _ q' => parse_loop fuel' top name b1 q')
            = Ok (b, f) (with_more u q)).
  { intros r r' R B. destruct r as [a p2| |]; try discriminate.
    rewrite (R a p2 eq_refl). cbn [bind] in *. now apply IH. }
  destruct (test patSpecialTag (group 2 m)).
  - destruct (test patPITag (group 2 m));
      [apply (Special (parsePINode (group 2 m) p1));
         [intros; now apply parsePINode_ext | exact H]|].
    destruct (test patCommentTag (group 2 m));
      [apply (Special (parseCommentNode (group 2 m) p1));
         [intros; now apply parseCommentNode_ext | exact H]|].
    destruct (test patDTDTag (group 2 m));
      [apply (Special (parseDTDNode (group 2 m) p1));
         [intros; now apply parseDTDNode_ext | exact H]|].
    destruct (test patCDATATag (group 2 m)).
    + destruct (parseCDATANode (group 2 m) p1) as [a p2| |] eqn:C;
        try discriminate.
      rewrite (parseCDATANode_ext _ _ _ _ C). cbn [bind] in *.
      rewrite append_data_more.
      destruct (append_data p2 a b1) as [b2 p2'| |];
        cbn [bind map_state] in *; try discriminate.
      now apply IH.
    + rewrite throwParseError_eq in H. discriminate.
  - destruct (matches patStandardTag (group 2 m)) as [ms|] eqn:M.
    2: { rewrite throwParseError_eq in H. discriminate. }
    pose proof (node_name_truthy (lowerCase (opts p1)) _ _ M) as N.
    set (nodeName := if lowerCase (opts p1) then toLowerCase (group 2 ms)
                     else group 2 ms) in *.
    clearbody nodeName.
    destruct (negb (String.eqb (group 1 ms) EmptyString)).
    + destruct (String.eqb nodeName _).
      * inversion H; subst. reflexivity.
      * rewrite throwParseError_eq in H. discriminate.
    + assert (After : forall leaf p2,
                match add_leaf p2 top nodeName (compress p2 leaf) b1 with
                | Some b2 =>
                    if top then Ok (b2, false) p2
                    else parse_loop fuel top name b2 p2
                | None => Throw Beyond p2
                end = Ok (b, f) q ->
                match add_leaf (with_more u p2) top nodeName
                        (compress (with_more u p2) leaf) b1 with
                | Some b2 =>
                    if top then Ok (b2, false) (with_more u p2)
                    else parse_loop fuel' top name b2 (with_more u p2)
                | None => Throw Beyond (with_more u p2)
                end = Ok (b, f) (with_more u q)).
      { intros leaf p2 A. rewrite add_leaf_more, compress_more.
        destruct (add_leaf p2 top nodeName (compress p2 leaf) b1) as [b2|];
          [|discriminate].
        destruct top; [inversion A; subst; reflexivity|]. now apply IH. }
      destruct (test patSelfClosing (group 3 ms)).
      * cbn [bind] in *. now apply After.
      * destruct (parse_loop fuel false (Some nodeName) _ p1)
          as [[leaf found] p2| |] eqn:L;
          cbn [finish bind fst snd] in H; try discriminate.
        rewrite N in H. destruct found; cbn [negb andb bind] in H.
        2: { rewrite throwParseError_eq in H. discriminate. }
        pose proof (parse_loop_gen_ok False fuel false (Some nodeName)
                      (new_leaf p1 (group 3 ms)) p1) as G.
        rewrite L in G. cbn [gen_ok] in G.
        destruct G as (_ & G); [intros []|]. specialize (G eq_refl).
        rewrite (IH _ _ _ _ _ _ _ L) by (auto; lia).
        cbn [finish bind fst snd]. rewrite N. cbn [negb andb bind].
        now apply After.
Qed.

End Longer.

(** The test of line 55 looks at the start of the text only. *)
Lemma starts_like_xml_ext (u : string) : forall t i c,
  greedy_try ws (run (Chr "<") Some) i t c <> None ->
  greedy_try ws (run (Chr "<") Some) i (t ++ u) c <> None.
Proof.
  induction t as [|a t IH]; intros i c H.
  - now destruct H.
  - cbn [append greedy_try] in *. destruct (ws a).
    + destruct (greedy_try ws _ (S i) t c) eqn:G.
      * specialize (IH (S i) c). rewrite G in IH.
        destruct (greedy_try ws _ (S i) (t ++ u) c); [discriminate|].
        now destruct IH.
      * destruct (greedy_try ws _ (S i) (t ++ u) c); [discriminate|].
        cbn [run rest] in *. now destruct (Ascii.eqb a "<").
    + cbn [run rest] in *. now destruct (Ascii.eqb a "<").
Qed.

Lemma test_inline_ext (t u : string) :
  test (Cat [Bos; star ws; Chr "<"]) t = true ->
  test (Cat [Bos; star ws; Chr "<"]) (t ++ u) = true.
Proof.
  unfold test, exec. cbn [Nat.ltb Nat.leb drop Cat].
  intro H.
  assert (R : run (Seq Bos (Seq (star ws) (Chr "<"))) Some (MState 0 t [])
              <> None).
  { destruct t as [|a t]; cbn [scan] in H.
    - now destruct (run _ Some (MState 0 EmptyString [])).
    - destruct (run _ Some (MState 0 (String a t) [])); [discriminate|].
      now rewrite scan_Bos_later in H. }
  rewrite run_Bos, run_seq, run_star in R. cbn [pos Nat.eqb] in R.
  apply (starts_like_xml_ext u) in R.
  destruct (greedy_try ws _ 0 (t ++ u) []) as [m|] eqn:G; [|now destruct R].
  rewrite (scan_hit _ 0 (t ++ u) m); [reflexivity|].
  now rewrite run_Bos, run_seq, run_star.
Qed.

Lemma only_data_gone k b : only_data k b -> obj_delete k b = [].
Proof.
  intros [->|[v ->]]; cbn [obj_delete]; [|rewrite String.eqb_refl]; auto.
Qed.

(** The top-level loop stops with the scan position at 0 only where it
    found no element. *)
Lemma top_loop_no_element : forall fuel p b0 b f q,
  only_data (dataKey (opts p)) b0 ->
  parse_loop fuel true None b0 p = Ok (b, f) q -> lastIndex q = 0 ->
  only_data (dataKey (opts p)) b.
Proof.
  induction fuel as [|fuel IH]; intros p b0 b f q T H Z; [discriminate|].
  cbn [parse_loop] in H.
  destruct (exec patTag (text p) (lastIndex p)) as [[st m]|] eqn:E.
  2: { inversion H; subst. exact T. }
  apply exec_pos in E. rewrite min_len_patTag in E.
  set (p1 := set_lastIndex (pos m) p) in *.
  assert (O1 : opts p1 = opts p) by reflexivity.
  assert (L1 : 0 < lastIndex p1) by (cbn [p1 set_lastIndex lastIndex]; lia).
  clearbody p1. clear E.
  pose proof (text_step p1 (group 1 m) b0) as TS.
  destruct (if test (Cls non_ws) (group 1 m) then _ else _)
    as [b1 p1'| |]; cbn [bind] in H; try discriminate.
  destruct TS as (-> & TS).
  assert (T1 : only_data (dataKey (opts p1)) b1).
  { rewrite O1. eapply texted_only; [exact O1 | exact TS | exact T]. }
  assert (Special : forall (r : result string),
            step_ok p1 r ->
            bind r (fun _ q' => parse_loop fuel true None b1 q') = Ok (b, f) q ->
            only_data (dataKey (opts p)) b).
  { intros r R B. destruct r as [a p2| |]; try discriminate.
    cbn [bind step_ok] in *. destruct R as ((R & _) & _).
    rewrite <- O1, <- R. apply (IH p2 b1 b f q); auto. now rewrite R. }
  destruct (test patSpecialTag (group 2 m)).
  - destruct (test patPITag (group 2 m));
      [apply (Special _ (parsePINode_ok _ _) H)|].
    destruct (test patCommentTag (group 2 m));
      [apply (Special _ (parseCommentNode_ok _ _) H)|].
    destruct (test patDTDTag (group 2 m));
      [apply (Special _ (parseDTDNode_ok _ _) H)|].
    destruct (test patCDATATag (group 2 m)).
    + pose proof (parseCDATANode_ok (group 2 m) p1) as R.
      destruct (parseCDATANode (group 2 m) p1) as [a p2| |]; try discriminate.
      cbn [bind step_ok] in *. destruct R as ((R & _) & _).
      destruct (append_data p2 a b1) as [b2 p2'| |] eqn:A; cbn [bind] in H;
        try discriminate.
      pose proof (append_data_same _ _ _ _ _ A). subst p2'.
      rewrite <- O1, <- R. apply (IH p2 b2 b f q); auto.
      eapply append_data_only; [exact A|]. now rewrite R.
    + rewrite throwParseError_eq in H. discriminate.
  - destruct (matches patStandardTag (group 2 m)) as [ms|] eqn:M.
    2: { rewrite throwParseError_eq in H. discriminate. }
    pose proof (node_name_truthy (lowerCase (opts p1)) _ _ M) as N.
    set (nodeName := if lowerCase (opts p1) then toLowerCase (group 2 ms)
                     else group 2 ms) in *.
    clearbody nodeName.
    destruct (negb (String.eqb (group 1 ms) EmptyString)).
    + destruct nodeName; [discriminate|]. cbn [String.eqb] in H.
      rewrite throwParseError_eq in H. discriminate.
    + destruct (test patSelfClosing (group 3 ms)).
      * cbn [bind] in H.
        destruct (add_leaf p1 true nodeName _ b1); [|discriminate].
        inversion H; subst. lia.
      * pose proof (finish_nested_ok False p1 nodeName
                      (parse_loop fuel false (Some nodeName)
                         (new_leaf p1 (group 3 ms)) p1) N
                      (parse_loop_gen_ok False _ _ _ _ _
                         ltac:(intros []))) as G.
        destruct (finish false (Some nodeName) _) as [leaf p2| |];
          try discriminate.
        cbn [bind] in H.
        destruct (add_leaf p2 true nodeName _ b1); [|discriminate].
        inversion H; subst. lia.
Qed.

(** X13.  What follows the root element is not read (lines 113 and
    223): a text given inline that parses to a tree other than the empty
    object parses to the same tree with anything appended to it. *)
Theorem text_after_root_is_not_read
  (fs : string -> option string) (t u : string) (o : options) (v : value) :
  test (Cat [Bos; star ws; Chr "<"]) t = true ->
  parse_xml fs t o = Returned v -> v <> Hash [] ->
  parse_xml fs (t ++ u) o = Returned v.
Proof.
  intros I H V. unfold parse_xml, XML_new, load in *.
  rewrite (test_inline_ext _ u I). rewrite I in H.
  destruct t as [|a t]; [discriminate|]. cbn [append].
  change (String a (t ++ u)) with (String a t ++ u).
  set (s := String a t) in *. clearbody s. clear I a t.
  destruct (keys_beyond (effective o)); [discriminate|].
  unfold parse in *.
  destruct (parse_loop (S (String.length s)) true None [] (new_parser o s))
    as [[b f] q|e q|] eqn:L; cbn [finish bind fst snd] in H;
    [|destruct e; discriminate|discriminate].
  assert (Q : lastIndex q <> 0).
  { intro Z.
    pose proof (top_loop_no_element _ _ _ _ _ _ (or_introl eq_refl) L Z) as T.
    pose proof (parse_loop_gen_ok False (S (String.length s)) true None []
                  (new_parser o s)
                  ltac:(intros [])) as G.
    rewrite L in G. destruct G as ((G & _ & GE) & _). rewrite <- G in T.
    apply only_data_gone in T.
    cbn [truthy_name andb] in H. rewrite T in H.
    cbn [num_keys List.length Nat.ltb Nat.leb first_key truthy_name andb
         bind set_tree error_count errors tree] in H.
    destruct (Nat.eqb _ 0) eqn:Er in H; inversion H; subst.
    - now destruct V.
    - rewrite GE in Er. discriminate. }
  change (new_parser o (s ++ u)) with (with_more u (new_parser o s)).
  rewrite (parse_loop_ext u _ _ _ _ _ _ _ _ L Q (S (String.length (s ++ u))))
    by (rewrite length_append; lia).
  cbn [finish bind fst snd truthy_name andb] in *.
  change (opts (with_more u q)) with (opts q).
  destruct (Nat.ltb 1 _).
  - rewrite throwParseError_eq in H. discriminate.
  - destruct (truthy_name _ && negb _);
      [destruct (obj_get _ _)|]; cbn [bind] in *; exact H.
Qed.

Lemma text_after_root_is_not_read_witness :
  parse_xml no_files ("<a>1</a>" ++ "</b> and more") default_options
  = Returned (Str "1").
Proof.
  apply (text_after_root_is_not_read no_files "<a>1</a>" "</b> and more"
           default_options (Str "1")).
  - vm_compute; reflexivity.
  - vm_compute; reflexivity.
  - discriminate.
Defined.

(** ** Writing an element and reading it back *)

(** The greedy loop takes all of [w] when what follows is not in the
    class and the rest of the pattern matches there. *)
Lemma greedy_try_exact (p : ascii -> bool) (k : mstate -> option mstate)
  (w t : string) (i : nat) (c : list (nat * string)) (m : mstate) :
  all_chars p w = true ->
  match t with String a _ => p a = false | EmptyString => True end ->
  k (MState (i + String.length w) t c) = Some m ->
  greedy_try p k i (w ++ t) c = Some m.
Proof.
  intros A T K. apply greedy_try_pass; auto.
  destruct t as [|a t]; [exact K|]. now rewrite greedy_try_stop.
Qed.

Lemma greedy_try_all (p : ascii -> bool) (k : mstate -> option mstate)
  (t : string) (i : nat) (c : list (nat * string)) (m : mstate) :
  all_chars p t = true ->
  k (MState (i + String.length t) EmptyString c) = Some m ->
  greedy_try p k i t c = Some m.
Proof.
  intros A K. rewrite <- (append_nil_r t).
  now apply greedy_try_exact.
Qed.

Lemma all_chars_any (t : string) : all_chars any t = true.
Proof. induction t; cbn [all_chars any andb]; auto. Qed.

Lemma all_chars_weaken (p q : ascii -> bool) :
  (forall a, p a = true -> q a = true) ->
  forall t, all_chars p t = true -> all_chars q t = true.
Proof.
  intros W. induction t as [|a t IH]; cbn [all_chars]; auto.
  intro H. apply andb_true_iff in H as [H1 H2].
  now rewrite (W a H1), IH.
Qed.

Lemma name_char_plain (a : ascii) :
  name_char a = true ->
  ws a = false /\ not_char "<" a = true /\ not_char ">" a = true /\
  is_char "!" a = false /\ is_char "?" a = false /\ is_char "/" a = false.
Proof.
  destruct a as [[] [] [] [] [] [] [] []]; vm_compute; intuition congruence.
Qed.

Lemma ws_plain (a : ascii) :
  ws a = true ->
  name_char a = false /\ not_char "<" a = true /\ is_char "&" a = false.
Proof.
  destruct a as [[] [] [] [] [] [] [] []]; vm_compute; intuition congruence.
Qed.

(** test on a pattern with ^ looks at index 0 only. *)
Lemma test_Bos (r : re) (t : string) :
  test (Seq Bos r) t
  = match run r Some (MState 0 t []) with Some _ => true | None => false end.
Proof.
  unfold test, exec. cbn [Nat.ltb Nat.leb drop].
  destruct t as [|a t]; cbn [scan]; rewrite run_Bos; cbn [pos Nat.eqb].
  - now destruct (run r Some _).
  - destruct (run r Some _); [reflexivity|]. now rewrite scan_Bos_later.
Qed.

Lemma matches_Bos (r : re) (t : string) :
  matches (Seq Bos r) t = run r Some (MState 0 t []).
Proof.
  unfold matches, exec. cbn [Nat.ltb Nat.leb drop].
  destruct t as [|a t]; cbn [scan]; rewrite run_Bos; cbn [pos Nat.eqb].
  - now destruct (run r Some _).
  - destruct (run r Some _); [reflexivity|]. now rewrite scan_Bos_later.
Qed.

(** \S is found in a text unless the text is white space. *)
Lemma test_non_ws (t : string) :
  test (Cls non_ws) t = negb (all_chars ws t).
Proof.
  unfold test, exec. cbn [Nat.ltb Nat.leb drop].
  generalize 0 as p.
  induction t as [|a t IH]; intro p; [reflexivity|].
  cbn [scan run rest all_chars]. unfold non_ws at 1.
  destruct (ws a); cbn [negb andb]; [apply IH | reflexivity].
Qed.

(** A tag that starts with a name character or a slash is no special
    tag. *)
Lemma special_tag_miss (a : ascii) (t : string) :
  ws a = false -> is_char "!" a = false -> is_char "?" a = false ->
  test patSpecialTag (String a t) = false.
Proof.
  intros W E Q. unfold patSpecialTag. cbn [Cat]. rewrite test_Bos.
  rewrite run_seq, run_star, greedy_try_stop by assumption.
  rewrite run_grp. cbn [run rest]. now rewrite E, Q.
Qed.

Lemma run_Chr (x : ascii) (k : mstate -> option mstate) i a t c :
  run (Chr x) k (MState i (String a t) c)
  = if Ascii.eqb a x then k (MState (S i) t c) else None.
Proof. reflexivity. Qed.

Lemma run_Eps (k : mstate -> option mstate) s : run Eps k s = k s.
Proof. reflexivity. Qed.


Lemma take_all : forall s, take (String.length s) s = s.
Proof. induction s as [|a s IH]; cbn [String.length take]; congruence. Qed.

(** What patStandardTag captures in a tag made of an optional slash, a
    name, white space and the text of the attributes. *)
Lemma matches_standard_tag (sl name w attrs : string) :
  sl = EmptyString \/ sl = "/" ->
  name <> EmptyString -> all_chars name_char name = true ->
  all_chars ws w = true ->
  match w with
  | EmptyString => attrs = EmptyString
  | _ => match attrs with String a _ => ws a = false | _ => True end
  end ->
  exists ms, matches patStandardTag (sl ++ name ++ w ++ attrs) = Some ms /\
             group 1 ms = sl /\ group 2 ms = name /\ group 3 ms = attrs.
Proof.
  intros Hs N A W T.
  unfold patStandardTag. cbn [Cat]. rewrite matches_Bos.
  destruct name as [|a name]; [now destruct N|]. clear N.
  cbn [all_chars] in A. apply andb_true_iff in A as [A1 A2].
  destruct (name_char_plain a A1) as (P1 & _ & _ & _ & _ & P6).
  rewrite run_seq, run_star.
  assert (Tail : forall i c,
            exists ms,
              run (Seq (Grp 2 (plus name_char))
                     (Seq (star ws) (Seq (Grp 3 (star any)) Eos)))
                Some (MState i (String a (name ++ w ++ attrs)) c) = Some ms /\
              caps ms = (3, attrs) :: (2, String a name) :: c).
  { intros i c. eexists. rewrite run_seq, run_grp, run_plus.
    cbn [pos rest]. rewrite A1.
    split.
    - apply greedy_try_exact; auto.
      { destruct w as [|b w].
        - subst attrs. exact I.
        - cbn [append]. cbn [all_chars] in W.
          apply andb_true_iff in W as [W1 _]. now apply ws_plain in W1. }
      cbn [pos rest caps]. rewrite run_seq, run_star.
      apply greedy_try_exact; auto.
      { destruct w; [subst attrs; exact I|exact T]. }
      rewrite run_seq, run_grp. unfold star at 1.
      fold (star any). rewrite run_star.
      apply greedy_try_all; [apply all_chars_any|].
      cbn [pos rest caps run]. reflexivity.
    - cbn [caps]. repeat f_equal.
      + replace (S i + String.length name + String.length w
                 + String.length attrs - (S i + String.length name
                                          + String.length w))
          with (String.length attrs) by lia.
        apply take_all.
      + replace (S i + String.length name - i)
          with (String.length (String a name)) by (cbn [String.length]; lia).
        apply (take_append (String a name)). }
  destruct Hs as [-> | ->].
  - cbn [append]. rewrite greedy_try_stop by assumption.
    rewrite run_seq, run_grp. unfold Opt. rewrite run_alt, run_Chr, run_Eps.
    unfold is_char in P6. rewrite P6. cbn [pos rest caps].
    destruct (Tail 0 [(1, take (0 - 0) (String a (name ++ w ++ attrs)))])
      as (ms & R & C).
    exists ms. split; [exact R|]. unfold group, cap. rewrite C.
    cbn. auto.
  - cbn [append]. rewrite greedy_try_stop by reflexivity.
    rewrite run_seq, run_grp. unfold Opt. rewrite run_alt, run_Chr.
    cbn [Ascii.eqb Bool.eqb pos rest caps].
    destruct (Tail 1 [(1, take (1 - 0)
                            (String "/" (String a (name ++ w ++ attrs))))])
      as (ms & R & C).
    exists ms. rewrite R. split; [reflexivity|]. unfold group, cap. rewrite C.
    cbn. auto.
Qed.

(** Where patTag matches from index [i] on: after the text before the
    next opening bracket, the tag between its brackets. *)
Lemma exec_patTag_intro (T pre bf tag r : string) (i : nat) :
  T = pre ++ bf ++ "<" ++ tag ++ ">" ++ r -> i = String.length pre ->
  all_chars (not_char "<") bf = true ->
  all_chars (not_char ">") tag = true -> tag <> EmptyString ->
  exists m,
    exec patTag T i = Some (i, m) /\ group 1 m = bf /\ group 2 m = tag /\
    pos m = i + String.length bf + String.length tag + 2.
Proof.
  intros -> -> B G N. unfold exec.
  replace (Nat.ltb _ _) with false
    by (symmetry; apply Nat.ltb_ge; rewrite length_append; lia).
  rewrite drop_append. eexists. split.
  - apply scan_hit. now apply run_patTag_intro.
  - repeat split.
Qed.

Lemma stringify_str (c : composer) (s name : string) :
  name <> EmptyString ->
  stringify c (Str s) name
  = Done (xml_header ++ or_default nl (eol c) ++ "<" ++ name ++ ">" ++ s
            ++ "</" ++ name ++ ">" ++ or_default nl (eol c)) (Str s).
Proof.
  intro N. destruct name as [|a name]; [now destruct N|].
  unfold stringify. cbn [height compose_xml compose_node repeat_string].
  now rewrite append_assoc.
Qed.

Lemma drop_span_all (p : ascii -> bool) : forall s,
  all_chars p s = true -> drop (span p s) s = EmptyString.
Proof.
  induction s as [|a s IH]; [reflexivity|]. cbn [all_chars span].
  intro A. apply andb_true_iff in A as [A1 A2]. rewrite A1. cbn [drop]. auto.
Qed.

Lemma trim_white (s : string) : all_chars ws s = true -> trim s = EmptyString.
Proof.
  intro A. destruct s as [|a s]; [reflexivity|]. unfold trim.
  rewrite ltrim_drop, drop_span_all by assumption. reflexivity.
Qed.

Lemma decode_white (s : string) :
  all_chars ws s = true -> decode_entities s = s.
Proof.
  intro A. destruct s as [|a s]; [reflexivity|]. unfold decode_entities.
  replace (test (Chr "&") (String a s)) with false; [reflexivity|].
  symmetry. unfold test, exec. cbn [Nat.ltb Nat.leb drop].
  generalize 0 as p. revert A. generalize (String a s) as t. clear.
  induction t as [|a t IH]; intros A p; [reflexivity|].
  cbn [all_chars] in A. apply andb_true_iff in A as [A1 A2].
  cbn [scan run rest]. apply ws_plain in A1 as (_ & _ & A1).
  unfold is_char in A1. rewrite A1. now apply IH.
Qed.

(** The text step depends on the options of the parser only. *)
Lemma append_data_opts p q s b b1 :
  opts q = opts p -> append_data p s b = Ok b1 p ->
  append_data q s b = Ok b1 q.
Proof.
  unfold append_data. intros ->.
  destruct (obj_get _ b) as [v|]; [destruct (to_str v)|destruct (inherited _)];
    try discriminate; now intros [= <-].
Qed.

Lemma text_step_opts p q s b b1 :
  opts q = opts p ->
  (if test (Cls non_ws) s then append_data p s b else Ok b p) = Ok b1 p ->
  (if test (Cls non_ws) s then append_data q s b else Ok b q) = Ok b1 q.
Proof.
  intro O. destruct (test (Cls non_ws) s).
  - now apply append_data_opts.
  - now intros [= <-].
Qed.

(** One round of the main loop, for each kind of tag met below, when
    the text before the tag is added and leaves the branch [b1]. *)
Section Rounds.

Variables (fuel st : nat) (top : bool) (name : option string).
Variables (branch b1 : obj) (p : XML) (m : mstate).
Hypothesis E : exec patTag (text p) (lastIndex p) = Some (st, m).
Hypothesis Tx :
  (if test (Cls non_ws) (group 1 m)
   then append_data (set_lastIndex (pos m) p) (group 1 m) branch
   else Ok branch (set_lastIndex (pos m) p))
  = Ok b1 (set_lastIndex (pos m) p).

Lemma round_instruction :
  test patSpecialTag (group 2 m) = true -> test patPITag (group 2 m) = true ->
  test patPINode (group 2 m) = true ->
  parse_loop (S fuel) top name branch p
  = parse_loop fuel top name b1
      (push_pi (group 2 m) (set_lastIndex (pos m) p)).
Proof.
  intros A B C. cbn [parse_loop]. rewrite E, Tx. cbn [bind].
  rewrite A, B. unfold parsePINode. rewrite C. reflexivity.
Qed.

Lemma round_closing (ms : mstate) (n : string) :
  test patSpecialTag (group 2 m) = false ->
  matches patStandardTag (group 2 m) = Some ms ->
  group 1 ms <> EmptyString -> lowerCase (opts p) = false ->
  name = Some n -> group 2 ms = n ->
  parse_loop (S fuel) top name branch p
  = Ok (b1, true) (set_lastIndex (pos m) p).
Proof.
  intros A B C D -> <-. cbn [parse_loop]. rewrite E, Tx. cbn [bind].
  rewrite A, B. cbn [set_lastIndex opts]. rewrite D.
  destruct (String.eqb (group 1 ms) EmptyString) eqn:G;
    [now apply String.eqb_eq in G|].
  cbn [negb]. now rewrite String.eqb_refl.
Qed.

Lemma round_opening (ms : mstate) :
  test patSpecialTag (group 2 m) = false ->
  matches patStandardTag (group 2 m) = Some ms ->
  group 1 ms = EmptyString -> lowerCase (opts p) = false ->
  test patSelfClosing (group 3 ms) = false ->
  parse_loop (S fuel) top name branch p
  = bind (finish false (Some (group 2 ms))
            (parse_loop fuel false (Some (group 2 ms))
               (new_leaf (set_lastIndex (pos m) p) (group 3 ms))
               (set_lastIndex (pos m) p)))
      (fun leaf q =>
         match add_leaf q top (group 2 ms) (compress q leaf) b1 with
         | Some b => if top then Ok (b, false) q
                     else parse_loop fuel top name b q
         | None => Throw Beyond q
         end).
Proof.
  intros A B C D F. cbn [parse_loop]. rewrite E, Tx. cbn [bind].
  rewrite A, B. cbn [set_lastIndex opts]. rewrite C, D, F. reflexivity.
Qed.

End Rounds.

(** The main loop on a document made of the header and one element
    that holds text: what it returns for the root. *)
Lemma loop_element (n : nat) (o : options) (T e name w attrs body : string)
  (leaf1 : obj) :
  T = xml_header ++ e ++ "<" ++ (name ++ w ++ attrs) ++ ">" ++ body
        ++ "<" ++ ("/" ++ name) ++ ">" ++ e ->
  lowerCase o = false ->
  all_chars ws e = true ->
  name <> EmptyString -> all_chars name_char name = true ->
  inherited name = false ->
  all_chars ws w = true ->
  match w with
  | EmptyString => attrs = EmptyString
  | _ => match attrs with String a _ => ws a = false | _ => True end
  end ->
  all_chars (not_char ">") attrs = true ->
  test patSelfClosing attrs = false ->
  all_chars (not_char "<") body = true ->
  let p := new_parser o T in
  let leaf := new_leaf p attrs in
  (if test (Cls non_ws) body then append_data p body leaf else Ok leaf p)
  = Ok leaf1 p ->
  exists q,
    parse_loop (S (S (S n))) true None [] p
    = Ok ([(name, compress p leaf1)], false) q /\
    errors q = [] /\ opts q = o.
Proof.
  intros HT Lc We N Cn In Ww Hw Ga Sc Cs p0 leaf Tx.
  assert (Ef : effective o = o) by (unfold effective; now rewrite Lc).
  assert (Gn : all_chars (not_char ">") name = true).
  { revert Cn. apply all_chars_weaken. intros a H.
    now apply name_char_plain in H. }
  assert (Le : all_chars (not_char "<") e = true).
  { revert We. apply all_chars_weaken. intros a H. now apply ws_plain in H. }
  assert (Gw : all_chars (not_char ">") w = true).
  { revert Ww. apply all_chars_weaken.
    intros [[] [] [] [] [] [] [] []]; vm_compute; congruence. }
  set (pi := "?xml version=" ++ quoted "1.0" ++ "?").
  (* the header *)
  destruct (exec_patTag_intro T "" "" pi
              (e ++ "<" ++ (name ++ w ++ attrs) ++ ">" ++ body
                 ++ "<" ++ ("/" ++ name) ++ ">" ++ e) 0
              HT eq_refl eq_refl eq_refl ltac:(discriminate))
    as (m1 & E1 & B1 & G1 & P1).
  rewrite (round_instruction _ _ _ _ _ [] p0 _ E1);
    rewrite ?G1, ?B1, ?P1; [|reflexivity|vm_compute; reflexivity..].
  (* the opening tag *)
  set (p1 := push_pi pi _).
  assert (O1 : lowerCase (opts p1) = false).
  { change (opts p1) with (effective o). now rewrite Ef. }
  assert (Gt : all_chars (not_char ">") (name ++ w ++ attrs) = true).
  { now rewrite !all_chars_append, Gn, Gw, Ga. }
  assert (Nt : name ++ w ++ attrs <> EmptyString).
  { destruct name; [now destruct N|discriminate]. }
  destruct (exec_patTag_intro T xml_header e (name ++ w ++ attrs)
              (body ++ "<" ++ ("/" ++ name) ++ ">" ++ e) (lastIndex p1)
              HT eq_refl Le Gt Nt)
    as (m2 & E2 & B2 & G2 & P2).
  destruct (matches_standard_tag "" name w attrs (or_introl eq_refl) N Cn
              Ww Hw) as (ms2 & M2 & S21 & S22 & S23).
  cbn [append] in M2.
  assert (X2 : test patSpecialTag (name ++ w ++ attrs) = false).
  { destruct name as [|a nm]; [now destruct N|].
    cbn [all_chars] in Cn. apply andb_true_iff in Cn as [Cn _].
    apply name_char_plain in Cn. now apply special_tag_miss. }
  assert (Tx2 : (if test (Cls non_ws) (group 1 m2)
                 then append_data (set_lastIndex (pos m2) p1) (group 1 m2) []
                 else Ok [] (set_lastIndex (pos m2) p1))
                = Ok [] (set_lastIndex (pos m2) p1))
    by (now rewrite B2, test_non_ws, We).
  rewrite (round_opening _ _ _ _ _ [] p1 _ E2 Tx2 ms2);
    rewrite ?G2, ?B2, ?S21, ?S22, ?S23; auto.
  (* the closing tag *)
  set (p2 := set_lastIndex (pos m2) p1).
  assert (O2 : lowerCase (opts p2) = false) by exact O1.
  change (new_leaf p2 attrs) with leaf.
  assert (HT3 : T = (xml_header ++ e ++ "<" ++ (name ++ w ++ attrs) ++ ">")
                      ++ body ++ "<" ++ ("/" ++ name) ++ ">" ++ e).
  { rewrite HT. rewrite !append_assoc. reflexivity. }
  assert (I3 : lastIndex p2
               = String.length (xml_header ++ e ++ "<" ++ (name ++ w ++ attrs)
                                  ++ ">")).
  { cbn [p2 set_lastIndex lastIndex]. rewrite P2.
    rewrite !length_append. cbn. lia. }
  assert (G3' : all_chars (not_char ">") ("/" ++ name) = true).
  { cbn [append all_chars]. now rewrite Gn. }
  destruct (exec_patTag_intro T _ body ("/" ++ name) e (lastIndex p2) HT3 I3
              Cs G3' ltac:(discriminate))
    as (m3 & E3 & B3 & G3 & P3).
  destruct (matches_standard_tag "/" name "" "" (or_intror eq_refl) N Cn
              eq_refl eq_refl) as (ms3 & M3 & S31 & S32 & S33).
  rewrite !append_nil_r in M3.
  assert (Tx3 : (if test (Cls non_ws) (group 1 m3)
                 then append_data (set_lastIndex (pos m3) p2) (group 1 m3) leaf
                 else Ok leaf (set_lastIndex (pos m3) p2))
                = Ok leaf1 (set_lastIndex (pos m3) p2)).
  { rewrite B3. apply (text_step_opts p0); [reflexivity | exact Tx]. }
  rewrite (round_closing _ _ _ _ _ leaf1 p2 _ E3 Tx3 ms3 name);
    rewrite ?G3, ?B3, ?S31, ?S32; auto; try discriminate.
  2: { apply special_tag_miss; reflexivity. }
  cbn [finish bind fst snd negb]. rewrite andb_false_r. cbn [bind].
  exists (set_lastIndex (pos m3) p2).
  unfold add_leaf. cbn [obj_get andb negb]. rewrite In, andb_false_r.
  rewrite obj_set_nil by now apply inherited_proto.
  split; [reflexivity | split; [reflexivity | exact Ef]].
Qed.

(** From the loop to parse_xml: the value of the root element is the
    tree, when the document node is not preserved. *)
Lemma parse_xml_root (fs : string -> option string) (o : options)
  (T name : string) (v : value) (n : nat) (q : XML) :
  test (Cat [Bos; star ws; Chr "<"]) T = true ->
  String.length T = S (S n) ->
  parse_loop (S (S (S n))) true None [] (new_parser o T)
  = Ok ([(name, v)], false) q ->
  errors q = [] -> preserveDocumentNode (opts q) = false ->
  name <> EmptyString -> name <> dataKey (opts q) ->
  keys_beyond (effective o) = false ->
  parse_xml fs T o = Returned v.
Proof.
  intros I L P Er Pd N D B.
  unfold parse_xml, XML_new, load. rewrite I.
  destruct T as [|a T]; [discriminate|]. rewrite L, B.
  unfold parse. rewrite P.
  cbn [finish bind fst snd truthy_name andb obj_delete].
  destruct (String.eqb name (dataKey (opts q))) eqn:Q;
    [now apply String.eqb_eq in Q|].
  cbn [num_keys List.length Nat.ltb Nat.leb first_key].
  destruct name as [|x nm]; [now destruct N|].
  cbn [truthy_name andb name_str obj_get]. rewrite Pd.
  rewrite String.eqb_refl. cbn [negb bind tree].
  unfold error_count. cbn [set_tree errors]. now rewrite Er.
Qed.

(** X14.  A text leaf written by compose_xml under a name that is no
    member of Object.prototype and parsed again: the text comes back
    with its entities decoded and its ends trimmed, since line 574
    writes it as it is. *)
Theorem text_leaf_is_read_back_decoded
  (fs : string -> option string) (c : composer) (name s : string) :
  let e := or_default nl (eol c) in
  all_chars ws e = true ->
  name <> EmptyString -> all_chars name_char name = true ->
  name <> "_Data" -> inherited name = false ->
  all_chars (not_char "<") s = true ->
  exists xml,
    stringify c (Str s) name = Done xml (Str s) /\
    parse_xml fs xml default_options
    = Returned (Str (trim (decode_entities s))).
Proof.
  intros e We N Cn D In Cs. eexists. split; [now apply stringify_str|].
  fold e.
  set (T := xml_header ++ e ++ "<" ++ name ++ ">" ++ s ++ "</" ++ name
              ++ ">" ++ e).
  assert (I : test (Cat [Bos; star ws; Chr "<"]) T = true).
  { unfold T. now apply test_inline_ext. }
  assert (L : exists n, String.length T = S (S n)).
  { unfold T. cbn. eauto. }
  destruct L as (n & L).
  assert (HT : T = xml_header ++ e ++ "<" ++ (name ++ "" ++ "") ++ ">" ++ s
                     ++ "<" ++ ("/" ++ name) ++ ">" ++ e).
  { unfold T. now rewrite !append_nil_r. }
  set (leaf1 := if all_chars ws s then @nil (string * value)
                else [("_Data", Str (trim (decode_entities s)))]).
  destruct (loop_element n default_options T e name "" "" s leaf1
              HT eq_refl We N Cn In eq_refl eq_refl eq_refl eq_refl Cs)
    as (q & P & Er & O).
  { replace (new_leaf _ "") with (@nil (string * value)) by reflexivity.
    rewrite test_non_ws. unfold leaf1.
    destruct (all_chars ws s); reflexivity. }
  apply (parse_xml_root fs default_options T name _ n q); auto;
    try (rewrite O; auto; fail).
  rewrite P. do 4 f_equal. unfold leaf1.
  destruct (all_chars ws s) eqn:Ws.
  - now rewrite decode_white, trim_white.
  - reflexivity.
Qed.

Lemma text_leaf_is_read_back_decoded_witness :
  exists xml,
    stringify default_composer (Str " a &amp; b ") "Note"
    = Done xml (Str " a &amp; b ") /\
    parse_xml no_files xml default_options
    = Returned (Str (trim (decode_entities " a &amp; b "))).
Proof.
  apply (text_leaf_is_read_back_decoded no_files default_composer "Note"
           " a &amp; b ").
  - vm_compute; reflexivity.
  - discriminate.
  - vm_compute; reflexivity.
  - discriminate.
  - reflexivity.
  - vm_compute; reflexivity.
Defined.

(** ** An element with an attribute and a text *)












(** ** The document node *)

Section DocumentNode.

Variable d : bool.

Lemma throwParseError_redoc (A : Type) key tag p :
  @throwParseError A key tag (redoc d p)
  = map_state (redoc d) (throwParseError key tag p).
Proof. reflexivity. Qed.

Lemma bind_redoc (A B : Type) (r : result A) (f g : A -> XML -> result B) :
  (forall a p, g a (redoc d p) = map_state (redoc d) (f a p)) ->
  bind (map_state (redoc d) r) g = map_state (redoc d) (bind r f).
Proof. intro H. destruct r; cbn [map_state bind]; auto. Qed.

Lemma parsePINode_redoc tag p :
  parsePINode tag (redoc d p) = map_state (redoc d) (parsePINode tag p).
Proof. unfold parsePINode. now destruct (negb _). Qed.

Lemma next_close_loop_redoc patEnd unclosed : forall fuel tag i p,
  next_close_loop fuel patEnd unclosed tag i (redoc d p)
  = map_state (redoc d) (next_close_loop fuel patEnd unclosed tag i p).
Proof.
  induction fuel as [|fuel IH]; intros tag i p; cbn [next_close_loop].
  - now destruct (test patEnd tag).
  - destruct (test patEnd tag); [reflexivity|].
    change (text (redoc d p)) with (text p).
    destruct (exec patNextClose (text p) i) as [[st m]|]; [apply IH|].
    reflexivity.
Qed.

Lemma parseCommentNode_redoc tag p :
  parseCommentNode tag (redoc d p)
  = map_state (redoc d) (parseCommentNode tag p).
Proof.
  unfold parseCommentNode.
  change (text (redoc d p)) with (text p).
  change (lastIndex (redoc d p)) with (lastIndex p).
  rewrite next_close_loop_redoc. now apply bind_redoc.
Qed.

Lemma parseDTDNode_redoc tag p :
  parseDTDNode tag (redoc d p) = map_state (redoc d) (parseDTDNode tag p).
Proof.
  unfold parseDTDNode.
  destruct (test patExternalDTDNode tag); [reflexivity|].
  destruct (test patInlineDTDNode tag); [|reflexivity].
  change (text (redoc d p)) with (text p).
  change (lastIndex (redoc d p)) with (lastIndex p).
  rewrite next_close_loop_redoc. apply bind_redoc.
  intros a q. cbv zeta. now destruct (test patDTDNode (fst a)).
Qed.

Lemma parseCDATANode_redoc tag p :
  parseCDATANode tag (redoc d p)
  = map_state (redoc d) (parseCDATANode tag p).
Proof.
  unfold parseCDATANode.
  change (text (redoc d p)) with (text p).
  change (lastIndex (redoc d p)) with (lastIndex p).
  rewrite next_close_loop_redoc. apply bind_redoc.
  intros a q. cbv zeta. now destruct (matches patCDATANode (fst a)).
Qed.

Lemma parse_attribs_redoc (o : options) raw : forall fuel i attribs,
  parse_attribs fuel (with_doc d o) raw i attribs
  = parse_attribs fuel o raw i attribs.
Proof.
  induction fuel as [|fuel IH]; intros i attribs; [reflexivity|].
  cbn [parse_attribs]. destruct (exec patAttrib raw i) as [[st m]|]; auto.
Qed.

Lemma new_leaf_redoc p raw : new_leaf (redoc d p) raw = new_leaf p raw.
Proof.
  unfold new_leaf. change (opts (redoc d p)) with (with_doc d (opts p)).
  now rewrite parse_attribs_redoc.
Qed.

Lemma append_data_redoc p s b :
  append_data (redoc d p) s b = map_state (redoc d) (append_data p s b).
Proof.
  unfold append_data. change (opts (redoc d p)) with (with_doc d (opts p)).
  cbn [with_doc dataKey preserveWhitespace].
  destruct (obj_get _ b) as [v|]; [destruct (to_str v)|destruct (inherited _)];
    reflexivity.
Qed.

(** The main loop does not read preserveDocumentNode. *)
Lemma parse_loop_redoc : forall fuel top name branch p,
  parse_loop fuel top name branch (redoc d p)
  = map_state (redoc d) (parse_loop fuel top name branch p).
Proof.
  induction fuel as [|fuel IH]; intros top name branch p; [reflexivity|].
  cbn [parse_loop].
  change (text (redoc d p)) with (text p).
  change (lastIndex (redoc d p)) with (lastIndex p).
  destruct (exec patTag (text p) (lastIndex p)) as [[st m]|]; [|reflexivity].
  change (set_lastIndex (pos m) (redoc d p))
    with (redoc d (set_lastIndex (pos m) p)).
  set (p0 := set_lastIndex (pos m) p).
  assert (TS : (if test (Cls non_ws) (group 1 m)
                then append_data (redoc d p0) (group 1 m) branch
                else Ok branch (redoc d p0))
               = map_state (redoc d)
                   (if test (Cls non_ws) (group 1 m)
                    then append_data p0 (group 1 m) branch
                    else Ok branch p0)).
  { destruct (test (Cls non_ws) (group 1 m));
      [apply append_data_redoc | reflexivity]. }
  rewrite TS. clear TS. apply bind_redoc. clearbody p0. clear p0.
  intros b1 p1.
  change (opts (redoc d p1)) with (with_doc d (opts p1)).
  change (lowerCase (with_doc d (opts p1))) with (lowerCase (opts p1)).
  destruct (test patSpecialTag (group 2 m)).
  - destruct (test patPITag (group 2 m)).
    { rewrite parsePINode_redoc. now apply bind_redoc. }
    destruct (test patCommentTag (group 2 m)).
    { rewrite parseCommentNode_redoc. now apply bind_redoc. }
    destruct (test patDTDTag (group 2 m)).
    { rewrite parseDTDNode_redoc. now apply bind_redoc. }
    destruct (test patCDATATag (group 2 m)); [|reflexivity].
    rewrite parseCDATANode_redoc. apply bind_redoc.
    intros a q. rewrite append_data_redoc. apply bind_redoc.
    intros b2 q2. apply IH.
  - destruct (matches patStandardTag (group 2 m)) as [ms|]; [|reflexivity].
    rewrite new_leaf_redoc.
    set (nodeName := if lowerCase (opts p1) then _ else _).
    destruct (negb (String.eqb (group 1 ms) EmptyString)).
    + destruct (String.eqb nodeName _); reflexivity.
    + assert (After : forall leaf q,
                match add_leaf (redoc d q) top nodeName
                        (compress (redoc d q) leaf) b1 with
                | Some b2 =>
                    if top then Ok (b2, false) (redoc d q)
                    else parse_loop fuel top name b2 (redoc d q)
                | None => Throw Beyond (redoc d q)
                end
                = map_state (redoc d)
                    match add_leaf q top nodeName (compress q leaf) b1 with
                    | Some b2 =>
                        if top then Ok (b2, false) q
                        else parse_loop fuel top name b2 q
                    | None => Throw Beyond q
                    end).
      { intros leaf q.
        change (add_leaf (redoc d q) top nodeName (compress (redoc d q) leaf)
                  b1)
          with (add_leaf q top nodeName (compress q leaf) b1).
        destruct (add_leaf q top nodeName (compress q leaf) b1) as [b2|];
          [|reflexivity].
        destruct top; [reflexivity|]. apply IH. }
      destruct (test patSelfClosing (group 3 ms)).
      * cbn [bind]. apply After.
      * rewrite IH.
        destruct (parse_loop fuel false (Some nodeName) _ p1)
          as [[leaf found] q| |]; cbn [map_state finish bind fst snd];
          try reflexivity.
        destruct (truthy_name (Some nodeName) && negb found);
          [reflexivity|]. cbn [bind]. apply After.
Qed.

End DocumentNode.

Lemma effective_with_doc d o : effective (with_doc d o) = with_doc d (effective o).
Proof. unfold effective. cbn [with_doc lowerCase]. now destruct (lowerCase o). Qed.

(** What is left of the top-level branch without its text: nothing, or
    the root element under its name. *)
Lemma add_leaf_top_shape p k n leaf b b' :
  add_leaf p true n leaf b = Some b' ->
  only_data k b ->
  obj_delete k b' = [] \/ exists v, obj_delete k b' = [(n, v)].
Proof.
  unfold add_leaf. rewrite andb_false_r.
  intros A [-> | [v ->]]; cbn [obj_get] in A.
  - destruct (inherited n) eqn:I; [discriminate|].
    rewrite obj_set_nil in A by now apply inherited_proto.
    injection A as <-. cbn [obj_delete].
    destruct (String.eqb n k); eauto.
  - destruct (String.eqb k n) eqn:E.
    + apply String.eqb_eq in E. subst n. left.
      destruct v; rewrite obj_set_single in A; injection A as <-;
        cbn [obj_delete]; now rewrite String.eqb_refl.
    + destruct (inherited n) eqn:I; [discriminate|].
      apply inherited_proto in I. injection A as <-.
      right. exists leaf. unfold obj_set, obj_has. cbn [obj_get].
      rewrite E, I.
      destruct (array_index n); cbn [obj_insert_index app obj_delete].
      * destruct (array_index k) as [j|].
        -- destruct (N.ltb j n0); cbn [obj_insert_index obj_delete];
             rewrite ?String.eqb_refl, ?(String.eqb_sym n k), ?E;
             cbn [obj_delete]; now rewrite ?String.eqb_refl.
        -- cbn [obj_delete].
           rewrite ?String.eqb_refl, ?(String.eqb_sym n k), ?E.
           cbn [obj_delete]. now rewrite ?String.eqb_refl.
      * now rewrite String.eqb_refl.
Qed.

Lemma top_loop_shape : forall fuel p b0 b f q,
  only_data (dataKey (opts p)) b0 ->
  parse_loop fuel true None b0 p = Ok (b, f) q ->
  obj_delete (dataKey (opts p)) b = [] \/
  exists n v, truthy_name (Some n) = true /\
              obj_delete (dataKey (opts p)) b = [(n, v)].
Proof.
  induction fuel as [|fuel IH]; intros p b0 b f q T H; [discriminate|].
  cbn [parse_loop] in H.
  destruct (exec patTag (text p) (lastIndex p)) as [[st m]|].
  2: { inversion H; subst. left.
       destruct T as [-> | [v ->]]; cbn [obj_delete];
         now rewrite ?String.eqb_refl. }
  set (p1 := set_lastIndex (pos m) p) in *.
  assert (O1 : opts p1 = opts p) by reflexivity.
  clearbody p1.
  pose proof (text_step p1 (group 1 m) b0) as TS.
  destruct (if test (Cls non_ws) (group 1 m) then _ else _)
    as [b1 p1'| |]; cbn [bind] in H; try discriminate.
  destruct TS as (-> & TS).
  assert (T1 : only_data (dataKey (opts p1)) b1).
  { rewrite O1. eapply texted_only; [exact O1 | exact TS | exact T]. }
  assert (Special : forall (r : result string),
            step_ok p1 r ->
            bind r (fun _ q' => parse_loop fuel true None b1 q') = Ok (b, f) q ->
            obj_delete (dataKey (opts p)) b = [] \/
            exists n v, truthy_name (Some n) = true /\
                        obj_delete (dataKey (opts p)) b = [(n, v)]).
  { intros r R B. destruct r as [a p2| |]; try discriminate.
    cbn [bind step_ok] in *. destruct R as ((R & _) & _).
    rewrite <- O1, <- R. apply (IH p2 b1 b f q); auto. now rewrite R. }
  destruct (test patSpecialTag (group 2 m)).
  - destruct (test patPITag (group 2 m));
      [apply (Special _ (parsePINode_ok _ _) H)|].
    destruct (test patCommentTag (group 2 m));
      [apply (Special _ (parseCommentNode_ok _ _) H)|].
    destruct (test patDTDTag (group 2 m));
      [apply (Special _ (parseDTDNode_ok _ _) H)|].
    destruct (test patCDATATag (group 2 m)).
    + pose proof (parseCDATANode_ok (group 2 m) p1) as R.
      destruct (parseCDATANode (group 2 m) p1) as [a p2| |]; try discriminate.
      cbn [bind step_ok] in *. destruct R as ((R & _) & _).
      destruct (append_data p2 a b1) as [b2 p2'| |] eqn:A; cbn [bind] in H;
        try discriminate.
      pose proof (append_data_same _ _ _ _ _ A). subst p2'.
      rewrite <- O1, <- R. apply (IH p2 b2 b f q); auto.
      eapply append_data_only; [exact A|]. now rewrite R.
    + rewrite throwParseError_eq in H. discriminate.
  - destruct (matches patStandardTag (group 2 m)) as [ms|] eqn:M.
    2: { rewrite throwParseError_eq in H. discriminate. }
    pose proof (node_name_truthy (lowerCase (opts p1)) _ _ M) as N.
    set (nodeName := if lowerCase (opts p1) then toLowerCase (group 2 ms)
                     else group 2 ms) in *.
    clearbody nodeName.
    destruct (negb (String.eqb (group 1 ms) EmptyString)).
    + destruct nodeName; [discriminate|]. cbn [String.eqb] in H.
      rewrite throwParseError_eq in H. discriminate.
    + assert (Leaf : forall leaf q0,
                match add_leaf q0 true nodeName (compress q0 leaf) b1 with
                | Some b2 => Ok (b2, false) q0
                | None => Throw Beyond q0
                end = Ok (b, f) q ->
                obj_delete (dataKey (opts p)) b = [] \/
                exists n v, truthy_name (Some n) = true /\
                            obj_delete (dataKey (opts p)) b = [(n, v)]).
      { intros leaf q0 A.
        destruct (add_leaf q0 true nodeName (compress q0 leaf) b1) as [b2|]
          eqn:AL; [|discriminate].
        inversion A; subst. rewrite <- O1.
        destruct (add_leaf_top_shape _ (dataKey (opts p1)) _ _ _ _ AL T1)
          as [Z | [v Z]]; eauto. }
      destruct (test patSelfClosing (group 3 ms)); [now apply (Leaf _ _ H)|].
      destruct (finish false (Some nodeName) _) as [leaf p2| |];
        try discriminate.
      now apply (Leaf _ _ H).
Qed.

(** X16.  preserveDocumentNode changes nothing but the wrapping of the
    tree in the name of the root element: with it the tree is the empty
    object or one key, the name of the root, over the tree that the
    parser returns without it; what is thrown is the same. *)
Theorem document_node_only_wraps
  (fs : string -> option string) (t : string) (o : options) :
  match parse_xml fs t (with_doc true o) with
  | Returned w =>
      (w = Hash [] /\ parse_xml fs t (with_doc false o) = Returned (Hash []))
      \/ (exists n v, n <> EmptyString /\ w = Hash [(n, v)] /\
                      parse_xml fs t (with_doc false o) = Returned v)
  | r => parse_xml fs t (with_doc false o) = r
  end.
Proof.
  unfold parse_xml, XML_new.
  destruct (load fs t) as [t'|e]; [|destruct e; reflexivity].
  destruct t' as [|a t'].
  { cbn [error_count errors new_parser List.length Nat.eqb tree]. now left. }
  set (s := String a t'). unfold parse.
  rewrite !effective_with_doc.
  change (keys_beyond (with_doc true (effective o)))
    with (keys_beyond (effective o)).
  change (keys_beyond (with_doc false (effective o)))
    with (keys_beyond (effective o)).
  destruct (keys_beyond (effective o)); [reflexivity|].
  assert (NP : forall d, new_parser (with_doc d o) s
                         = redoc d (new_parser o s)).
  { intro d. unfold new_parser, redoc. cbn [opts]. now rewrite effective_with_doc. }
  rewrite !NP, !parse_loop_redoc.
  pose proof (parse_loop_ok (S (String.length s)) true None []
                (new_parser o s)) as G.
  destruct (parse_loop (S (String.length s)) true None [] (new_parser o s))
    as [[b f] q|e q|] eqn:L;
    cbn [map_state finish bind fst snd truthy_name andb];
    [|destruct e; reflexivity|reflexivity].
  clear G. pose proof (parse_loop_keeps _ _ _ _ _ _ _ _ L) as (Ko & _ & Ke).
  pose proof (top_loop_shape _ _ _ _ _ _ (or_introl eq_refl) L) as Sh.
  rewrite <- Ko in Sh.
  change (dataKey (opts (redoc true q))) with (dataKey (opts q)).
  change (dataKey (opts (redoc false q))) with (dataKey (opts q)).
  change (preserveDocumentNode (opts (redoc true q))) with true.
  change (preserveDocumentNode (opts (redoc false q))) with false.
  assert (Er : forall d v n,
            error_count (set_tree v n (redoc d q)) = 0).
  { intros d v n. unfold error_count. cbn [set_tree redoc errors].
    now rewrite Ke. }
  destruct Sh as [Z | (n & v & Tn & Z)]; rewrite Z.
  - cbn [num_keys List.length Nat.ltb Nat.leb first_key truthy_name andb
         bind].
    rewrite !Er. cbn [Nat.eqb tree set_tree]. now left.
  - destruct n as [|x n]; [discriminate|].
    cbn [num_keys List.length Nat.ltb Nat.leb first_key truthy_name andb negb
         bind name_str obj_get].
    rewrite String.eqb_refl. cbn [bind]. rewrite !Er.
    cbn [Nat.eqb tree set_tree]. right. exists (String x n), v.
    repeat split. discriminate.
Qed.
